(** * agepad: a shallow embedding of the editor, the crypto gateway,
      the rotation engine and the env injector, with their properties.

    Go strings are byte sequences: they are modelled by [string] (a list of
    8-bit characters).  Go maps with string keys are [gmap string _].
    Functions of the Go standard library and of the third-party libraries
    (age, armor, textarea, difflib, the JSON/YAML/TOML parsers) are either
    written out from their documented behaviour, or taken as members of an
    interface ([Class]) that every section receives as a [Context]. *)

From Stdlib Require Import Ascii Arith Lia DecimalString.
From Stdlib Require String.
From stdpp Require Import base strings gmap list.

Local Open Scope stdpp_scope.
Set Warnings "-abstract-large-number".

(* ===================================================================== *)
(** * Go strings, as far as the program uses them                         *)
(* ===================================================================== *)

Module Strings.

Definition LF : ascii := "010"%char.
Definition CR : ascii := "013"%char.
Definition TAB : ascii := "009"%char.
Definition DQUOTE : ascii := "034"%char.
Definition NL : string := String LF "".

Definition bytes (l : list nat) : string :=
  String.string_of_list_ascii (ascii_of_nat <$> l).

(** [s == ""] and [s != t] on strings. *)
Definition eqb (s t : string) : bool := bool_decide (s = t).

(** strings.HasPrefix *)
Definition HasPrefix (s prefix : string) : bool := String.prefix prefix s.

(** strings.CutPrefix / strings.TrimPrefix with its success flag *)
Fixpoint CutPrefix (s prefix : string) {struct prefix} : option string :=
  match prefix, s with
  | EmptyString, _ => Some s
  | String a p', String b s' =>
      if bool_decide (a = b) then CutPrefix s' p' else None
  | String _ _, EmptyString => None
  end.

(** strings.HasSuffix *)
Definition HasSuffix (s suffix : string) : bool :=
  String.prefix (String.rev suffix) (String.rev s).

(** strings.Contains *)
Fixpoint Contains (s substr : string) : bool :=
  String.prefix substr s ||
  match s with
  | EmptyString => false
  | String _ s' => Contains s' substr
  end.

(** strings.ContainsAny, for one-byte characters *)
Fixpoint ContainsAny (s : string) (chars : list ascii) : bool :=
  match s with
  | EmptyString => false
  | String c s' => bool_decide (c ∈ chars) || ContainsAny s' chars
  end.

(** strings.SplitN(s, sep, 2) for a one-byte separator: the text before
    the first separator and the text after it, or [s] alone. *)
Fixpoint SplitN2 (s : string) (sep : ascii) : list string :=
  match s with
  | EmptyString => [EmptyString]
  | String c s' =>
      if bool_decide (c = sep) then [EmptyString; s']
      else match SplitN2 s' sep with
           | p0 :: rest => String c p0 :: rest
           | [] => []
           end
  end.

(** The six ASCII characters of the fast path of strings.TrimSpace. *)
Definition asciiSpace (c : ascii) : bool :=
  match c with
  | "009" | "010" | "011" | "012" | "013" | " " => true
  | _ => false
  end%char.

(** UTF-8 encodings of the runes above 0x7F for which unicode.IsSpace
    holds: U+0085, U+00A0, U+1680, U+2000..U+200A, U+2028, U+2029,
    U+202F, U+205F, U+3000. *)
Definition unicodeSpaces : list string :=
  [ bytes [194; 133]; bytes [194; 160]; bytes [225; 154; 128];
    bytes [226; 128; 128]; bytes [226; 128; 129]; bytes [226; 128; 130];
    bytes [226; 128; 131]; bytes [226; 128; 132]; bytes [226; 128; 133];
    bytes [226; 128; 134]; bytes [226; 128; 135]; bytes [226; 128; 136];
    bytes [226; 128; 137]; bytes [226; 128; 138]; bytes [226; 128; 168];
    bytes [226; 128; 169]; bytes [226; 128; 175]; bytes [226; 129; 159];
    bytes [227; 128; 128] ].

(** Number of bytes of the first of [runes] that [s] starts with, less
    one; [None] when [s] starts with none of them. *)
Fixpoint runeTail (runes : list string) (s : string) : option nat :=
  match runes with
  | [] => None
  | r :: runes' =>
      if String.prefix r s then Some (pred (String.length r))
      else runeTail runes' s
  end.

(** Drop leading white space; [skip] counts the remaining bytes of a
    multi-byte white-space rune being dropped. *)
Fixpoint trimGo (runes : list string) (skip : nat) (s : string) : string :=
  match s with
  | EmptyString => EmptyString
  | String c s' =>
      match skip with
      | S k => trimGo runes k s'
      | O =>
          if asciiSpace c then trimGo runes 0 s'
          else match runeTail runes s with
               | Some k => trimGo runes k s'
               | None => s
               end
      end
  end.

Definition TrimLeftSpace (s : string) : string := trimGo unicodeSpaces 0 s.

(** Trailing white space is decoded backwards from the end of the
    string, which finds the same byte sequences read in reverse. *)
Definition TrimRightSpace (s : string) : string :=
  String.rev (trimGo (String.rev <$> unicodeSpaces) 0 (String.rev s)).

(** strings.TrimSpace *)
Definition TrimSpace (s : string) : string := TrimRightSpace (TrimLeftSpace s).

(** strings.ToLower on the ASCII letters (no rune above 0x7F lowers to
    an ASCII letter of ".age"). *)
Definition lowerByte (c : ascii) : ascii :=
  let n := nat_of_ascii c in
  if (65 <=? n) && (n <=? 90) then ascii_of_nat (n + 32) else c.

Fixpoint ToLower (s : string) : string :=
  match s with
  | EmptyString => EmptyString
  | String c s' => String (lowerByte c) (ToLower s')
  end.

(** len(s) <= n ? s : s[:n] *)
Fixpoint firstBytes (n : nat) (s : string) : string :=
  match n, s with
  | S n', String c s' => String c (firstBytes n' s')
  | _, _ => EmptyString
  end.

(** strconv.Itoa / the %d verb on a non-negative int *)
Definition Itoa (n : nat) : string := NilEmpty.string_of_uint (Nat.to_uint n).

End Strings.

(* ===================================================================== *)
(** * bufio.Scanner with the default split function (ScanLines)          *)
(* ===================================================================== *)

Module Bufio.
Import Strings.

(** bufio.MaxScanTokenSize: a line that fills the 64 KiB buffer before a
    newline is seen stops the scan with ErrTooLong. *)
Definition MaxScanTokenSize : nat := 65536.

(** The text between the newlines: one more segment than newlines. *)
Fixpoint segments (s : string) : list string :=
  match s with
  | EmptyString => [EmptyString]
  | String c s' =>
      match segments s' with
      | l :: ls => if bool_decide (c = LF) then EmptyString :: l :: ls
                   else String c l :: ls
      | [] => []
      end
  end.

(** dropCR: one trailing carriage return is removed from a token. *)
Definition dropCR (s : string) : string :=
  match String.rev s with
  | String c r => if bool_decide (c = CR) then String.rev r else s
  | EmptyString => s
  end.

(** At end of input with no data left, ScanLines yields no token. *)
Fixpoint rawLines (segs : list string) : list string :=
  match segs with
  | [] => []
  | [last] => if eqb last "" then [] else [last]
  | l :: ls => l :: rawLines ls
  end.

(** The tokens delivered by successive calls of Scan, and whether the
    scan stopped on ErrTooLong (what [sc.Err()] reports afterwards). *)
Fixpoint scanTokens (raw : list string) : list string * bool :=
  match raw with
  | [] => ([], false)
  | l :: ls =>
      if MaxScanTokenSize <=? String.length l then ([], true)
      else let '(toks, err) := scanTokens ls in (dropCR l :: toks, err)
  end.

Definition Scan (s : string) : list string * bool :=
  scanTokens (rawLines (segments s)).

End Bufio.

(* ===================================================================== *)
(** * EnvInjector: the merge loop of runEnvExec (cmd/agepad/main.go)      *)
(* ===================================================================== *)

Module EnvMerge.
Import Strings.

(** [for _, kv := range os.Environ()]: one inherited entry. *)
Definition inheritEntry (envMap : gmap string string) (kv : string)
  : gmap string string :=
  match SplitN2 kv "=" with
  | [p0; p1] => <[p0 := p1]> envMap
  | _ => envMap
  end.

Definition inheritAll (environ : list string) : gmap string string :=
  foldl inheritEntry ∅ environ.

(** What one scanned line contributes: [Some (key, val)] when the loop
    body reaches [envMap[key] = val], [None] when it skips the line. *)
Definition parseLine (text : string) : option (string * string) :=
  let line := TrimSpace text in
  if eqb line "" || HasPrefix line "#" || negb (Contains line "=") then None
  else
    match SplitN2 line "=" with
    | p0 :: p1 :: _ =>
        let key := TrimSpace p0 in
        let val := p1 in
        if negb (eqb key "") then Some (key, val) else None
    | _ => None
    end.

(** The body of [for sc.Scan() { ... }]. *)
Definition overlayLine (envMap : gmap string string) (text : string)
  : gmap string string :=
  match parseLine text with
  | Some (key, val) => <[key := val]> envMap
  | None => envMap
  end.

Definition overlayAll (envMap : gmap string string) (lines : list string)
  : gmap string string :=
  foldl overlayLine envMap lines.

(** The map handed to the exec step, or the scanner's error. *)
Definition mergeEnv (environ : list string) (plain : string)
  : option (gmap string string) :=
  let '(lines, tooLong) := Bufio.Scan plain in
  let envMap := overlayAll (inheritAll environ) lines in
  if tooLong then None else Some envMap.

(** The decrypted text of the reference vector. *)
Definition referenceText : string :=
  "A=1" +:+ NL +:+ "#comment" +:+ NL +:+ "B=two words" +:+ NL +:+
  "=badline" +:+ NL +:+ "NOEQUALS" +:+ NL.

End EnvMerge.

(* ===================================================================== *)
(** * Errors, Bubble Tea messages, and the external libraries            *)
(* ===================================================================== *)

(** A Go [error] is its message. *)
Definition error : Type := string.

Inductive result (A : Type) : Type :=
| Ok (a : A)
| Fail (e : error).
Arguments Ok {A} a.
Arguments Fail {A} e.

Module Tea.
(** The messages Update distinguishes: the package's own snapshotTick,
    a tea.KeyMsg (by its String()), and anything else. *)
Inductive Msg :=
| SnapshotTick
| KeyMsg (key : string)
| OtherMsg (tag : nat).

(** nil, tea.Quit, the re-armed tea.Tick, or a command of the textarea. *)
Inductive Cmd := CmdNil | CmdQuit | CmdTick | CmdOther.
End Tea.

(** Package model (model/model.go). *)
Module Model.
(** Config holds the configuration for the TUI editor mode. *)
Record Config := mkConfig {
  FilePath : string;
  RecipientsFile : string;
  IdentitiesPath : string;
  Armor : bool;
  ViewOnly : bool
}.

(** RotateConfig holds the configuration for the rotate subcommand. *)
Record RotateConfig := mkRotateConfig {
  Root : string;
  FromRecipientsFile : string;
  ToRecipientsFile : string;
  RotateIdentitiesPath : string
}.

(** RunConfig holds the configuration for the run subcommand. *)
Record RunConfig := mkRunConfig {
  RunFilePath : string;
  RunIdentitiesPath : string;
  Command : list string
}.
End Model.

(** What the command-line library hands to the program: the action it
    selected, with the values of that action's flags (defaults filled
    in), or the positional arguments of [run]. *)
Inductive Invocation :=
| InvEditor (cfg : Model.Config)
| InvRotate (cfg : Model.RotateConfig)
| InvRun (args : list string)
| InvNone.

(** The libraries the program calls and does not define. *)
Class External := {
  (* urfave/cli: flag parsing and dispatch of cmd.Run, or its error
     (unknown flag, missing required flag) *)
  cli_Parse : list string → result Invocation;
  (* spf13/pflag, as the single-file program uses it *)
  pflag_Parse : list string → result Model.Config;
  pflag_ParseRotate : list string → result Model.RotateConfig;
  os_UserHomeDir : string;
  filepath_Join : list string → string;
  (* filippo.io/age *)
  Identity : Type;
  Recipient : Type;
  (** age.Encrypt(dst, recips...), the plaintext written to the stream it
      returns and that stream closed: the envelope that has reached [dst],
      or the error of age.Encrypt.  The library draws the file key at
      random; the draw is fixed here. *)
  age_Encrypt : list Recipient → string → result string;
  (** age.Decrypt(src, ids...), then io.ReadAll on the reader it returns:
      [Fail] when Decrypt itself fails, [Ok (Fail _)] when only the read of
      the payload fails *)
  age_Decrypt : list Identity → string → result (result string);
  age_ParseIdentities : string → result (list Identity);
  age_ParseRecipients : string → result (list Recipient);
  (* filippo.io/age/armor *)
  (** what armor.NewWriter has written once it is closed *)
  armor_Encode : string → string;
  (** what armor.NewReader delivers, or its error *)
  armor_Decode : string → result string;
  (** whether reading one byte from armor.NewReader succeeds *)
  armor_ReadsByte : string → bool;
  (* path/filepath, os/exec *)
  filepath_Dir : string → string;
  filepath_Base : string → string;
  (** filepath.WalkDir: the entries visited (path, name, is a directory),
      or the error the walk stops on *)
  filepath_WalkDir : gmap string string → string → result (list (string * string * bool));
  exec_LookPath : string → result string;
  (* encoding/json, gopkg.in/yaml.v3, go-toml/v2 *)
  json_Decode : string → option error;
  yaml_Unmarshal : string → option error;
  toml_Unmarshal : string → option error;
  (* go-difflib: SplitLines and GetUnifiedDiffString, context 3 *)
  difflib_Unified : string → string → string → string → string;
  (* bubbles/textarea *)
  textarea : Type;
  (** textarea.New() followed by SetValue, Focus and the fixed settings;
      the flag tells whether Blur was called *)
  ta_New : string → bool → textarea;
  ta_Value : textarea → string;
  ta_Update : textarea → Tea.Msg → textarea * Tea.Cmd;
  ta_View : textarea → string;
}.

(* ===================================================================== *)
(** * The operating system: files, the calls that change them, output     *)
(* ===================================================================== *)

Module OS.
Import Strings.

(** The calls that change the disk, as the process issues them. *)
Inductive Syscall :=
| SysCreateTemp (path : string)
| SysWrite (path : string)
| SysSync (path : string)
| SysClose (path : string)
| SysRename (oldpath newpath : string)
| SysRemove (path : string).

Record World := mkWorld {
  fs : gmap string string;       (* regular files: path to content *)
  trace : list Syscall;          (* disk-changing calls so far, newest first *)
  rand : list nat;               (* the random numbers os.CreateTemp will draw *)
  faults : list (option error);  (* outcome of each coming fallible I/O call *)
  stdout : list string;          (* lines printed, newest first *)
  stderr : list string;
  now : string                   (* time.Now(), in RFC 3339 *)
}.

Definition IO (A : Type) : Type := World → A * World.
Definition ret {A} (a : A) : IO A := λ w, (a, w).
Definition bind {A B} (c : IO A) (k : A → IO B) : IO B :=
  λ w, let '(a, w') := c w in k a w'.

Definition set_fs (f : gmap string string → gmap string string) (w : World) : World :=
  {| fs := f (fs w); trace := trace w; rand := rand w; faults := faults w;
     stdout := stdout w; stderr := stderr w; now := now w |}.
Definition set_rand (r : list nat) (w : World) : World :=
  {| fs := fs w; trace := trace w; rand := r; faults := faults w;
     stdout := stdout w; stderr := stderr w; now := now w |}.
Definition set_faults (f : list (option error)) (w : World) : World :=
  {| fs := fs w; trace := trace w; rand := rand w; faults := f;
     stdout := stdout w; stderr := stderr w; now := now w |}.
Definition log (c : Syscall) (w : World) : World :=
  {| fs := fs w; trace := c :: trace w; rand := rand w; faults := faults w;
     stdout := stdout w; stderr := stderr w; now := now w |}.

(** The next fallible call fails with this error, or succeeds. *)
Definition fault : IO (option error) :=
  λ w, match faults w with
       | [] => (None, w)
       | f :: rest => (f, set_faults rest w)
       end.

Definition Println (line : string) : IO unit :=
  λ w, (tt, {| fs := fs w; trace := trace w; rand := rand w; faults := faults w;
               stdout := line :: stdout w; stderr := stderr w; now := now w |}).
Definition Eprintln (line : string) : IO unit :=
  λ w, (tt, {| fs := fs w; trace := trace w; rand := rand w; faults := faults w;
               stdout := stdout w; stderr := line :: stderr w; now := now w |}).
Definition Now : IO string := λ w, (now w, w).

(** os.ReadFile, and os.Open followed by reading the file. *)
Definition ReadFile (path : string) : IO (result string) :=
  λ w, match fs w !! path with
       | Some data => (Ok data, w)
       | None => (Fail ("open " +:+ path +:+ ": no such file or directory"), w)
       end.

(** os.Stat reports whether the path exists. *)
Definition Stat (path : string) : IO bool :=
  λ w, (bool_decide (is_Some (fs w !! path)), w).

(** joinPath of package os: [dir + "/" + name] unless [dir] ends in "/". *)
Definition joinPath (dir name : string) : string :=
  if HasSuffix dir "/" then dir +:+ name else dir +:+ "/" +:+ name.

(** The loop of os.CreateTemp: draw names until one does not exist
    (O_EXCL), at most 10000 times. *)
Definition createTempTries : nat := 10000.

Fixpoint pickFresh (tries : nat) (files : gmap string string) (base : string)
    (draws : list nat) : option string * list nat :=
  match tries, draws with
  | S tries', n :: draws' =>
      let name := base +:+ Itoa n in
      match files !! name with
      | None => (Some name, draws')
      | Some _ => pickFresh tries' files base draws'
      end
  | _, _ => (None, draws)
  end.

(** os.CreateTemp(dir, prefix + "*"): an empty new file. *)
Definition CreateTemp (dir prefix : string) : IO (result string) :=
  bind fault (λ f,
    match f with
    | Some e => ret (Fail e)
    | None => λ w,
        match pickFresh createTempTries (fs w) (joinPath dir prefix) (rand w) with
        | (Some name, rest) =>
            (Ok name, log (SysCreateTemp name)
                          (set_fs (insert name "") (set_rand rest w)))
        | (None, rest) =>
            (Fail ("createtemp " +:+ joinPath dir prefix +:+ "*: file exists"),
             set_rand rest w)
        end
    end).

(** One write of [data] to the open file, one Sync, one Close: each may
    fail; a write that succeeds appends. *)
Definition Write (path data : string) : IO (option error) :=
  bind fault (λ f,
    match f with
    | Some e => ret (Some e)
    | None => λ w,
        (None, log (SysWrite path)
                   (set_fs (λ m, <[path := default "" (m !! path) +:+ data]> m) w))
    end).
Definition Sync (path : string) : IO (option error) :=
  bind fault (λ f,
    match f with
    | Some e => ret (Some e)
    | None => λ w, (None, log (SysSync path) w)
    end).
Definition Close (path : string) : IO (option error) :=
  bind fault (λ f,
    match f with
    | Some e => ret (Some e)
    | None => λ w, (None, log (SysClose path) w)
    end).

(** os.Rename replaces [newpath] in one step, or fails and changes
    nothing. *)
Definition Rename (oldpath newpath : string) : IO (option error) :=
  bind fault (λ f,
    match f with
    | Some e => ret (Some e)
    | None => λ w,
        match fs w !! oldpath with
        | Some data =>
            (None, log (SysRename oldpath newpath)
                       (set_fs (λ m, <[newpath := data]> (delete oldpath m)) w))
        | None =>
            (Some ("rename " +:+ oldpath +:+ " " +:+ newpath +:+
                   ": no such file or directory"), w)
        end
    end).

(** os.Remove: removes an existing file (its error is what a missing
    file gives). *)
Definition Remove (path : string) : IO (option error) :=
  λ w, match fs w !! path with
       | Some _ => (None, log (SysRemove path) (set_fs (delete path) w))
       | None => (Some ("remove " +:+ path +:+ ": no such file or directory"), w)
       end.

(** A path names a temp file of [dir]: [dir]/.agepad-tmp-* with no
    further path separator. *)
Definition tempPattern (dir path : string) : bool :=
  match CutPrefix path (joinPath dir ".agepad-tmp-") with
  | Some rest => negb (Contains rest "/")
  | None => false
  end.

End OS.

Notation "x <- c ;; k" := (OS.bind c (λ x, k))
  (at level 100, c at next level, right associativity).

(* ===================================================================== *)
(** * Package age: the crypto gateway (age/age.go)                       *)
(* ===================================================================== *)

Module Age.
Import Strings OS.

Section Gateway.
Context `{External}.

(** [if err != nil { return err }] between two fallible steps. *)
Definition andThen (c1 c2 : IO (option error)) : IO (option error) :=
  e <- c1 ;;
  match e with
  | Some _ => ret e
  | None => c2
  end.

(** fmt.Errorf(prefix + "%w", err) *)
Definition wrapErr (prefix : string) (c : IO (option error)) : IO (option error) :=
  e <- c ;; ret ((λ msg, prefix +:+ msg) <$> e).

(** LoadIdentities loads AGE identities from the specified file path. *)
Definition LoadIdentities (path : string) : IO (result (list Identity)) :=
  b <- ReadFile path ;;
  match b with
  | Fail e =>
      ret (Fail (NL +:+ "Could not read AGE key at " +:+ path +:+ NL +:+
                 "- If you don't have one:   age-keygen --output " +:+ path +:+ NL +:+
                 "- Or point to another key: --identities /path/to/key.txt" +:+ NL +:+
                 "Original error: " +:+ e))
  | Ok b =>
      match age_ParseIdentities b with
      | Fail e => ret (Fail ("failed to parse identities in " +:+ path +:+ ": " +:+ e))
      | Ok ids => ret (Ok ids)
      end
  end.

(** LoadRecipients loads AGE recipients from the specified file path. *)
Definition LoadRecipients (path : string) : IO (result (list Recipient)) :=
  b <- ReadFile path ;;
  match b with
  | Fail e =>
      ret (Fail (NL +:+ "Recipients file not found: " +:+ path +:+ NL +:+
                 "- Create one and commit it to your repo (recommended)." +:+ NL +:+
                 "- Example (one public key per line): age1xxxx..." +:+ NL +:+
                 "Original error: " +:+ e))
  | Ok b =>
      match age_ParseRecipients b with
      | Fail e => ret (Fail ("failed to parse recipients in " +:+ path +:+ ": " +:+ e))
      | Ok [] => ret (Fail ("no recipients in " +:+ path +:+
                            "; add at least one age public key"))
      | Ok rs => ret (Ok rs)
      end
  end.

(** What age.Decrypt and io.ReadAll make of the bytes of the file:
    through armor.NewReader when reading one byte from it succeeds,
    directly otherwise. *)
Definition decryptBytes (data : string) (ids : list Identity) : result string :=
  let reader := if armor_ReadsByte data then armor_Decode data else Ok data in
  match reader with
  | Fail e => Fail ("decrypt: " +:+ e)
  | Ok stream =>
      match age_Decrypt ids stream with
      | Fail e => Fail ("decrypt: " +:+ e)
      | Ok (Fail e) => Fail ("read plaintext: " +:+ e)
      | Ok (Ok plain) => Ok plain
      end
  end.

(** DecryptToMemory decrypts an AGE-encrypted file to memory. *)
Definition DecryptToMemory (cipherPath : string) (ids : list Identity)
  : IO (result string) :=
  f <- ReadFile cipherPath ;;
  match f with
  | Fail e => ret (Fail ("open ciphertext: " +:+ e))
  | Ok data => ret (decryptBytes data ids)
  end.

(** EncryptToMemory encrypts plaintext to memory using AGE.  The
    encryption stream is closed before the armor wrapper, so the
    armor encodes the complete envelope; writes to the buffer do not
    fail. *)
Definition EncryptToMemory (plaintext : string) (recips : list Recipient)
    (useArmor : bool) : result string :=
  if useArmor then
    match age_Encrypt recips plaintext with
    | Fail e => Fail e
    | Ok envelope => Ok (armor_Encode envelope)
    end
  else
    match age_Encrypt recips plaintext with
    | Fail e => Fail e
    | Ok envelope => Ok envelope
    end.

(** The statements of AtomicEncryptWrite between the [defer] and the
    return.  age.Encrypt fails when the library refuses the recipients
    or when the header cannot be written; each Write and Close on the
    streams is a fallible call; the bytes are in the file once the
    outermost stream is closed. *)
Definition encryptInto (tmpPath dstPath b : string) (recips : list Recipient)
    (useArmor : bool) : IO (option error) :=
  andThen
    (if useArmor then
       match age_Encrypt recips b with
       | Fail e => ret (Some ("encrypt: " +:+ e))
       | Ok envelope =>
           andThen (wrapErr "encrypt: " fault)            (* age.Encrypt(aw, ...) *)
          (andThen fault                                  (* w.Write(b) *)
          (andThen fault                                  (* w.Close() *)
                   (Write tmpPath (armor_Encode envelope)))) (* aw.Close() *)
       end
     else
       match age_Encrypt recips b with
       | Fail e => ret (Some ("encrypt: " +:+ e))
       | Ok envelope =>
           andThen (wrapErr "encrypt: " fault)            (* age.Encrypt(tmp, ...) *)
          (andThen fault                                  (* w.Write(b) *)
                   (Write tmpPath envelope))              (* w.Close() *)
       end)
 (andThen (wrapErr "sync: " (Sync tmpPath))
 (andThen (wrapErr "close temp: " (Close tmpPath))
          (Rename tmpPath dstPath))).

(** AtomicEncryptWrite encrypts and writes data to a file atomically. *)
Definition AtomicEncryptWrite (dstPath b : string) (recips : list Recipient)
    (useArmor : bool) : IO (option error) :=
  let dir := filepath_Dir dstPath in
  tmp <- CreateTemp dir ".agepad-tmp-" ;;
  match tmp with
  | Fail e => ret (Some ("create temp: " +:+ e))
  | Ok tmpPath =>
      e <- encryptInto tmpPath dstPath b recips useArmor ;;
      _ <- Remove tmpPath ;;                   (* the deferred os.Remove *)
      ret e
  end.

(** The bytes a successful write leaves at the destination. *)
Definition payload (envelope : string) (useArmor : bool) : string :=
  if useArmor then armor_Encode envelope else envelope.

(** Outcome-indexed triples for the fallible steps: from a world in
    [P], an error leaves a world in [Qerr], a nil one in [Qok]. *)
Definition triple (P : World → Prop) (c : IO (option error))
    (Qerr Qok : World → Prop) : Prop :=
  ∀ w, P w → match (c w).1 with
             | Some _ => Qerr (c w).2
             | None => Qok (c w).2
             end.

(** While the temp file is being filled: the disk is the disk at the
    call plus the temp file with content [d], and no further temp
    file has been created. *)
Definition filling (files : gmap string string) (tr : list Syscall)
    (tmpPath d : string) (w : World) : Prop :=
  fs w = <[tmpPath := d]> files ∧
  ∃ evs, trace w = evs ++ tr ∧ ∀ p, SysCreateTemp p ∉ evs.

(** After the rename: the destination holds [d], the temp name is
    gone. *)
Definition renamed (files : gmap string string) (tr : list Syscall)
    (tmpPath dstPath d : string) (w : World) : Prop :=
  fs w = <[dstPath := d]> (delete tmpPath files) ∧
  ∃ evs, trace w = evs ++ tr ∧ ∀ p, SysCreateTemp p ∉ evs.

End Gateway.
End Age.

(* ===================================================================== *)
(** * Package validator (validator/validator.go)                          *)
(* ===================================================================== *)

Module Validator.
Import Strings.

(** filepath.Ext: the suffix from the last dot of the last element. *)
Fixpoint extGo (acc : string) (rpath : string) : string :=
  match rpath with
  | EmptyString => ""
  | String c r =>
      if bool_decide (c = "/"%char) then ""
      else if bool_decide (c = "."%char) then String c acc
      else extGo (String c acc) r
  end.
Definition Ext (path : string) : string := extGo "" (String.rev path).

Definition looksLikeDotEnv (s : string) : bool :=
  let '(lines, matches) :=
    foldl (λ '(lines, matches) text,
             let line := TrimSpace text in
             if eqb line "" || HasPrefix line "#" then (lines, matches)
             else if Contains line "=" && negb (HasPrefix line "=")
                  then (S lines, S matches)
                  else (S lines, matches))
          (0, 0) (Bufio.Scan s).1 in
  (0 <? lines) && (0 <? matches).

(** The loop of validateDotEnv over the remaining lines. *)
Fixpoint validateLines (lineNo : nat) (lines : list string) : option error :=
  match lines with
  | [] => None
  | line :: rest =>
      let lineNo := S lineNo in
      let t := TrimSpace line in
      if eqb t "" || HasPrefix t "#" then validateLines lineNo rest
      else if negb (Contains t "=") || HasPrefix t "=" then
        Some (".env parse error on line " +:+ Itoa lineNo +:+ ": expected KEY=VALUE")
      else
        match SplitN2 t "=" with
        | kv0 :: _ =>
            let key := TrimSpace kv0 in
            if eqb key "" || ContainsAny key [" "%char; TAB; DQUOTE; "'"%char] then
              Some (".env invalid key on line " +:+ Itoa lineNo)
            else validateLines lineNo rest
        | [] => validateLines lineNo rest
        end
  end.

Definition validateDotEnv (s : string) : option error :=
  validateLines 0 (Bufio.Scan s).1.

Section Dispatch.
Context `{External}.

Definition validateJSON (content : string) : option error :=
  (λ e, "JSON parse error: " +:+ e) <$> json_Decode content.
Definition validateYAML (content : string) : option error :=
  (λ e, "YAML parse error: " +:+ e) <$> yaml_Unmarshal content.
Definition validateTOML (content : string) : option error :=
  (λ e, "TOML parse error: " +:+ e) <$> toml_Unmarshal content.

(** ValidateByExt validates content based on file extension. *)
Definition ValidateByExt (filename content : string) : option error :=
  let ext := ToLower (Ext filename) in
  if eqb ext ".json" then validateJSON content
  else if eqb ext ".yaml" || eqb ext ".yml" then validateYAML content
  else if eqb ext ".toml" then validateTOML content
  else if looksLikeDotEnv content then validateDotEnv content
  else None.
End Dispatch.
End Validator.

(* ===================================================================== *)
(** * Package tui (tui/tui.go)                                             *)
(* ===================================================================== *)


Module Tui.
Import Strings OS Model Tea.

Section Editor.
Context `{External}.

(** Model represents the TUI editor state. *)
Record Model := mkModel {
  cfg : Config;
  ta : textarea;
  orig : string;                 (* original plaintext (for diff) *)
  status : string;
  err : option error;
  identities : list Identity;
  recips : list Recipient;
  changed : bool;
  savedAt : string;
  lastSnapshot : string;         (* crash guard (RAM only) *)
  pendingConfirm : bool          (* save confirmation *)
}.

Definition set_ta (v : textarea) (m : Model) : Model :=
  mkModel (cfg m) v (orig m) (status m) (err m) (identities m) (recips m)
          (changed m) (savedAt m) (lastSnapshot m) (pendingConfirm m).
Definition set_orig (v : string) (m : Model) : Model :=
  mkModel (cfg m) (ta m) v (status m) (err m) (identities m) (recips m)
          (changed m) (savedAt m) (lastSnapshot m) (pendingConfirm m).
Definition set_status (v : string) (m : Model) : Model :=
  mkModel (cfg m) (ta m) (orig m) v (err m) (identities m) (recips m)
          (changed m) (savedAt m) (lastSnapshot m) (pendingConfirm m).
Definition set_err (v : option error) (m : Model) : Model :=
  mkModel (cfg m) (ta m) (orig m) (status m) v (identities m) (recips m)
          (changed m) (savedAt m) (lastSnapshot m) (pendingConfirm m).
Definition set_changed (v : bool) (m : Model) : Model :=
  mkModel (cfg m) (ta m) (orig m) (status m) (err m) (identities m) (recips m)
          v (savedAt m) (lastSnapshot m) (pendingConfirm m).
Definition set_savedAt (v : string) (m : Model) : Model :=
  mkModel (cfg m) (ta m) (orig m) (status m) (err m) (identities m) (recips m)
          (changed m) v (lastSnapshot m) (pendingConfirm m).
Definition set_lastSnapshot (v : string) (m : Model) : Model :=
  mkModel (cfg m) (ta m) (orig m) (status m) (err m) (identities m) (recips m)
          (changed m) (savedAt m) v (pendingConfirm m).
Definition set_pendingConfirm (v : bool) (m : Model) : Model :=
  mkModel (cfg m) (ta m) (orig m) (status m) (err m) (identities m) (recips m)
          (changed m) (savedAt m) (lastSnapshot m) v.

(** NewModel creates a new TUI model. *)
Definition NewModel (cfg : Config) (plaintext : string)
    (ids : list Identity) (recips : list Recipient) : Model :=
  {| cfg := cfg;
     ta := ta_New plaintext (ViewOnly cfg);
     orig := plaintext;
     status := "Opened " +:+ FilePath cfg +:+
               " (RAM). Ctrl+D: diff  Ctrl+S: save  Ctrl+Q: quit";
     err := None;
     identities := ids;
     recips := recips;
     changed := false;
     savedAt := "";
     lastSnapshot := plaintext;
     pendingConfirm := false |}.

Definition unifiedDiff (a b filename : string) : string :=
  difflib_Unified a b (filename +:+ " (original)") (filename +:+ " (edited)").

Definition truncate (s : string) (n : nat) : string :=
  if String.length s <=? n then s
  else firstBytes n s +:+ NL +:+ bytes [226; 128; 166] +:+ "(truncated)" +:+
       bytes [226; 128; 166].

Definition showBool (b : bool) : string := if b then "true" else "false".

(** case "ctrl+q", "esc" *)
Definition onQuit (m : Model) : Model * Cmd :=
  (* Double press protection if there are unsaved changes and not view-only *)
  if changed m && negb (ViewOnly (cfg m)) && negb (pendingConfirm m) then
    (set_pendingConfirm true
       (set_status "Unsaved changes; press Ctrl+Q again to quit without saving" m),
     CmdNil)
  else (m, CmdQuit).

(** case "ctrl+d" *)
Definition onDiff (m : Model) : Model * Cmd :=
  let diff := unifiedDiff (orig m) (ta_Value (ta m)) (filepath_Base (FilePath (cfg m))) in
  let m :=
    if eqb (TrimSpace diff) "" then
      set_status "No changes to show (buffers identical)." m
    else
      set_status ("Diff preview (first 2000 chars):" +:+ NL +:+ truncate diff 2000) m in
  (set_pendingConfirm false m, CmdNil).

(** case "ctrl+s" *)
Definition onSave (m : Model) : IO (Model * Cmd) :=
  if ViewOnly (cfg m) then
    ret (set_status "View-only mode: saving disabled." m, CmdNil)
  else
    let buf := ta_Value (ta m) in
    (* 1) Validate format (fail early before encryption) *)
    match Validator.ValidateByExt (FilePath (cfg m)) buf with
    | Some e =>
        ret (set_pendingConfirm false
               (set_status "Validation failed; not saved." (set_err (Some e) m)),
             CmdNil)
    | None =>
    (* 2) Recipient health preflight: encrypt to memory, then decrypt
          with identities. *)
    match Age.EncryptToMemory buf (recips m) (Armor (cfg m)) with
    | Fail e =>
        ret (set_pendingConfirm false
               (set_status "Save aborted."
                  (set_err (Some ("preflight encrypt: " +:+ e)) m)),
             CmdNil)
    | Ok cipher =>
    match age_Decrypt (identities m) cipher with
    | Fail e =>
        ret (set_pendingConfirm false
               (set_status "Save aborted. Update recipients or identities."
                  (set_err (Some ("preflight decrypt failed with current identities; " +:+
                                  "you may lock yourself out: " +:+ e)) m)),
             CmdNil)
    | Ok _ =>   (* drained; only that decryption is possible matters *)
    (* 3) Require explicit confirmation if content changed (double Ctrl+S). *)
    if negb (eqb (ta_Value (ta m)) (orig m)) && negb (pendingConfirm m) then
      let diff := unifiedDiff (orig m) (ta_Value (ta m))
                              (filepath_Base (FilePath (cfg m))) in
      ret (set_pendingConfirm true
             (set_status ("About to save. Diff (first 2000 chars):" +:+ NL +:+
                          truncate diff 2000 +:+ NL +:+
                          "Press Ctrl+S again to confirm.") m),
           CmdNil)
    else
      (* 4) Write atomically. *)
      e <- Age.AtomicEncryptWrite (FilePath (cfg m)) buf (recips m) (Armor (cfg m)) ;;
      match e with
      | Some e =>
          ret (set_pendingConfirm false (set_status "Save failed" (set_err (Some e) m)),
               CmdNil)
      | None =>
          t <- Now ;;
          ret (set_pendingConfirm false
                 (set_changed false
                    (set_orig buf
                       (set_status ("Saved " +:+ FilePath (cfg m) +:+ " (armor=" +:+
                                    showBool (Armor (cfg m)) +:+ ") at " +:+ t)
                          (set_savedAt t (set_err None m))))),
               CmdNil)
      end
    end end end.

(** The statements after the switch: every message no case returned
    on goes to the textarea. *)
Definition onOther (m : Model) (msg : Msg) : Model * Cmd :=
  let prev := ta_Value (ta m) in
  let '(ta', cmd) := ta_Update (ta m) msg in
  let m := set_ta ta' m in
  if negb (eqb prev (ta_Value (ta m))) then
    (set_pendingConfirm false (set_changed true m), cmd)
  else (m, cmd).

(** Update handles TUI events. *)
Definition Update (m : Model) (msg : Msg) : IO (Model * Cmd) :=
  match msg with
  | SnapshotTick => ret (set_lastSnapshot (ta_Value (ta m)) m, CmdTick)
  | KeyMsg t =>
      if eqb t "ctrl+q" || eqb t "esc" then ret (onQuit m)
      else if eqb t "ctrl+d" then ret (onDiff m)
      else if eqb t "ctrl+s" then onSave m
      else ret (onOther m msg)
  | OtherMsg _ => ret (onOther m msg)
  end.

(** View renders the TUI. *)
Definition View (m : Model) : string :=
  let errLine := match err m with
                 | Some e => NL +:+ "[ERROR] " +:+ e
                 | None => ""
                 end in
  status m +:+ NL +:+ NL +:+ ta_View (ta m) +:+ NL +:+ errLine +:+ NL.

(** The Bubble Tea event loop: messages are handled one at a time, to
    completion, until an Update returns tea.Quit. *)
Fixpoint run (m : Model) (msgs : list Msg) : IO Model :=
  match msgs with
  | [] => ret m
  | msg :: rest =>
      r <- Update m msg ;;
      match r.2 with
      | CmdQuit => ret r.1
      | _ => run r.1 rest
      end
  end.

(** The states the event loop can be in: the initial model, and what
    any Update returns from a reachable model, in any world. *)
Inductive reachable (m0 : Model) : Model → Prop :=
| reach_init : reachable m0 m0
| reach_step (m : Model) (msg : Msg) (w : World) :
    reachable m0 m → reachable m0 (Update m msg w).1.1.

(** The dirty flag is false only while the buffer is the snapshot. *)
Definition flagCovers (m : Model) : Prop :=
  changed m = false → ta_Value (ta m) = orig m.

(** Step 2 of a save request fails on the buffer of [m]: the encryption
    to memory fails, or the decryption of its output with the current
    identities does. *)
Definition preflightFails (m : Model) : Prop :=
  match Age.EncryptToMemory (ta_Value (ta m)) (recips m) (Armor (cfg m)) with
  | Fail _ => True
  | Ok cipher =>
      match age_Decrypt (identities m) cipher with
      | Fail _ => True
      | Ok _ => False
      end
  end.

(** Steps 1 and 2 of a save request pass on the buffer of [m]. *)
Definition checksPass (m : Model) : Prop :=
  ViewOnly (cfg m) = false ∧
  Validator.ValidateByExt (FilePath (cfg m)) (ta_Value (ta m)) = None ∧
  ∃ cipher r,
    Age.EncryptToMemory (ta_Value (ta m)) (recips m) (Armor (cfg m)) = Ok cipher ∧
    age_Decrypt (identities m) cipher = Ok r.

End Editor.
End Tui.

(* ===================================================================== *)
(** * The command (cmd/agepad/main.go)                                   *)
(* ===================================================================== *)

(** How the process ends: it exits with a status, or its image is
    replaced by the target command (syscall.Exec). *)
Inductive Ending :=
| Exit (code : Z)
| Exec (path : string) (argv : list string) (env : gmap string string).

(** What an action returns to cmd.Run: an error or nil, unless the
    process image was replaced on the way. *)
Inductive Returned :=
| Ret (e : option error)
| Replaced (path : string) (argv : list string) (env : gmap string string).

Module Main.
Import Strings OS Model Tea.

Definition appName : string := "agepad".
Definition defaultRecipientsFile : string := ".age-recipients".

(** The scan for the two "--" markers: [i] is the index of the head of
    [args], [firstDash] is -1 until the first marker is seen. *)
Fixpoint findDashes (args : list string) (i firstDash : Z) : Z * Z :=
  match args with
  | [] => (firstDash, (-1)%Z)
  | a :: rest =>
      if eqb a "--" then
        if (firstDash =? -1)%Z then findDashes rest (i + 1)%Z i
        else (firstDash, i)
      else findDashes rest (i + 1)%Z firstDash
  end.

(** args[lo:hi] *)
Definition slice (args : list string) (lo hi : Z) : list string :=
  take (Z.to_nat (hi - lo)) (drop (Z.to_nat lo) args).

(** The syntax check of [run]: the file and the command with its
    arguments, or the usage error. *)
Definition parseRun (args : list string) : result (string * list string) :=
  let '(firstDash, secondDash) := findDashes args 0 (-1) in
  if (firstDash =? -1)%Z || (secondDash =? -1)%Z ||
     (secondDash =? Z.of_nat (length args) - 1)%Z then
    Fail ("run usage: " +:+ appName +:+ " run -- <file.age> -- <command> [args...]")
  else
    let files := slice args (firstDash + 1) secondDash in
    match files with
    | [runFile] => Ok (runFile, drop (Z.to_nat (secondDash + 1)) args)
    | _ => Fail "run: expected exactly one AGE file after the first --"
    end.

Section Actions.
Context `{External}.

Definition defaultIdentitiesPath : string :=
  filepath_Join [os_UserHomeDir; ".config"; "age"; "key.txt"].

Definition runEditor (cfg : Config) (input : list Msg) : IO Returned :=
  (* Friendly guidance if key missing *)
  found <- Stat (IdentitiesPath cfg) ;;
  if negb found then
    ret (Ret (Some (NL +:+ "AGE private key not found at " +:+ IdentitiesPath cfg +:+ NL +:+
                    "- Generate one: age-keygen --output " +:+ IdentitiesPath cfg +:+ NL +:+
                    "- Or pass a different path: --identities /path/to/key.txt" +:+ NL)))
  else
    ids <- Age.LoadIdentities (IdentitiesPath cfg) ;;
    match ids with
    | Fail e => ret (Ret (Some e))
    | Ok ids =>
    recips <- Age.LoadRecipients (RecipientsFile cfg) ;;
    match recips with
    | Fail e => ret (Ret (Some e))
    | Ok recips =>
    plain <- Age.DecryptToMemory (FilePath cfg) ids ;;
    match plain with
    | Fail e => ret (Ret (Some e))
    | Ok plain =>
        let m := Tui.NewModel cfg plain ids recips in
        _ <- Tui.run m input ;;
        ret (Ret None)
    end end end.

(** The body of [for _, f := range files]: whether [ok] or [fail]
    is incremented. *)
Definition rotateFile (ids : list Identity) (newRecips : list Recipient)
    (f : string) : IO bool :=
  plain <- Age.DecryptToMemory f ids ;;
  match plain with
  | Fail e =>
      _ <- Eprintln ("rotate: decrypt failed for " +:+ f +:+ ": " +:+ e) ;;
      ret false
  | Ok plain =>
      e <- Age.AtomicEncryptWrite f plain newRecips true (* keep armor on rotate *) ;;
      match e with
      | Some e =>
          _ <- Eprintln ("rotate: re-encrypt failed for " +:+ f +:+ ": " +:+ e) ;;
          ret false
      | None => ret true
      end
  end.

Fixpoint rotateFiles (ids : list Identity) (newRecips : list Recipient)
    (files : list string) (ok fail : nat) : IO (nat * nat) :=
  match files with
  | [] => ret (ok, fail)
  | f :: rest =>
      done <- rotateFile ids newRecips f ;;
      if done : bool then rotateFiles ids newRecips rest (S ok) fail
      else rotateFiles ids newRecips rest ok (S fail)
  end.

(** The result of each iteration of the loop, in order: [false] where
    [fail] was incremented. *)
Fixpoint outcomes (ids : list Identity) (newRecips : list Recipient)
    (files : list string) : IO (list bool) :=
  match files with
  | [] => ret []
  | f :: rest =>
      done <- rotateFile ids newRecips f ;;
      outs <- outcomes ids newRecips rest ;;
      ret (done :: outs)
  end.

(** How many iterations ended this way. *)
Definition tally (b : bool) (outs : list bool) : nat :=
  length (filter (λ x, x = b) outs).

(** The callback of filepath.WalkDir. *)
Definition matched (entries : list (string * string * bool)) : list string :=
  omap (λ '(path, name, isDir),
          if negb isDir && HasSuffix (ToLower name) ".age" then Some path else None)
       entries.

(** Specification side, for the statements about the loop: a file of
    the disk that the identities open and whose plaintext the library
    seals for the new recipients.  The program has no such function; it
    says of a file, without running the loop, whether its iteration can
    succeed. *)
Definition rotatable (ids : list Identity) (newRecips : list Recipient)
    (files : gmap string string) (f : string) : bool :=
  match files !! f with
  | Some old =>
      match Age.decryptBytes old ids with
      | Ok plain =>
          match age_Encrypt newRecips plain with
          | Ok _ => true
          | Fail _ => false
          end
      | Fail _ => false
      end
  | None => false
  end.

Definition runRotate (cfg : RotateConfig) : IO Returned :=
  ids <- Age.LoadIdentities (RotateIdentitiesPath cfg) ;;
  match ids with
  | Fail e => ret (Ret (Some e))
  | Ok ids =>
  newRecips <- Age.LoadRecipients (ToRecipientsFile cfg) ;;
  match newRecips with
  | Fail e => ret (Ret (Some e))
  | Ok newRecips =>
  walk <- (λ w, (filepath_WalkDir (fs w) (Root cfg), w)) ;;
  match walk with
  | Fail e => ret (Ret (Some e))
  | Ok entries =>
      let files := matched entries in
      if bool_decide (length files = 0) then
        ret (Ret (Some ("rotate: no .age files found under " +:+ Root cfg)))
      else
        counts <- rotateFiles ids newRecips files 0 0 ;;
        _ <- Println ("rotate complete: " +:+ Itoa counts.1 +:+ " success, " +:+
                      Itoa counts.2 +:+ " failed") ;;
        if 0 <? counts.2 then
          ret (Ret (Some "rotate: some files failed (see stderr)"))
        else ret (Ret None)
  end end end.

(** The statements of runEnvExec after the syntax check. *)
Definition envExec (environ : list string) (cfg : RunConfig) : IO Returned :=
  ids <- Age.LoadIdentities (RunIdentitiesPath cfg) ;;
  match ids with
  | Fail e => ret (Ret (Some e))
  | Ok ids =>
  plain <- Age.DecryptToMemory (RunFilePath cfg) ids ;;
  match plain with
  | Fail e => ret (Ret (Some e))
  | Ok plain =>
      (* Merge decrypted KEY=VAL lines into environment *)
      match EnvMerge.mergeEnv environ plain with
      | None => ret (Ret (Some "bufio.Scanner: token too long"))
      | Some envMap =>
          (* Replace current process with target command *)
          let cmdName := default "" (head (Command cfg)) in
          match exec_LookPath cmdName with
          | Fail _ => ret (Ret (Some ("run: command not found: " +:+ cmdName)))
          | Ok path =>
              f <- fault ;;
              match f with
              | Some e => ret (Ret (Some e))
              | None => ret (Replaced path (Command cfg) envMap)
              end
          end
      end
  end end.

Definition runEnvExec (environ args : list string) : IO Returned :=
  (* Syntax: agepad run -- <file.age> -- <command> [args...] *)
  match parseRun args with
  | Fail e => ret (Ret (Some e))
  | Ok (runFile, runArgs) =>
      envExec environ {| RunFilePath := runFile;
                         RunIdentitiesPath := defaultIdentitiesPath;
                         Command := runArgs |}
  end.

(** cmd.Run(ctx, os.Args): the library parses and calls the action. *)
Definition Run (osArgs environ : list string) (input : list Msg) : IO Returned :=
  match cli_Parse osArgs with
  | Fail e => ret (Ret (Some e))
  | Ok (InvEditor cfg) => runEditor cfg input
  | Ok (InvRotate cfg) => runRotate cfg
  | Ok (InvRun args) => runEnvExec environ args
  | Ok InvNone => ret (Ret None)
  end.

Definition main (osArgs environ : list string) (input : list Msg) : IO Ending :=
  r <- Run osArgs environ input ;;
  match r with
  | Ret (Some e) =>
      _ <- Eprintln ("error: " +:+ e) ;;
      ret (Exit 1)
  | Ret None => ret (Exit 0)
  | Replaced path argv env => ret (Exec path argv env)
  end.

End Actions.
End Main.

(* ===================================================================== *)
(** * The single-file program (package main with its own flag parsing)   *)
(* ===================================================================== *)

Module Legacy.
Import Strings OS Model Tea.

Section Program.
Context `{External}.

(** decryptToMemory: no armor detection in this version. *)
Definition decryptToMemory (cipherPath : string) (ids : list Identity)
  : IO (result string) :=
  f <- ReadFile cipherPath ;;
  match f with
  | Fail e => ret (Fail ("open ciphertext: " +:+ e))
  | Ok data =>
      match age_Decrypt ids data with
      | Fail e => ret (Fail ("decrypt: " +:+ e))
      | Ok (Fail e) => ret (Fail ("read plaintext: " +:+ e))
      | Ok (Ok plain) => ret (Ok plain)
      end
  end.

Definition parseTopLevelFlags (osArgs : list string) : result Config + Z :=
  match pflag_Parse osArgs with
  | Fail _ => inr 2%Z                  (* pflag.Parse exits by itself *)
  | Ok c =>
      if eqb (FilePath c) "" then
        inl (Fail "--file is required (or use subcommands: rotate | run)")
      else inl (Ok c)
  end.

Definition parseRotateFlags (osArgs : list string) : result RotateConfig :=
  match pflag_ParseRotate (drop 2 osArgs) with
  | Fail e => Fail e
  | Ok c =>
      if eqb (ToRecipientsFile c) "" then
        Fail "rotate: --to is required (path to new recipients file)"
      else Ok c
  end.

Definition parseRunFlags (osArgs : list string) : result (string * list string) :=
  Main.parseRun (drop 2 osArgs).

Definition rotateFile (ids : list Identity) (newRecips : list Recipient)
    (f : string) : IO bool :=
  plain <- decryptToMemory f ids ;;
  match plain with
  | Fail e =>
      _ <- Eprintln ("rotate: decrypt failed for " +:+ f +:+ ": " +:+ e) ;;
      ret false
  | Ok plain =>
      e <- Age.AtomicEncryptWrite f plain newRecips true ;;
      match e with
      | Some e =>
          _ <- Eprintln ("rotate: re-encrypt failed for " +:+ f +:+ ": " +:+ e) ;;
          ret false
      | None => ret true
      end
  end.

Fixpoint rotateFiles (ids : list Identity) (newRecips : list Recipient)
    (files : list string) (ok fail : nat) : IO (nat * nat) :=
  match files with
  | [] => ret (ok, fail)
  | f :: rest =>
      done <- rotateFile ids newRecips f ;;
      if done : bool then rotateFiles ids newRecips rest (S ok) fail
      else rotateFiles ids newRecips rest ok (S fail)
  end.

Definition runRotate (cfg : RotateConfig) : IO (option error) :=
  ids <- Age.LoadIdentities (RotateIdentitiesPath cfg) ;;
  match ids with
  | Fail e => ret (Some e)
  | Ok ids =>
  newRecips <- Age.LoadRecipients (ToRecipientsFile cfg) ;;
  match newRecips with
  | Fail e => ret (Some e)
  | Ok newRecips =>
  walk <- (λ w, (filepath_WalkDir (fs w) (Root cfg), w)) ;;
  match walk with
  | Fail e => ret (Some e)
  | Ok entries =>
      let files := Main.matched entries in
      if bool_decide (length files = 0) then
        ret (Some ("rotate: no .age files found under " +:+ Root cfg))
      else
        counts <- rotateFiles ids newRecips files 0 0 ;;
        _ <- Println ("rotate complete: " +:+ Itoa counts.1 +:+ " success, " +:+
                      Itoa counts.2 +:+ " failed") ;;
        if 0 <? counts.2 then ret (Some "rotate: some files failed (see stderr)")
        else ret None
  end end end.

Definition runEnvExec (environ : list string) (runFile : string)
    (runArgs : list string) : IO Returned :=
  ids <- Age.LoadIdentities Main.defaultIdentitiesPath ;;
  match ids with
  | Fail e => ret (Ret (Some e))
  | Ok ids =>
  plain <- decryptToMemory runFile ids ;;
  match plain with
  | Fail e => ret (Ret (Some e))
  | Ok plain =>
      match EnvMerge.mergeEnv environ plain with
      | None => ret (Ret (Some "bufio.Scanner: token too long"))
      | Some envMap =>
          let cmd := default "" (head runArgs) in
          match exec_LookPath cmd with
          | Fail _ => ret (Ret (Some ("run: command not found: " +:+ cmd)))
          | Ok path =>
              f <- fault ;;
              match f with
              | Some e => ret (Ret (Some e))
              | None => ret (Replaced path runArgs envMap)
              end
          end
      end
  end end.

Definition initialModel (cfg : Config) : IO (result Tui.Model) :=
  found <- Stat (IdentitiesPath cfg) ;;
  if negb found then
    ret (Fail (NL +:+ "AGE private key not found at " +:+ IdentitiesPath cfg +:+ NL +:+
               "- Generate one: age-keygen --output " +:+ IdentitiesPath cfg +:+ NL +:+
               "- Or pass a different path: --identities /path/to/key.txt" +:+ NL))
  else
    ids <- Age.LoadIdentities (IdentitiesPath cfg) ;;
    match ids with
    | Fail e => ret (Fail e)
    | Ok ids =>
    recips <- Age.LoadRecipients (RecipientsFile cfg) ;;
    match recips with
    | Fail e => ret (Fail e)
    | Ok recips =>
    plain <- decryptToMemory (FilePath cfg) ids ;;
    match plain with
    | Fail e => ret (Fail e)
    | Ok plain => ret (Ok (Tui.NewModel cfg plain ids recips))
    end end end.

Definition main (osArgs environ : list string) (input : list Msg) : IO Ending :=
  (* Subcommands first *)
  if bool_decide (osArgs !! 1 = Some "rotate") then
    match parseRotateFlags osArgs with
    | Fail e => _ <- Eprintln ("rotate: " +:+ e) ;; ret (Exit 2)
    | Ok cfg =>
        e <- runRotate cfg ;;
        match e with
        | Some e => _ <- Eprintln ("rotate: " +:+ e) ;; ret (Exit 1)
        | None => ret (Exit 0)
        end
    end
  else if bool_decide (osArgs !! 1 = Some "run") then
    match parseRunFlags osArgs with
    | Fail e => _ <- Eprintln ("run: " +:+ e) ;; ret (Exit 2)
    | Ok (runFile, runArgs) =>
        r <- runEnvExec environ runFile runArgs ;;
        match r with
        | Ret (Some e) => _ <- Eprintln ("run: " +:+ e) ;; ret (Exit 1)
        | Ret None => ret (Exit 0)
        | Replaced path argv env => ret (Exec path argv env)
        end
    end
  else
    (* Normal TUI mode *)
    match parseTopLevelFlags osArgs with
    | inr code => ret (Exit code)
    | inl (Fail e) => _ <- Eprintln ("error: " +:+ e) ;; ret (Exit 2)
    | inl (Ok cfg) =>
        m <- initialModel cfg ;;
        match m with
        | Fail e => _ <- Eprintln ("init error: " +:+ e) ;; ret (Exit 1)
        | Ok m => _ <- Tui.run m input ;; ret (Exit 0)
        end
    end.

End Program.
End Legacy.

(* ===================================================================== *)
(** * A test double for the external libraries                            *)
(* ===================================================================== *)

(** A small, executable stand-in for the libraries: keys are numbers, an
    envelope lists the recipient keys in clear before the payload, armor
    is a header and a footer line around the envelope, the textarea
    appends the typed character and understands backspace.  It is used
    to run the program on concrete inputs. *)
Module Double.
Import Strings Tea Model.

Definition intro : string := "age-encryption.org/v1".
Definition armorHeader : string := "-----BEGIN AGE ENCRYPTED FILE-----".
Definition armorFooter : string := "-----END AGE ENCRYPTED FILE-----".

Definition keyByte (k : nat) : ascii := ascii_of_nat k.

Fixpoint keyLine (ks : list nat) : string :=
  match ks with
  | [] => NL
  | k :: ks' => String (keyByte k) (keyLine ks')
  end.

Definition encrypt (recips : list nat) (plaintext : string) : result string :=
  match recips with
  | [] => Fail "no recipients specified"
  | _ => Ok (intro +:+ NL +:+ keyLine recips +:+ plaintext)
  end.

(** The keys up to the end of the line, and the payload after it. *)
Fixpoint readKeys (s : string) : option (list nat * string) :=
  match s with
  | EmptyString => None
  | String c s' =>
      if bool_decide (c = LF) then Some ([], s')
      else match readKeys s' with
           | Some (ks, payload) => Some (nat_of_ascii c :: ks, payload)
           | None => None
           end
  end.

Definition decrypt (ids : list nat) (src : string) : result (result string) :=
  match CutPrefix src (intro +:+ NL) with
  | None => Fail "failed to read header: unexpected intro"
  | Some rest =>
      match readKeys rest with
      | None => Fail "failed to read header: truncated"
      | Some (ks, payload) =>
          if bool_decide (Exists (λ i, i ∈ ks) ids) then Ok (Ok payload)
          else Fail "no identity matched any of the recipients"
      end
  end.

Definition armorEncode (envelope : string) : string :=
  armorHeader +:+ NL +:+ envelope +:+ NL +:+ armorFooter +:+ NL.

Definition armorDecode (s : string) : result string :=
  match CutPrefix s (armorHeader +:+ NL) with
  | None => Fail "invalid first line"
  | Some rest =>
      match CutPrefix (String.rev rest) (String.rev (NL +:+ armorFooter +:+ NL)) with
      | None => Fail "invalid closing line"
      | Some body => Ok (String.rev body)
      end
  end.

Definition armorReadsByte (s : string) : bool :=
  match armorDecode s with
  | Ok (String _ _) => true
  | _ => false
  end.

Definition parseKeys (s : string) : result (list nat) :=
  Ok (nat_of_ascii <$> String.list_ascii_of_string s).

(** Text before, and after, the last "/" of a path. *)
Fixpoint cutLast (acc : string) (rpath : string) : string * string :=
  match rpath with
  | EmptyString => (".", acc)
  | String c r =>
      if bool_decide (c = "/"%char) then
        ((if eqb r "" then "/" else String.rev r), acc)
      else cutLast (String c acc) r
  end.
Definition dir (path : string) : string := (cutLast "" (String.rev path)).1.
Definition base (path : string) : string := (cutLast "" (String.rev path)).2.

Definition walk (files : gmap string string) (root : string)
  : result (list (string * string * bool)) :=
  Ok (omap (λ '(path, _), if HasPrefix path (root +:+ "/")
                          then Some (path, base path, false) else None)
           (map_to_list files)).

Fixpoint join (elems : list string) : string :=
  match elems with
  | [] => ""
  | [e] => e
  | e :: rest => e +:+ "/" +:+ join rest
  end.

Definition diff (a b fromFile toFile : string) : string :=
  if eqb a b then ""
  else "--- " +:+ fromFile +:+ NL +:+ "+++ " +:+ toFile +:+ NL +:+
       "-" +:+ a +:+ NL +:+ "+" +:+ b +:+ NL.

(** The textarea: its text and whether it has the focus. *)
Definition dropLast (s : string) : string :=
  match String.rev s with
  | String _ r => String.rev r
  | EmptyString => s
  end.

Definition taUpdate (t : string * bool) (msg : Msg) : (string * bool) * Cmd :=
  match msg with
  | KeyMsg k =>
      if negb t.2 then (t, CmdNil)
      else if eqb k "backspace" then ((dropLast t.1, t.2), CmdNil)
      else if bool_decide (String.length k = 1) then ((t.1 +:+ k, t.2), CmdNil)
      else (t, CmdNil)
  | _ => (t, CmdOther)
  end.

(** The first "--" ends the parsing of flags and is not handed on
    with the arguments. *)
Fixpoint dropTerminator (args : list string) : list string :=
  match args with
  | [] => []
  | a :: rest => if eqb a "--" then rest else a :: dropTerminator rest
  end.

(** The root command declares --file as required: the library checks
    it before it dispatches to a subcommand, so a line without it stops
    on that error whatever follows. *)
Definition cliParse (osArgs : list string) : result Invocation :=
  match osArgs with
  | _ :: "--file" :: _ :: "run" :: rest => Ok (InvRun (dropTerminator rest))
  | [_; "--file"; _; "rotate"; "--to"; to'] =>
      Ok (InvRotate {| Root := "."; FromRecipientsFile := ".age-recipients";
                       ToRecipientsFile := to';
                       RotateIdentitiesPath := "/home/u/.config/age/key.txt" |})
  | [_; "--file"; f] =>
      Ok (InvEditor {| FilePath := f; RecipientsFile := ".age-recipients";
                       IdentitiesPath := "/home/u/.config/age/key.txt";
                       Armor := true; ViewOnly := false |})
  | _ => Fail "Required flag file not set"
  end.

Definition pflagParse (osArgs : list string) : result Config :=
  match osArgs with
  | [_; "--file"; f] =>
      Ok {| FilePath := f; RecipientsFile := ".age-recipients";
            IdentitiesPath := "/home/u/.config/age/key.txt";
            Armor := true; ViewOnly := false |}
  | [_] =>
      Ok {| FilePath := ""; RecipientsFile := ".age-recipients";
            IdentitiesPath := "/home/u/.config/age/key.txt";
            Armor := true; ViewOnly := false |}
  | _ => Fail "unknown flag"
  end.

Definition pflagParseRotate (args : list string) : result RotateConfig :=
  match args with
  | ["--to"; to'] =>
      Ok {| Root := "."; FromRecipientsFile := ".age-recipients";
            ToRecipientsFile := to';
            RotateIdentitiesPath := "/home/u/.config/age/key.txt" |}
  | [] =>
      Ok {| Root := "."; FromRecipientsFile := ".age-recipients";
            ToRecipientsFile := "";
            RotateIdentitiesPath := "/home/u/.config/age/key.txt" |}
  | _ => Fail "unknown flag"
  end.

#[export] Instance libs : External := {|
  cli_Parse := cliParse;
  pflag_Parse := pflagParse;
  pflag_ParseRotate := pflagParseRotate;
  os_UserHomeDir := "/home/u";
  filepath_Join := join;
  Identity := nat;
  Recipient := nat;
  age_Encrypt := encrypt;
  age_Decrypt := decrypt;
  age_ParseIdentities := parseKeys;
  age_ParseRecipients := parseKeys;
  armor_Encode := armorEncode;
  armor_Decode := armorDecode;
  armor_ReadsByte := armorReadsByte;
  filepath_Dir := dir;
  filepath_Base := base;
  filepath_WalkDir := walk;
  exec_LookPath := λ c, Ok ("/usr/bin/" +:+ c);
  json_Decode := λ _, None;
  yaml_Unmarshal := λ _, None;
  toml_Unmarshal := λ _, None;
  difflib_Unified := diff;
  textarea := string * bool;
  ta_New := λ text blurred, (text, negb blurred);
  ta_Value := fst;
  ta_Update := taUpdate;
  ta_View := fst
|}.

(** A textarea that sanitises the text it is given, as the widget does
    with what SetValue receives: a tab becomes four spaces. *)
Fixpoint expandTabs (s : string) : string :=
  match s with
  | EmptyString => EmptyString
  | String c r =>
      if bool_decide (c = TAB) then "    " +:+ expandTabs r
      else String c (expandTabs r)
  end.

(** The same libraries with that textarea. *)
Definition sanitising : External := {|
  cli_Parse := cliParse;
  pflag_Parse := pflagParse;
  pflag_ParseRotate := pflagParseRotate;
  os_UserHomeDir := "/home/u";
  filepath_Join := join;
  Identity := nat;
  Recipient := nat;
  age_Encrypt := encrypt;
  age_Decrypt := decrypt;
  age_ParseIdentities := parseKeys;
  age_ParseRecipients := parseKeys;
  armor_Encode := armorEncode;
  armor_Decode := armorDecode;
  armor_ReadsByte := armorReadsByte;
  filepath_Dir := dir;
  filepath_Base := base;
  filepath_WalkDir := walk;
  exec_LookPath := λ c, Ok ("/usr/bin/" +:+ c);
  json_Decode := λ _, None;
  yaml_Unmarshal := λ _, None;
  toml_Unmarshal := λ _, None;
  difflib_Unified := diff;
  textarea := string * bool;
  ta_New := λ text blurred, (expandTabs text, negb blurred);
  ta_Value := fst;
  ta_Update := taUpdate;
  ta_View := fst
|}.

(** An empty machine: no files, nothing printed, no fault scheduled. *)
Definition world (files : gmap string string) (draws : list nat)
    (faults : list (option error)) : OS.World :=
  {| OS.fs := files; OS.trace := []; OS.rand := draws; OS.faults := faults;
     OS.stdout := []; OS.stderr := []; OS.now := "2024-01-01T00:00:00Z" |}.

End Double.

(** Sessions on the test double: the file secrets/app.age is opened
    with plaintext A=1, binary envelopes, one key that is both the
    identity and the recipient. *)
Module Scenario.
Import Strings OS Model Tea Double.

Definition cfg : Config :=
  {| FilePath := "secrets/app.age"; RecipientsFile := ".age-recipients";
     IdentitiesPath := "/home/u/.config/age/key.txt";
     Armor := false; ViewOnly := false |}.

Definition onDisk : string := intro +:+ NL +:+ keyLine [7] +:+ "A=1".

Definition w0 : World := world {[ "secrets/app.age" := onDisk ]} [42] [].

Definition m0 : Tui.Model := Tui.NewModel cfg "A=1" [7] [7].

(** The session after these messages, and the machine with it. *)
Definition play (msgs : list Msg) : Tui.Model * World := Tui.run m0 msgs w0.

(** A session whose identity does not open what is sealed for the
    recipients. *)
Definition lockedOut : Tui.Model := Tui.NewModel cfg "A=1" [9] [7].

(** A tree to rotate from key 7 to key 8: one binary envelope, one file
    that is no envelope, one armored envelope, one file the suffix
    filter leaves out. *)
Definition rotateCfg : RotateConfig :=
  {| Root := "secrets"; FromRecipientsFile := ".age-recipients";
     ToRecipientsFile := "new-recipients";
     RotateIdentitiesPath := "/home/u/.config/age/key.txt" |}.

Definition tree : World :=
  world {[ "/home/u/.config/age/key.txt" := String (keyByte 7) "";
           "new-recipients" := String (keyByte 8) "";
           "secrets/a.age" := intro +:+ NL +:+ keyLine [7] +:+ "A=1";
           "secrets/b.age" := "not an envelope";
           "secrets/c.AGE" := armorEncode (intro +:+ NL +:+ keyLine [7] +:+ "C=3");
           "secrets/notes.txt" := "plain" ]}
        [5; 6; 7] [].

(** The same session opened in view-only mode. *)
Definition viewCfg : Config :=
  {| FilePath := "secrets/app.age"; RecipientsFile := ".age-recipients";
     IdentitiesPath := "/home/u/.config/age/key.txt";
     Armor := false; ViewOnly := true |}.

(** A machine whose next fallible call fails. *)
Definition fullDisk : World :=
  world {[ "secrets/app.age" := onDisk ]} [42] [Some "no space left on device"].

(** A tree with keys and no envelope. *)
Definition notesOnly : World :=
  world {[ "/home/u/.config/age/key.txt" := String (keyByte 7) "";
           "new-recipients" := String (keyByte 8) "";
           "secrets/notes.txt" := "plain" ]} [5] [].

End Scenario.

(* ===================================================================== *)
(** * Facts about strings, trimming and splitting                         *)
(* ===================================================================== *)

Module StringProps.
Import Strings.

Lemma string_app_assoc (s1 s2 s3 : string) :
  (s1 +:+ s2) +:+ s3 = s1 +:+ (s2 +:+ s3).
Proof. induction s1 as [|c s1 IH]; [done|]. cbv [String.append] in *. by f_equal. Qed.

Lemma string_app_nil_r (s : string) : s +:+ "" = s.
Proof. induction s as [|c s IH]; [done|]. cbv [String.append] in *. by f_equal. Qed.

Lemma rev_app_spec (s acc : string) : String.rev_app s acc = String.rev s +:+ acc.
Proof.
  unfold String.rev. revert acc. induction s as [|c s IH]; intros acc; simpl; [done|].
  rewrite (IH (String c acc)), (IH (String c "")).
  by rewrite string_app_assoc.
Qed.

Lemma rev_cons (c : ascii) (s : string) : String.rev (String c s) = String.rev s +:+ String c "".
Proof. unfold String.rev at 1. simpl. apply rev_app_spec. Qed.

Lemma rev_app (a b : string) : String.rev (a +:+ b) = String.rev b +:+ String.rev a.
Proof.
  induction a as [|c a IH].
  - change ("" +:+ b) with b. by rewrite string_app_nil_r.
  - change (String c a +:+ b) with (String c (a +:+ b)).
    by rewrite !rev_cons, IH, string_app_assoc.
Qed.

Lemma rev_involutive (s : string) : String.rev (String.rev s) = s.
Proof.
  induction s as [|c s IH]; [done|].
  by rewrite rev_cons, rev_app, IH.
Qed.

Lemma prefix_app_l (r a b : string) :
  String.prefix r a = true → String.prefix r (a +:+ b) = true.
Proof.
  revert a. induction r as [|c r IH]; intros a; simpl.
  - by destruct (a +:+ b).
  - destruct a as [|d a]; [done|].
    change (String d a +:+ b) with (String d (a +:+ b)). simpl.
    destruct (ascii_dec c d); [apply IH|done].
Qed.

Lemma runeTail_app (runes : list string) (a b : string) :
  runeTail runes (a +:+ b) = None → runeTail runes a = None.
Proof.
  induction runes as [|r runes IH]; simpl; [done|].
  destruct (String.prefix r a) eqn:Hp.
  - by rewrite (prefix_app_l _ _ b Hp).
  - destruct (String.prefix r (a +:+ b)); [done|]. apply IH.
Qed.

(** What trimming leaves starts with no white space. *)
Lemma trimGo_head (runes : list string) (skip : nat) (s : string) :
  match trimGo runes skip s with
  | EmptyString => True
  | String c t => asciiSpace c = false ∧ runeTail runes (String c t) = None
  end.
Proof.
  revert skip. induction s as [|c s IH]; intros skip; simpl; [done|].
  destruct skip as [|k]; [|apply IH].
  destruct (asciiSpace c) eqn:Hc; [apply IH|].
  destruct (runeTail runes (String c s)) eqn:Hr; [apply IH|done].
Qed.

Lemma trimGo_fixed (runes : list string) (c : ascii) (t : string) :
  asciiSpace c = false → runeTail runes (String c t) = None →
  trimGo runes 0 (String c t) = String c t.
Proof. intros Hc Hr. simpl. by rewrite Hc, Hr. Qed.

Lemma SplitN2_inv (s : string) (sep : ascii) (p0 p1 : string) (rest : list string) :
  SplitN2 s sep = p0 :: p1 :: rest → s = p0 +:+ String sep p1 ∧ rest = [].
Proof.
  revert p0. induction s as [|c s IH]; intros p0; simpl; [done|].
  case_bool_decide as Hc.
  - intros [= <- <- <-]. by subst.
  - destruct (SplitN2 s sep) as [|q0 qs] eqn:Hs; [done|].
    intros [= <- ->]. destruct (IH q0 eq_refl) as [-> ->]. done.
Qed.

Lemma TrimRightSpace_suffix (x a v : string) :
  TrimRightSpace x = a +:+ v → TrimRightSpace v = v.
Proof.
  unfold TrimRightSpace. intros Hx.
  apply (f_equal String.rev) in Hx. rewrite rev_involutive, rev_app in Hx.
  pose proof (trimGo_head (String.rev <$> unicodeSpaces) 0 (String.rev x)) as Hh.
  rewrite Hx in Hh.
  destruct (String.rev v) as [|c t] eqn:Hv.
  - apply (f_equal String.rev) in Hv. rewrite rev_involutive in Hv. by subst.
  - change (String c t +:+ String.rev a) with (String c (t +:+ String.rev a)) in Hh.
    destruct Hh as [Hc Hr].
    change (String c (t +:+ String.rev a)) with (String c t +:+ String.rev a) in Hr.
    apply runeTail_app in Hr.
    rewrite (trimGo_fixed _ _ _ Hc Hr), <- Hv. apply rev_involutive.
Qed.

Lemma string_length_app (a b : string) :
  String.length (a +:+ b) = String.length a + String.length b.
Proof.
  induction a as [|c a IH]; [done|].
  change (String c a +:+ b) with (String c (a +:+ b)). simpl. by rewrite IH.
Qed.

Lemma prefix_inv (r u : string) :
  String.prefix r u = true → ∃ v, u = r +:+ v.
Proof.
  revert u. induction r as [|c r IH]; intros u; simpl.
  - intros _. by exists u.
  - destruct u as [|d u]; [done|]. simpl.
    destruct (ascii_dec c d) as [->|]; [|done].
    intros Hp. destruct (IH u Hp) as [v ->]. by exists v.
Qed.

Lemma prefix_app (p s : string) : String.prefix p (p +:+ s) = true.
Proof.
  induction p as [|c p IH]; simpl.
  - by destruct s.
  - destruct (ascii_dec c c); [exact IH | done].
Qed.

Lemma runeTail_Some (runes : list string) (u : string) (j : nat) :
  runeTail runes u = Some j →
  ∃ r, r ∈ runes ∧ String.prefix r u = true ∧ j = pred (String.length r).
Proof.
  induction runes as [|r runes IH]; simpl; [done|].
  destruct (String.prefix r u) eqn:Hp.
  - intros [= <-]. exists r. split; [left|done].
  - intros Hj. destruct (IH Hj) as (r' & Hin & Hp' & ->). exists r'. split; [by right|done].
Qed.

Lemma runeTail_prefix (runes : list string) (r u : string) :
  r ∈ runes → String.prefix r u = true → runeTail runes u ≠ None.
Proof.
  induction runes as [|r' runes IH]; intros Hin Hp; [by apply not_elem_of_nil in Hin|].
  simpl. destruct (String.prefix r' u) eqn:Hp'; [done|].
  apply elem_of_cons in Hin as [->|Hin]; [congruence|]. by apply IH.
Qed.

Lemma trimGo_skip (runes : list string) (a b : string) :
  trimGo runes (String.length a) (a +:+ b) = trimGo runes 0 b.
Proof.
  induction a as [|c a IH]; [done|].
  change (String c a +:+ b) with (String c (a +:+ b)). simpl. exact IH.
Qed.

(** A string that trimming consumes entirely ends, read from its far
    end, with a white-space character. *)
Lemma trimGo_all (runes : list string) (n : nat) (u : string) :
  (∀ r, r ∈ runes → r ≠ "") →
  String.length u ≤ n → u ≠ "" → trimGo runes 0 u = "" →
  ∃ pre tok, u = pre +:+ tok ∧
    ((∃ c, tok = String c "" ∧ asciiSpace c = true) ∨ tok ∈ runes).
Proof.
  intros Hne. revert u. induction n as [|n IH]; intros u Hlen Hu Htrim.
  { destruct u; [done|simpl in Hlen; lia]. }
  destruct u as [|c u]; [done|]. simpl in Htrim, Hlen.
  destruct (asciiSpace c) eqn:Hc.
  - destruct u as [|d u].
    + exists "", (String c ""). split; [done|]. left. eauto.
    + destruct (IH (String d u)) as (pre & tok & Heq & Htok); [lia|done|done|].
      exists (String c pre), tok. split; [|done].
      change (String c pre +:+ tok) with (String c (pre +:+ tok)). by rewrite <- Heq.
  - destruct (runeTail runes (String c u)) as [j|] eqn:Hr; [|done].
    apply runeTail_Some in Hr as (r & Hin & Hp & ->).
    apply prefix_inv in Hp as [v Hv].
    destruct r as [|c' r]; [by apply Hne in Hin|].
    change (String c' r +:+ v) with (String c' (r +:+ v)) in Hv.
    injection Hv as <- ->. simpl in Htrim. rewrite trimGo_skip in Htrim.
    destruct v as [|d v].
    + exists "", (String c r). rewrite string_app_nil_r. split; [done|by right].
    + destruct (IH (String d v)) as (pre & tok & Heq & Htok); [|done|done|].
      { rewrite string_length_app in Hlen. lia. }
      exists (String c r +:+ pre), tok. split; [|done].
      by rewrite string_app_assoc, <- Heq.
Qed.

Lemma trimGo_suffix (runes : list string) (skip : nat) (s : string) :
  ∃ pre, s = pre +:+ trimGo runes skip s.
Proof.
  revert skip. induction s as [|c s IH]; intros skip; simpl; [by exists ""|].
  assert (Hdrop : ∀ k, ∃ pre, String c s = pre +:+ trimGo runes k s).
  { intros k. destruct (IH k) as [pre Hpre]. exists (String c pre).
    change (String c pre +:+ trimGo runes k s) with (String c (pre +:+ trimGo runes k s)).
    by rewrite <- Hpre. }
  destruct skip as [|k]; [|apply Hdrop].
  destruct (asciiSpace c); [apply Hdrop|].
  destruct (runeTail runes (String c s)); [apply Hdrop|by exists ""].
Qed.

Lemma rev_nil_inv (s : string) : String.rev s = "" → s = "".
Proof. intros Hs. apply (f_equal String.rev) in Hs. by rewrite rev_involutive in Hs. Qed.

(** The text before the first "=" of a trimmed line is empty, or stays
    non-empty when it is trimmed. *)
Lemma TrimSpace_key_nonempty (text k rest : string) :
  TrimSpace text = k +:+ rest → k ≠ "" → TrimSpace k ≠ "".
Proof.
  unfold TrimSpace. intros Hline Hk.
  set (s0 := TrimLeftSpace text) in *.
  destruct (trimGo_suffix (String.rev <$> unicodeSpaces) 0 (String.rev s0)) as [pre Hpre].
  apply (f_equal String.rev) in Hpre. rewrite rev_involutive, rev_app in Hpre.
  fold (TrimRightSpace s0) in Hpre. rewrite Hline, string_app_assoc in Hpre.
  pose proof (trimGo_head unicodeSpaces 0 text) as Hh. fold (TrimLeftSpace text) in Hh.
  fold s0 in Hh. rewrite Hpre in Hh.
  destruct k as [|c k]; [done|].
  change (String c k +:+ rest +:+ String.rev pre)
    with (String c (k +:+ rest +:+ String.rev pre)) in Hh.
  destruct Hh as [Hc Hr].
  change (String c (k +:+ rest +:+ String.rev pre))
    with (String c k +:+ (rest +:+ String.rev pre)) in Hr.
  apply runeTail_app in Hr.
  assert (TrimLeftSpace (String c k) = String c k) as -> by (by apply trimGo_fixed).
  unfold TrimRightSpace. intros Hnil. apply rev_nil_inv in Hnil.
  destruct (trimGo_all (String.rev <$> unicodeSpaces) (String.length (String.rev (String c k)))
              (String.rev (String c k))) as (p & tok & Heq & Htok); [|done| |done|].
  { intros r Hin. apply list_elem_of_fmap in Hin as (r0 & -> & Hin0).
    intros Hr0. apply rev_nil_inv in Hr0. subst r0. revert Hin0.
    vm_compute. intros Hin0. repeat (apply elem_of_cons in Hin0 as [?|Hin0]; [done|]).
    by apply not_elem_of_nil in Hin0. }
  { intros Hnil'. by apply rev_nil_inv in Hnil'. }
  apply (f_equal String.rev) in Heq. rewrite rev_involutive, rev_app in Heq.
  destruct Htok as [(c' & -> & Hc')|Hin].
  - change (String.rev (String c' "")) with (String c' "") in Heq.
    change (String c' "" +:+ String.rev p) with (String c' (String.rev p)) in Heq.
    injection Heq as <- _. congruence.
  - apply list_elem_of_fmap in Hin as (r0 & -> & Hin0). rewrite rev_involutive in Heq.
    apply (runeTail_prefix unicodeSpaces r0 (String c k) Hin0); [|done].
    rewrite Heq. apply prefix_app.
Qed.


End StringProps.

(* ===================================================================== *)
(** * Properties of the env injector                                      *)
(* ===================================================================== *)

Module EnvProps.
Import Strings EnvMerge StringProps.


(** Splitting at the first separator: the text before it holds none. *)
Lemma SplitN2_first (k v : string) (sep : ascii) :
  Contains k (String sep "") = false →
  SplitN2 (k +:+ String sep v) sep = [k; v].
Proof.
  induction k as [|c k IH]; simpl; intros Hk.
  - by rewrite bool_decide_eq_true_2.
  - destruct (ascii_dec sep c) as [->|Hne].
    + by destruct k.
    + rewrite bool_decide_eq_false_2 by congruence.
      rewrite IH; [done|].
      destruct (Contains k (String sep "")); [|done].
      by rewrite orb_true_r in Hk.
Qed.

Lemma Contains_sep (k v : string) (sep : ascii) :
  Contains (k +:+ String sep v) (String sep "") = true.
Proof.
  induction k as [|c k IH]; simpl.
  - destruct (ascii_dec sep sep); [|done]. by destruct v.
  - rewrite IH. apply orb_true_r.
Qed.

(** What a qualifying line contributes: the key is the trimmed text
    before the first "=" of the trimmed line, the value is all the text
    after it. *)
Lemma parseLine_qualifying (text k v : string) :
  TrimSpace text = k +:+ "=" +:+ v →
  Contains k "=" = false →
  HasPrefix (TrimSpace text) "#" = false →
  TrimSpace k ≠ "" →
  parseLine text = Some (TrimSpace k, v).
Proof.
  intros Hline Hk Hhash Hkey. unfold parseLine.
  rewrite Hhash, Hline.
  change (k +:+ "=" +:+ v) with (k +:+ String "="%char v).
  rewrite Contains_sep, (SplitN2_first _ _ _ Hk). simpl.
  assert (eqb (k +:+ String "="%char v) "" = false) as ->.
  { apply bool_decide_eq_false_2. by destruct k. }
  simpl. unfold eqb. by rewrite bool_decide_eq_false_2.
Qed.

(** Lines after which a key is not set again leave its entry alone. *)
Lemma overlayAll_untouched (lines : list string) (envMap : gmap string string)
    (key : string) :
  (∀ t v, t ∈ lines → parseLine t ≠ Some (key, v)) →
  overlayAll envMap lines !! key = envMap !! key.
Proof.
  revert envMap. induction lines as [|t lines IH]; intros envMap Hno; [done|].
  unfold overlayAll in *. simpl. rewrite IH.
  - unfold overlayLine. destruct (parseLine t) as [[k v]|] eqn:Ht; [|done].
    apply lookup_insert_ne. intros ->. eapply (Hno t v); [left|done].
  - intros t' v' Hin. apply Hno. by right.
Qed.

Lemma overlayAll_app (l1 l2 : list string) (envMap : gmap string string) :
  overlayAll envMap (l1 ++ l2) = overlayAll (overlayAll envMap l1) l2.
Proof. unfold overlayAll. apply foldl_app. Qed.

(** C7. Env merge reference vector: the text
    A=1 / #comment / B=two words / =badline / NOEQUALS over the
    inherited environment A=0, C=x yields exactly A=1, B=two words,
    C=x; the two malformed lines contribute nothing and the merge
    reports no error. *)
Theorem env_merge_reference_vector :
  mergeEnv ["A=0"; "C=x"] referenceText
    = Some {[ "A" := "1"; "B" := "two words"; "C" := "x" ]}
  ∧ parseLine "=badline" = None
  ∧ parseLine "NOEQUALS" = None.
Proof. repeat split; vm_compute; reflexivity. Qed.

(** C8, as the code has it. For every qualifying line (not blank, not
    starting with #, with an "=" that is not in the first position), the
    line is trimmed as a whole first; the trimmed line is split on its
    first "="; the left side, trimmed, is the key, which is not empty;
    the right side, with no further trimming, is the value that the
    merged environment holds for the key after this line: white space
    after the "=" and inside the value survives, and the value ends with
    no white space, since the end of the line was trimmed. *)
Theorem env_value_is_rest_of_trimmed_line
    (envMap : gmap string string) (text k v : string) :
  TrimSpace text = k +:+ "=" +:+ v →
  Contains k "=" = false →
  k ≠ "" →
  HasPrefix (TrimSpace text) "#" = false →
  overlayLine envMap text = <[TrimSpace k := v]> envMap
  ∧ overlayLine envMap text !! TrimSpace k = Some v
  ∧ TrimSpace k ≠ ""
  ∧ TrimRightSpace v = v.
Proof.
  intros Hline Hk Hne Hhash.
  assert (Hkey : TrimSpace k ≠ "") by (by eapply TrimSpace_key_nonempty).
  unfold overlayLine.
  rewrite (parseLine_qualifying _ _ _ Hline Hk Hhash Hkey).
  split; [done|]. split; [apply lookup_insert_eq|]. split; [done|].
  unfold TrimSpace in Hline. rewrite <- string_app_assoc in Hline.
  by eapply TrimRightSpace_suffix.
Qed.

(** Leading and embedded white space of the value survive. *)
Lemma env_value_is_rest_of_trimmed_line_witness :
  overlayLine ∅ "  KEY =  two  words" = <[TrimSpace "KEY " := "  two  words"]> ∅
  ∧ overlayLine ∅ "  KEY =  two  words" !! TrimSpace "KEY " = Some "  two  words"
  ∧ TrimSpace "KEY " ≠ ""
  ∧ TrimRightSpace "  two  words" = "  two  words".
Proof.
  apply (env_value_is_rest_of_trimmed_line ∅ "  KEY =  two  words" "KEY " "  two  words").
  - vm_compute. reflexivity.
  - vm_compute. reflexivity.
  - discriminate.
  - vm_compute. reflexivity.
Defined.

(** C8 as stated fails: white space after the value, at the end of the
    line, is removed with the trimming of the line. *)
Lemma env_value_trailing_space_lost :
  SplitN2 "KEY=value  " "=" = ["KEY"; "value  "]
  ∧ mergeEnv [] ("KEY=value  " +:+ NL) = Some {[ "KEY" := "value" ]}
  ∧ mergeEnv [] ("KEY=value  " +:+ NL) ≠ Some {[ "KEY" := "value  " ]}.
Proof.
  split; [vm_compute; reflexivity|].
  split; [vm_compute; reflexivity|].
  vm_compute. discriminate.
Qed.

(** C10. Last occurrence wins: when the merge succeeds and [text] is
    the last line that sets [key], the merged environment maps [key] to
    the value of that line, whatever the earlier lines and the
    inherited environment say about it. *)
Theorem env_last_occurrence_wins
    (environ : list string) (plain : string) (envMap : gmap string string)
    (before after : list string) (text key val : string) :
  mergeEnv environ plain = Some envMap →
  (Bufio.Scan plain).1 = before ++ text :: after →
  parseLine text = Some (key, val) →
  (∀ t v, t ∈ after → parseLine t ≠ Some (key, v)) →
  envMap !! key = Some val.
Proof.
  unfold mergeEnv. destruct (Bufio.Scan plain) as [lines tooLong]. simpl.
  intros Hm -> Htext Hafter. destruct tooLong; [done|].
  injection Hm as <-.
  rewrite overlayAll_app. change (text :: after) with ([text] ++ after).
  rewrite overlayAll_app, overlayAll_untouched by done.
  unfold overlayAll. simpl. unfold overlayLine. rewrite Htext.
  apply lookup_insert_eq.
Qed.

Lemma env_last_occurrence_wins_witness :
  default ∅ (mergeEnv ["K=inherited"; "Z=9"]
               ("K=first" +:+ NL +:+ "other=1" +:+ NL +:+ "K=last" +:+ NL +:+ "tail"))
    !! "K" = Some "last".
Proof.
  apply (env_last_occurrence_wins ["K=inherited"; "Z=9"]
           ("K=first" +:+ NL +:+ "other=1" +:+ NL +:+ "K=last" +:+ NL +:+ "tail") _
           ["K=first"; "other=1"] ["tail"] "K=last" "K" "last").
  - vm_compute. reflexivity.
  - vm_compute. reflexivity.
  - vm_compute. reflexivity.
  - intros t v Hin. apply list_elem_of_singleton in Hin as ->. vm_compute. discriminate.
Defined.

End EnvProps.

(* ===================================================================== *)
(** * Properties of the crypto gateway                                    *)
(* ===================================================================== *)

Module GatewayProps.
Import Strings OS Age StringProps.




Lemma pickFresh_spec (tries : nat) (files : gmap string string) (base : string)
    (draws rest : list nat) (name : string) :
  pickFresh tries files base draws = (Some name, rest) →
  files !! name = None ∧ ∃ n, name = base +:+ Itoa n.
Proof.
  revert draws. induction tries as [|tries IH]; intros [|n draws]; simpl; try done.
  destruct (files !! (base +:+ Itoa n)) eqn:Hl.
  - apply IH.
  - intros [= <- <-]. eauto.
Qed.

Local Opaque createTempTries.

Section Gateway.
Context `{External}.



Lemma triple_andThen (P R Qerr Qok : World → Prop) (c1 c2 : IO (option error)) :
  triple P c1 Qerr R → triple R c2 Qerr Qok → triple P (andThen c1 c2) Qerr Qok.
Proof.
  intros H1 H2 w HP. specialize (H1 w HP).
  unfold andThen, bind, ret. destruct (c1 w) as [[e|] w1]; simpl in *; [done|].
  apply H2, H1.
Qed.

Lemma triple_wrapErr (P Qerr Qok : World → Prop) (prefix : string)
    (c : IO (option error)) :
  triple P c Qerr Qok → triple P (wrapErr prefix c) Qerr Qok.
Proof.
  intros Hc w HP. specialize (Hc w HP).
  unfold wrapErr, bind, ret. by destruct (c w) as [[e|] w1].
Qed.

Lemma triple_weaken (P Qerr Qerr' Qok Qok' : World → Prop) (c : IO (option error)) :
  triple P c Qerr Qok → (∀ w, Qerr w → Qerr' w) → (∀ w, Qok w → Qok' w) →
  triple P c Qerr' Qok'.
Proof.
  intros Hc He Ho w HP. specialize (Hc w HP).
  destruct ((c w).1); auto.
Qed.



Lemma no_create_cons (c : Syscall) (evs : list Syscall) :
  (∀ p, c ≠ SysCreateTemp p) → (∀ p, SysCreateTemp p ∉ evs) →
  ∀ p, SysCreateTemp p ∉ c :: evs.
Proof.
  intros Hc Hevs p Hin. apply elem_of_cons in Hin as [Heq|Hin].
  - by eapply Hc.
  - by eapply Hevs.
Qed.

Section Steps.
Variables (files : gmap string string) (tr : list Syscall) (tmpPath : string).
Local Abbreviation Filling := (filling files tr tmpPath).

Local Abbreviation Broken := (λ w, ∃ d, filling files tr tmpPath d w).

Local Ltac step_goal Hfs Htr evs :=
  lazymatch goal with |- ∃ _, _ => eexists | _ => idtac end; split; simpl;
  [ rewrite ?Hfs, ?lookup_insert_eq; simpl;
    rewrite ?insert_insert_eq, ?delete_insert_eq; done
  | first [ by eauto
          | eexists (_ :: evs); rewrite Htr; split;
            [ done | by apply no_create_cons ] ] ].

Lemma triple_fault (d : string) :
  triple (Filling d) fault Broken (Filling d).
Proof.
  intros w [Hfs (evs & Htr & Hevs)]. unfold fault.
  destruct (faults w) as [|[e|] rest]; simpl; step_goal Hfs Htr evs.
Qed.

Lemma triple_Write (d data : string) :
  triple (Filling d) (Write tmpPath data) Broken (Filling (d +:+ data)).
Proof.
  intros w [Hfs (evs & Htr & Hevs)]. unfold Write, fault, bind, ret.
  destruct (faults w) as [|[e|] rest]; simpl; step_goal Hfs Htr evs.
Qed.

Lemma triple_Sync (d : string) :
  triple (Filling d) (Sync tmpPath) Broken (Filling d).
Proof.
  intros w [Hfs (evs & Htr & Hevs)]. unfold Sync, fault, bind, ret.
  destruct (faults w) as [|[e|] rest]; simpl; step_goal Hfs Htr evs.
Qed.

Lemma triple_Close (d : string) :
  triple (Filling d) (Close tmpPath) Broken (Filling d).
Proof.
  intros w [Hfs (evs & Htr & Hevs)]. unfold Close, fault, bind, ret.
  destruct (faults w) as [|[e|] rest]; simpl; step_goal Hfs Htr evs.
Qed.

Lemma triple_Rename (d dstPath : string) :
  triple (Filling d) (Rename tmpPath dstPath) Broken
         (renamed files tr tmpPath dstPath d).
Proof.
  intros w [Hfs (evs & Htr & Hevs)]. unfold Rename, fault, bind, ret.
  destruct (faults w) as [|[e|] rest]; simpl;
    rewrite ?Hfs, ?lookup_insert_eq; simpl; step_goal Hfs Htr evs.
Qed.

(** After the temp file exists: either the body fails and at most
    the temp file differs, or it succeeds and the temp file has
    become the destination, holding the envelope. *)
Lemma triple_encryptInto (dstPath b : string) (recips : list Recipient)
    (useArmor : bool) :
  triple (Filling "") (encryptInto tmpPath dstPath b recips useArmor)
         Broken
         (λ w, ∃ envelope, age_Encrypt recips b = Ok envelope ∧
                 renamed files tr tmpPath dstPath (payload envelope useArmor) w).
Proof.
  unfold encryptInto.
  destruct (age_Encrypt recips b) as [envelope|e] eqn:Henc.
  - eapply triple_weaken with (Qerr := Broken).
    + apply triple_andThen with (R := Filling (payload envelope useArmor)).
      * destruct useArmor; simpl.
        -- eapply triple_andThen; [apply triple_wrapErr, triple_fault|].
           eapply triple_andThen; [apply triple_fault|].
           eapply triple_andThen; [apply triple_fault|].
           apply (triple_Write "" (armor_Encode envelope)).
        -- eapply triple_andThen; [apply triple_wrapErr, triple_fault|].
           eapply triple_andThen; [apply triple_fault|].
           apply (triple_Write "" envelope).
      * eapply triple_andThen; [apply triple_wrapErr, triple_Sync|].
        eapply triple_andThen; [apply triple_wrapErr, triple_Close|].
        apply triple_Rename.
    + done.
    + eauto.
  - intros w Hw. destruct useArmor; simpl; eauto.
Qed.
End Steps.


(** The deferred os.Remove leaves the disk without the temp name. *)
Lemma Remove_fs (path : string) (w : World) :
  fs (Remove path w).2 = delete path (fs w)
  ∧ ∃ evs, trace (Remove path w).2 = evs ++ trace w ∧ ∀ p, SysCreateTemp p ∉ evs.
Proof.
  unfold Remove. destruct (fs w !! path) eqn:Hl; simpl.
  - split; [done|]. exists [SysRemove path]. split; [done|].
    apply no_create_cons; [done|]. intros p Hp. by apply not_elem_of_nil in Hp.
  - split; [by rewrite delete_id|]. exists []. split; [done|].
    intros p Hp. by apply not_elem_of_nil in Hp.
Qed.

(** What one call of AtomicEncryptWrite does to the disk: at most one
    temp file is created, in the directory of the destination and
    under a name that did not exist; on an error the disk is as
    before; on success the destination holds the new envelope and the
    temp name is absent. *)
Lemma AtomicEncryptWrite_spec (dstPath b : string) (recips : list Recipient)
    (useArmor : bool) (w : World) :
  let base := joinPath (filepath_Dir dstPath) ".agepad-tmp-" in
  let r := AtomicEncryptWrite dstPath b recips useArmor w in
  (∃ evs, trace r.2 = evs ++ trace w ∧
          ∀ p, SysCreateTemp p ∈ evs →
               fs w !! p = None ∧ ∃ n, p = base +:+ Itoa n) ∧
  match r.1 with
  | Some _ => fs r.2 = fs w
  | None =>
      ∃ envelope n,
        age_Encrypt recips b = Ok envelope ∧
        fs w !! (base +:+ Itoa n) = None ∧
        fs r.2 = delete (base +:+ Itoa n)
                   (<[dstPath := payload envelope useArmor]> (fs w))
  end.
Proof.
  intros base r. subst r.
  unfold AtomicEncryptWrite, CreateTemp, bind, ret. fold base.
  destruct (fault w) as [[e|] w0] eqn:Hfault; simpl.
  { unfold fault in Hfault. destruct (faults w) as [|f rest]; simplify_eq/=.
    split; [|done]. exists []. split; [done|].
    intros p Hp. by apply not_elem_of_nil in Hp. }
  assert (fs w0 = fs w ∧ trace w0 = trace w) as [Hfs0 Htr0].
  { unfold fault in Hfault. destruct (faults w) as [|f rest]; by simplify_eq/=. }
  destruct (pickFresh createTempTries (fs w0) base (rand w0)) as [[tmpPath|] rest] eqn:Hpick;
    simpl.
  2: { rewrite Hfs0, Htr0. split; [|done]. exists []. split; [done|].
       intros p Hp. by apply not_elem_of_nil in Hp. }
  apply pickFresh_spec in Hpick as [Hnone [n ->]]. rewrite Hfs0 in Hnone.
  set (tmpPath := base +:+ Itoa n) in *.
  set (w1 := log (SysCreateTemp tmpPath) (set_fs (insert tmpPath "") (set_rand rest w0))).
  pose proof (triple_encryptInto (fs w) (SysCreateTemp tmpPath :: trace w) tmpPath
                dstPath b recips useArmor w1) as Hbody.
  assert (filling (fs w) (SysCreateTemp tmpPath :: trace w) tmpPath "" w1) as Hw1.
  { split; simpl; [by rewrite Hfs0|]. exists []. rewrite Htr0. split; [done|].
    intros p Hp. by apply not_elem_of_nil in Hp. }
  specialize (Hbody Hw1).
  destruct (encryptInto tmpPath dstPath b recips useArmor w1) as [e w2]. simpl in Hbody.
  destruct (Remove_fs tmpPath w2) as [Hrm (evs3 & Htr3 & Hno3)].
  destruct (Remove tmpPath w2) as [e3 w3]. simpl in *.
  assert (Htrace : ∀ evs2, trace w2 = evs2 ++ SysCreateTemp tmpPath :: trace w →
            (∀ p, SysCreateTemp p ∉ evs2) →
            ∃ evs, trace w3 = evs ++ trace w ∧
              ∀ p, SysCreateTemp p ∈ evs →
                   fs w !! p = None ∧ ∃ n, p = base +:+ Itoa n).
  { intros evs2 Htr2 Hno2. exists (evs3 ++ evs2 ++ [SysCreateTemp tmpPath]).
    split.
    - rewrite Htr3, Htr2, <- !app_assoc. done.
    - intros p Hp. rewrite !elem_of_app in Hp. destruct Hp as [Hp|[Hp|Hp]].
      + by apply Hno3 in Hp.
      + by apply Hno2 in Hp.
      + apply list_elem_of_singleton in Hp. injection Hp as ->. eauto. }
  destruct e as [e|].
  - destruct Hbody as (d & Hfs2 & evs2 & Htr2 & Hno2).
    split; [by eapply Htrace|].
    by rewrite Hrm, Hfs2, delete_insert_eq, delete_id.
  - destruct Hbody as (envelope & Henc & Hfs2 & evs2 & Htr2 & Hno2).
    split; [by eapply Htrace|].
    exists envelope, n. repeat split; [done..|].
    rewrite Hrm, Hfs2. by rewrite (delete_id (fs w) tmpPath).
Qed.


(** Away from the destination the disk is as before, whatever the
    outcome. *)
Lemma AtomicEncryptWrite_frame (dstPath b : string) (recips : list Recipient)
    (useArmor : bool) (w : World) (p : string) :
  p ≠ dstPath →
  fs (AtomicEncryptWrite dstPath b recips useArmor w).2 !! p = fs w !! p.
Proof.
  intros Hp.
  destruct (AtomicEncryptWrite_spec dstPath b recips useArmor w) as [_ Hfs].
  destruct ((AtomicEncryptWrite dstPath b recips useArmor w).1).
  - by rewrite Hfs.
  - destruct Hfs as (envelope & n & _ & Hnone & ->).
    destruct (decide (p = joinPath (filepath_Dir dstPath) ".agepad-tmp-" +:+ Itoa n))
      as [->|Hne].
    + by rewrite lookup_delete_eq, Hnone.
    + by rewrite lookup_delete_ne, lookup_insert_ne.
Qed.

(** C4. Atomic-write temp cleanup: a call of AtomicEncryptWrite on a
    destination that is not itself named like a temp file, in a
    directory that holds no temp file, leaves no file matching
    .agepad-tmp-* in that directory, whether it returns nil or an
    error (of the temp creation, the encryption, a write, the sync, the
    close or the rename); every temp file it creates is created in the
    directory of the destination; every path other than the destination
    holds afterwards what it held before; and when it returns an error
    the disk, the destination included, is unchanged. *)
Theorem atomic_write_leaves_no_temp (dstPath b : string)
    (recips : list Recipient) (useArmor : bool) (w : World) :
  let dir := filepath_Dir dstPath in
  let r := AtomicEncryptWrite dstPath b recips useArmor w in
  (∀ p, is_Some (fs w !! p) → tempPattern dir p = false) →
  tempPattern dir dstPath = false →
  (∀ p, is_Some (fs r.2 !! p) → tempPattern dir p = false)
  ∧ (∃ evs, trace r.2 = evs ++ trace w ∧
       ∀ p, SysCreateTemp p ∈ evs →
            ∃ n, p = joinPath dir (".agepad-tmp-" +:+ Itoa n))
  ∧ (∀ p, p ≠ dstPath → fs r.2 !! p = fs w !! p)
  ∧ (r.1 ≠ None → fs r.2 = fs w ∧ fs r.2 !! dstPath = fs w !! dstPath).
Proof.
  intros dir r Hclean Hdst. subst r.
  destruct (AtomicEncryptWrite_spec dstPath b recips useArmor w)
    as [(evs & Htr & Hevs) Hfs].
  fold dir in Hevs, Hfs.
  assert (Hjoin : ∀ name, joinPath dir ".agepad-tmp-" +:+ name
                          = joinPath dir (".agepad-tmp-" +:+ name)).
  { intros name. unfold joinPath. destruct (HasSuffix dir "/"); simpl.
    - by rewrite string_app_assoc.
    - by rewrite !string_app_assoc. }
  refine (conj _ (conj _ (conj _ _))).
  3: { intros p Hp. by apply AtomicEncryptWrite_frame. }
  - destruct ((AtomicEncryptWrite dstPath b recips useArmor w).1).
    + rewrite Hfs. apply Hclean.
    + destruct Hfs as (envelope & n & _ & _ & ->). intros p [x Hx].
      apply lookup_delete_Some in Hx as [Hne Hx].
      apply lookup_insert_Some in Hx as [[<- _]|[_ Hx]]; [done|].
      apply Hclean. eauto.
  - exists evs. split; [done|]. intros p Hp.
    destruct (Hevs p Hp) as [_ [n ->]]. exists n. apply Hjoin.
  - destruct ((AtomicEncryptWrite dstPath b recips useArmor w).1); [|done].
    intros _. by rewrite Hfs.
Qed.

(** What the gateway reads back from a file that holds the output of
    the encryption, binary or armored. *)
Lemma decryptBytes_payload (P : string) (I : list Identity) (useArmor : bool)
    (envelope : string) :
  age_Decrypt I envelope = Ok (Ok P) →
  armor_Decode (armor_Encode envelope) = Ok envelope →
  armor_ReadsByte (armor_Encode envelope) = true →
  armor_ReadsByte envelope = false →
  decryptBytes (payload envelope useArmor) I = Ok P.
Proof.
  intros Hdec Harmor Hyes Hno. unfold decryptBytes.
  destruct useArmor; simpl.
  - by rewrite Hyes, Harmor, Hdec.
  - by rewrite Hno, Hdec.
Qed.


(** C5. Encrypt/decrypt round trip through the gateway: when the age
    library seals [P] for the recipients [R] in an envelope that the
    identities [I] open (the identity set matches), and the armor
    reader accepts what the armor writer wrote and not the binary
    envelope, then for both armor settings EncryptToMemory succeeds
    and DecryptToMemory of a file holding its output yields exactly
    [P]. *)
Theorem encrypt_decrypt_round_trip (P : string) (R : list Recipient)
    (I : list Identity) (useArmor : bool) (envelope : string) :
  age_Encrypt R P = Ok envelope →
  age_Decrypt I envelope = Ok (Ok P) →
  armor_Decode (armor_Encode envelope) = Ok envelope →
  armor_ReadsByte (armor_Encode envelope) = true →
  armor_ReadsByte envelope = false →
  ∃ cipher,
    EncryptToMemory P R useArmor = Ok cipher ∧
    ∀ (w : World) (path : string),
      fs w !! path = Some cipher → DecryptToMemory path I w = (Ok P, w).
Proof.
  intros Henc Hdec Harmor Hyes Hno.
  exists (payload envelope useArmor). split.
  - unfold EncryptToMemory. rewrite Henc. by destruct useArmor.
  - intros w path Hfile.
    unfold DecryptToMemory, ReadFile, bind, ret. rewrite Hfile.
    by rewrite (decryptBytes_payload P I useArmor envelope).
Qed.

End Gateway.

(** A run on the test double: the write replaces an existing file. *)
Lemma atomic_write_leaves_no_temp_witness :
  let w := Double.world {[ "secrets/app.age" := "old"; "secrets/other.txt" := "x" ]}
                        [42] [] in
  let r := AtomicEncryptWrite (H := Double.libs) "secrets/app.age" "hello" [7] true w in
  (∀ p, is_Some (fs r.2 !! p) → tempPattern "secrets" p = false)
  ∧ (∃ evs, trace r.2 = evs ++ trace w ∧
       ∀ p, SysCreateTemp p ∈ evs →
            ∃ n, p = joinPath "secrets" (".agepad-tmp-" +:+ Itoa n))
  ∧ (∀ p, p ≠ "secrets/app.age" → fs r.2 !! p = fs w !! p)
  ∧ (r.1 ≠ None → fs r.2 = fs w ∧ fs r.2 !! "secrets/app.age" = fs w !! "secrets/app.age").
Proof.
  apply (atomic_write_leaves_no_temp (H := Double.libs) "secrets/app.age" "hello" [7] true).
  - intros p [x Hx]. simpl in Hx.
    apply lookup_insert_Some in Hx as [[<- _]|[_ Hx]]; [vm_compute; reflexivity|].
    apply lookup_singleton_Some in Hx as [<- _]. vm_compute. reflexivity.
  - vm_compute. reflexivity.
Defined.

Lemma encrypt_decrypt_round_trip_witness :
  ∃ cipher,
    EncryptToMemory (H := Double.libs) "hello" [7; 8] true = Ok cipher ∧
    ∀ (w : World) (path : string),
      fs w !! path = Some cipher →
      DecryptToMemory (H := Double.libs) path [8] w = (Ok "hello", w).
Proof.
  apply (encrypt_decrypt_round_trip (H := Double.libs) "hello" [7; 8] [8] true
           (Double.intro +:+ NL +:+ Double.keyLine [7; 8] +:+ "hello"));
    vm_compute; reflexivity.
Defined.

End GatewayProps.

(* ===================================================================== *)
(** * Properties of the editor state machine                              *)
(* ===================================================================== *)

Module EditorProps.
Import Strings OS Model Tea Tui.

Section Editor.
Context `{External}.

Lemma eqb_true (s t : string) : eqb s t = true ↔ s = t.
Proof. unfold eqb. apply bool_decide_eq_true. Qed.

Lemma eqb_false (s t : string) : eqb s t = false ↔ s ≠ t.
Proof. unfold eqb. apply bool_decide_eq_false. Qed.

(** Every path of a save request leaves the textarea alone. *)
Lemma onSave_keeps_buffer (m : Model) (w : World) :
  ta (onSave m w).1.1 = ta m.
Proof.
  unfold onSave, bind, ret, Now.
  repeat (case_match; simpl; try done).
Qed.

(** A save request that does not reach step 4 leaves the machine as it
    is. *)
Lemma onSave_gate_closed (m : Model) (w : World) :
  ta_Value (ta m) ≠ orig m → pendingConfirm m = false →
  (onSave m w).2 = w ∧ orig (onSave m w).1.1 = orig m.
Proof.
  intros Hdirty Hpend. unfold onSave, bind, ret.
  apply eqb_false in Hdirty. rewrite Hdirty, Hpend. simpl.
  repeat (case_match; simpl; try done).
Qed.

(** The first of two save requests: when the checks pass, the buffer is
    dirty and no confirmation is pending, nothing is written and the
    confirmation becomes pending. *)
Lemma first_save_request_arms_gate (m : Model) (w : World) :
  checksPass m → ta_Value (ta m) ≠ orig m → pendingConfirm m = false →
  (Update m (KeyMsg "ctrl+s") w).2 = w ∧
  pendingConfirm (Update m (KeyMsg "ctrl+s") w).1.1 = true ∧
  ta (Update m (KeyMsg "ctrl+s") w).1.1 = ta m ∧
  orig (Update m (KeyMsg "ctrl+s") w).1.1 = orig m.
Proof.
  intros (Hview & Hvalid & cipher & r & Henc & Hdec) Hdirty Hpend.
  simpl. unfold onSave, bind, ret.
  apply eqb_false in Hdirty.
  by rewrite Hview, Hvalid, Henc, Hdec, Hdirty, Hpend.
Qed.

(** With the confirmation pending, a save request whose checks pass goes
    to step 4: it is the call of AtomicEncryptWrite on the buffer. *)
Lemma pending_save_request_commits (m : Model) (w : World) :
  checksPass m → pendingConfirm m = true →
  (Update m (KeyMsg "ctrl+s") w).2
  = (Age.AtomicEncryptWrite (FilePath (cfg m)) (ta_Value (ta m)) (recips m)
                            (Armor (cfg m)) w).2.
Proof.
  intros (Hview & Hvalid & cipher & r & Henc & Hdec) Hpend.
  simpl. unfold onSave, bind, ret, Now.
  rewrite Hview, Hvalid, Henc, Hdec, Hpend, andb_false_r.
  destruct (Age.AtomicEncryptWrite _ _ _ _ w) as [[e|] w']; done.
Qed.

(** Any message that changes the buffer clears the pending confirmation
    and sets the dirty flag. *)
Lemma edit_resets_gate (m : Model) (msg : Msg) :
  ta_Value (ta (onOther m msg).1) ≠ ta_Value (ta m) →
  pendingConfirm (onOther m msg).1 = false ∧ changed (onOther m msg).1 = true.
Proof.
  unfold onOther. destruct (ta_Update (ta m) msg) as [ta' cmd]. simpl.
  destruct (eqb (ta_Value (ta m)) (ta_Value ta')) eqn:Heq; simpl; [|done].
  apply eqb_true in Heq. congruence.
Qed.

(** Hence on a dirty buffer one quit request followed by one save
    request whose checks pass is the call of AtomicEncryptWrite. *)
Lemma quit_then_one_save_commits (m : Model) (w : World) :
  checksPass m → changed m = true → pendingConfirm m = false →
  (Update (Update m (KeyMsg "ctrl+q") w).1.1 (KeyMsg "ctrl+s") w).2
  = (Age.AtomicEncryptWrite (FilePath (cfg m)) (ta_Value (ta m)) (recips m)
                            (Armor (cfg m)) w).2.
Proof.
  intros Hchecks Hch Hpend.
  assert (Hview : ViewOnly (cfg m) = false) by apply Hchecks.
  change (Update m (KeyMsg "ctrl+q") w) with (onQuit m, w).
  unfold onQuit. rewrite Hch, Hview, Hpend. simpl fst.
  by rewrite pending_save_request_commits.
Qed.

(** The preflight of step 2 hands the output of EncryptToMemory to
    age.Decrypt as it is, without armor.NewReader: in a session with
    armor on, where age.Decrypt does not read armored input, it fails on
    every buffer. *)
Lemma armored_preflight_fails (m : Model) :
  Armor (cfg m) = true →
  (∀ envelope, ∃ e, age_Decrypt (identities m) (armor_Encode envelope) = Fail e) →
  preflightFails m.
Proof.
  intros Harmor Hreject. unfold preflightFails, Age.EncryptToMemory.
  rewrite Harmor. destruct (age_Encrypt _ _) as [envelope|e]; [|done].
  by destruct (Hreject envelope) as [e ->].
Qed.

(** A first quit request on a dirty buffer sets the same pending flag
    that the save gate reads, and changes nothing else the gate reads. *)
Lemma quit_request_sets_pending (m : Model) (w : World) :
  changed m = true → ViewOnly (cfg m) = false → pendingConfirm m = false →
  (Update m (KeyMsg "ctrl+q") w).2 = w ∧
  (Update m (KeyMsg "ctrl+q") w).1.2 = CmdNil ∧
  pendingConfirm (Update m (KeyMsg "ctrl+q") w).1.1 = true ∧
  ta (Update m (KeyMsg "ctrl+q") w).1.1 = ta m ∧
  orig (Update m (KeyMsg "ctrl+q") w).1.1 = orig m ∧
  cfg (Update m (KeyMsg "ctrl+q") w).1.1 = cfg m ∧
  recips (Update m (KeyMsg "ctrl+q") w).1.1 = recips m ∧
  identities (Update m (KeyMsg "ctrl+q") w).1.1 = identities m.
Proof.
  intros Hch Hview Hpend. simpl. unfold onQuit.
  by rewrite Hch, Hview, Hpend.
Qed.

Lemma Update_flagCovers (m : Model) (msg : Msg) (w : World) :
  flagCovers m → flagCovers (Update m msg w).1.1.
Proof.
  unfold flagCovers. intros Hinv.
  assert (Hsave : changed (onSave m w).1.1 = false →
                  ta_Value (ta (onSave m w).1.1) = orig (onSave m w).1.1).
  { unfold onSave, bind, ret, Now.
    repeat (case_match; simpl; try done). }
  assert (Hother : changed (onOther m msg).1 = false →
                   ta_Value (ta (onOther m msg).1) = orig (onOther m msg).1).
  { unfold onOther. destruct (ta_Update (ta m) msg) as [ta' cmd]. simpl.
    destruct (eqb (ta_Value (ta m)) (ta_Value ta')) eqn:Heq; simpl; [|done].
    apply eqb_true in Heq. intros Hc. rewrite <- Heq. by apply Hinv. }
  destruct msg as [|key|tag]; simpl; try done.
  unfold onQuit, onDiff.
  repeat (case_match; simpl; try done).
Qed.

(** Once set, the dirty flag is cleared by no message but a save
    request. *)
Lemma changed_is_sticky (m : Model) (msg : Msg) (w : World) :
  msg ≠ KeyMsg "ctrl+s" → changed m = true →
  changed (Update m msg w).1.1 = true.
Proof.
  intros Hmsg Hch.
  assert (Hother : changed (onOther m msg).1 = true).
  { unfold onOther. destruct (ta_Update (ta m) msg) as [ta' cmd]. simpl.
    by destruct (negb _). }
  destruct msg as [|key|tag]; simpl; try done.
  unfold onQuit, onDiff.
  repeat (case_match; simpl; try done).
  match goal with Hk : eqb key "ctrl+s" = true |- _ => apply eqb_true in Hk end.
  congruence.
Qed.

(** C3. Preflight non-destructiveness: whatever the buffer, the
    recipients and the identities, when the preflight check fails on
    them (the encryption to memory, or the decryption of its output with
    the current identities), a save request writes nothing: the machine
    (files, calls that change the disk, temp files) is exactly as
    before, and the buffer and the original snapshot are untouched. *)
Theorem preflight_failure_writes_nothing (m : Model) (w : World) :
  preflightFails m →
  (Update m (KeyMsg "ctrl+s") w).2 = w ∧
  fs (Update m (KeyMsg "ctrl+s") w).2 = fs w ∧
  trace (Update m (KeyMsg "ctrl+s") w).2 = trace w ∧
  ta (Update m (KeyMsg "ctrl+s") w).1.1 = ta m ∧
  orig (Update m (KeyMsg "ctrl+s") w).1.1 = orig m.
Proof.
  unfold preflightFails. intros Hfail.
  assert (Hw : (Update m (KeyMsg "ctrl+s") w).2 = w ∧
               orig (Update m (KeyMsg "ctrl+s") w).1.1 = orig m).
  { simpl. unfold onSave, bind, ret.
    destruct (ViewOnly (cfg m)); simpl; [done|].
    destruct (Validator.ValidateByExt _ _); simpl; [done|].
    destruct (Age.EncryptToMemory _ _ _) as [cipher|e]; simpl; [|done].
    destruct (age_Decrypt _ _) as [r|e]; simpl; done. }
  destruct Hw as [Hw Horig]. rewrite Hw. repeat split; [|done].
  apply onSave_keeps_buffer.
Qed.



End Editor.

(** On the test double: key 9 does not open what is sealed for key 7. *)
Lemma preflight_failure_writes_nothing_witness :
  (Update Scenario.lockedOut (KeyMsg "ctrl+s") Scenario.w0).2 = Scenario.w0 ∧
  fs (Update Scenario.lockedOut (KeyMsg "ctrl+s") Scenario.w0).2 = fs Scenario.w0 ∧
  trace (Update Scenario.lockedOut (KeyMsg "ctrl+s") Scenario.w0).2 = trace Scenario.w0 ∧
  ta (Update Scenario.lockedOut (KeyMsg "ctrl+s") Scenario.w0).1.1 = ta Scenario.lockedOut ∧
  orig (Update Scenario.lockedOut (KeyMsg "ctrl+s") Scenario.w0).1.1 = orig Scenario.lockedOut.
Proof.
  apply (preflight_failure_writes_nothing Scenario.lockedOut Scenario.w0).
  vm_compute. exact I.
Defined.


(** The state the invariant excepts exists: with a textarea that
    expands tabs, a session opened on a plaintext with a tab starts
    with a buffer that differs from the snapshot and the flag unset. *)
Lemma dirty_flag_unset_before_first_edit :
  let m := NewModel (H := Double.sanitising) Scenario.cfg (String TAB "A=1") [7] [7] in
  reachable m m
  ∧ ta_Value (ta m) = "    A=1"
  ∧ orig m = String TAB "A=1"
  ∧ changed m = false.
Proof.
  split; [apply reach_init|]. repeat split; vm_compute; reflexivity.
Qed.


(** C1 at its failing input: on a dirty buffer, a quit request followed
    by one save request commits.  The single save request replaces the
    file on disk (temp file created, written, renamed over the
    destination) and the new text becomes the original snapshot; without
    the quit request the same save request writes nothing. *)
Theorem single_save_after_quit_commits :
  let quitFirst := Scenario.play [KeyMsg "x"; KeyMsg "ctrl+q"; KeyMsg "ctrl+s"] in
  let saveOnly := Scenario.play [KeyMsg "x"; KeyMsg "ctrl+s"] in
  ta_Value (ta (Scenario.play [KeyMsg "x"; KeyMsg "ctrl+q"]).1) = "A=1x"
  ∧ orig (Scenario.play [KeyMsg "x"; KeyMsg "ctrl+q"]).1 = "A=1"
  ∧ trace (Scenario.play [KeyMsg "x"; KeyMsg "ctrl+q"]).2 = []
  ∧ trace quitFirst.2
    = [SysRename "secrets/.agepad-tmp-42" "secrets/app.age";
       SysClose "secrets/.agepad-tmp-42"; SysSync "secrets/.agepad-tmp-42";
       SysWrite "secrets/.agepad-tmp-42"; SysCreateTemp "secrets/.agepad-tmp-42"]
  ∧ fs quitFirst.2 !! "secrets/app.age"
    = Some (Double.intro +:+ NL +:+ Double.keyLine [7] +:+ "A=1x")
  ∧ orig quitFirst.1 = "A=1x"
  ∧ trace saveOnly.2 = []
  ∧ fs saveOnly.2 = fs Scenario.w0
  ∧ pendingConfirm saveOnly.1 = true.
Proof. repeat split; vm_compute; reflexivity. Qed.

End EditorProps.

(* ===================================================================== *)
(** * Properties of the rotation engine                                   *)
(* ===================================================================== *)

Module RotateProps.
Import Strings OS Model Age Main GatewayProps.

Local Opaque createTempTries.

Section Rotation.
Context `{External}.
Variables (ids : list Identity) (newRecips : list Recipient).

Lemma LoadIdentities_pure (path : string) (w : World) :
  (LoadIdentities path w).2 = w.
Proof.
  unfold LoadIdentities, ReadFile, bind, ret.
  repeat (case_match; simplify_eq/=; try done).
Qed.

Lemma LoadRecipients_pure (path : string) (w : World) :
  (LoadRecipients path w).2 = w.
Proof.
  unfold LoadRecipients, ReadFile, bind, ret.
  repeat (case_match; simplify_eq/=; try done).
Qed.

(** One iteration: other paths are as before; a failed iteration leaves
    the whole disk as before; a successful one has replaced the file by
    the armored envelope of its plaintext for the new recipients. *)
Lemma rotateFile_spec (f : string) (w : World) :
  (∀ p, p ≠ f → fs (rotateFile ids newRecips f w).2 !! p = fs w !! p) ∧
  if (rotateFile ids newRecips f w).1 then
    ∃ old plain envelope,
      fs w !! f = Some old ∧ decryptBytes old ids = Ok plain ∧
      age_Encrypt newRecips plain = Ok envelope ∧
      fs (rotateFile ids newRecips f w).2 = <[f := armor_Encode envelope]> (fs w)
  else fs (rotateFile ids newRecips f w).2 = fs w.
Proof.
  unfold rotateFile, DecryptToMemory, ReadFile, bind, ret, Eprintln.
  destruct (fs w !! f) as [old|] eqn:Hold; simpl; [|done].
  destruct (decryptBytes old ids) as [plain|e] eqn:Hdec; simpl; [|done].
  pose proof (AtomicEncryptWrite_spec f plain newRecips true w) as [_ Hspec].
  pose proof (AtomicEncryptWrite_frame f plain newRecips true w) as Hframe.
  destruct (AtomicEncryptWrite f plain newRecips true w) as [[e|] w1]; simpl in *.
  - split; [|done]. intros p Hp. by apply Hframe.
  - split; [intros p Hp; by apply Hframe|].
    destruct Hspec as (envelope & n & Henc & Hnone & Hfs).
    exists old, plain, envelope. repeat split; [done..|].
    rewrite Hfs. rewrite delete_insert_ne by congruence.
    by rewrite delete_id.
Qed.

(** The counters are the tallies of the iterations, and the loop leaves
    the machine where the iterations leave it. *)
Lemma rotateFiles_outcomes (files : list string) (ok fail : nat) (w : World) :
  rotateFiles ids newRecips files ok fail w
  = ((ok + tally true (outcomes ids newRecips files w).1,
      fail + tally false (outcomes ids newRecips files w).1),
     (outcomes ids newRecips files w).2).
Proof.
  revert ok fail w. induction files as [|f rest IH]; intros ok fail w; simpl.
  - unfold ret, tally. simpl. by rewrite !Nat.add_0_r.
  - unfold bind, ret. destruct (rotateFile ids newRecips f w) as [[|] w1]; simpl.
    + rewrite IH. destruct (outcomes ids newRecips rest w1) as [outs w2]. simpl.
      unfold tally. rewrite filter_cons_True by done.
      rewrite filter_cons_False by done. simpl. do 2 f_equal. lia.
    + rewrite IH. destruct (outcomes ids newRecips rest w1) as [outs w2]. simpl.
      unfold tally. rewrite filter_cons_False by done.
      rewrite filter_cons_True by done. simpl. do 2 f_equal. lia.
Qed.

Lemma outcomes_length (files : list string) (w : World) :
  length (outcomes ids newRecips files w).1 = length files.
Proof.
  revert w. induction files as [|f rest IH]; intros w; simpl; [done|].
  unfold bind, ret. destruct (rotateFile ids newRecips f w) as [r w1].
  specialize (IH w1). destruct (outcomes ids newRecips rest w1) as [outs w2].
  simpl in *. by rewrite IH.
Qed.

Lemma tally_total (outs : list bool) :
  tally true outs + tally false outs = length outs.
Proof.
  unfold tally. induction outs as [|[|] outs IH]; [done|..].
  - rewrite filter_cons_True, filter_cons_False by done. simpl. lia.
  - rewrite filter_cons_False, filter_cons_True by done. simpl. lia.
Qed.

(** Files that are not in the list are not touched by the loop. *)
Lemma outcomes_frame (files : list string) (w : World) (p : string) :
  p ∉ files → fs (outcomes ids newRecips files w).2 !! p = fs w !! p.
Proof.
  revert w. induction files as [|f rest IH]; intros w Hp; simpl; [done|].
  apply not_elem_of_cons in Hp as [Hne Hp].
  unfold bind, ret.
  destruct (rotateFile_spec f w) as [Hframe _].
  destruct (rotateFile ids newRecips f w) as [r w1].
  specialize (IH w1 Hp). destruct (outcomes ids newRecips rest w1) as [outs w2].
  simpl in *. rewrite IH. by apply Hframe.
Qed.

(** Per file, after the whole pass. *)
Lemma outcomes_per_file (files : list string) (w : World) (i : nat) (f : string) :
  NoDup files → files !! i = Some f →
  match (outcomes ids newRecips files w).1 !! i with
  | Some false => fs (outcomes ids newRecips files w).2 !! f = fs w !! f
  | Some true =>
      ∃ old plain envelope,
        fs w !! f = Some old ∧ decryptBytes old ids = Ok plain ∧
        age_Encrypt newRecips plain = Ok envelope ∧
        fs (outcomes ids newRecips files w).2 !! f = Some (armor_Encode envelope)
  | None => False
  end.
Proof.
  revert w i. induction files as [|g rest IH]; intros w i Hnd Hi; [done|].
  apply NoDup_cons in Hnd as [Hg Hnd]. simpl. unfold bind, ret.
  destruct (rotateFile_spec g w) as [Hframe Hres].
  pose proof (outcomes_frame rest (rotateFile ids newRecips g w).2) as Hrest.
  destruct (rotateFile ids newRecips g w) as [r w1]. simpl in *.
  destruct i as [|i]; simpl in *.
  - injection Hi as ->. specialize (Hrest f Hg).
    destruct (outcomes ids newRecips rest w1) as [outs w2]. simpl in *.
    destruct r.
    + destruct Hres as (old & plain & envelope & Hold & Hdec & Henc & Hfs).
      exists old, plain, envelope. repeat split; [done..|].
      by rewrite Hrest, Hfs, lookup_insert_eq.
    + by rewrite Hrest, Hres.
  - specialize (IH w1 i Hnd Hi).
    assert (f ≠ g) as Hne.
    { intros ->. apply Hg. by eapply list_elem_of_lookup_2. }
    destruct (outcomes ids newRecips rest w1) as [outs w2]. simpl in *.
    destruct (outs !! i) as [[|]|]; [|by rewrite IH, Hframe|done].
    destruct IH as (old & plain & envelope & Hold & Hdec & Henc & Hfs).
    exists old, plain, envelope. repeat split; [|done..].
    by rewrite <- Hframe.
Qed.

Lemma createTempTries_pos : createTempTries ≠ 0.
Proof.
  intros Heq. apply (f_equal (Nat.eqb 0)) in Heq. vm_compute in Heq. discriminate.
Qed.

Lemma pickFresh_first (files : gmap string string) (base : string) (n : nat)
    (rest : list nat) :
  files !! (base +:+ Itoa n) = None →
  pickFresh createTempTries files base (n :: rest) = (Some (base +:+ Itoa n), rest).
Proof.
  intros Hnone. pose proof createTempTries_pos as Hpos.
  destruct createTempTries as [|k]; [done|]. simpl. by rewrite Hnone.
Qed.

Lemma andThen_ok (c1 c2 : IO (option error)) (w w1 : World) :
  c1 w = (None, w1) → andThen c1 c2 w = c2 w1.
Proof. intros Hc. unfold andThen, bind. by rewrite Hc. Qed.

Lemma andThen_err (c1 c2 : IO (option error)) (w w1 : World) (e : error) :
  c1 w = (Some e, w1) → andThen c1 c2 w = (Some e, w1).
Proof. intros Hc. unfold andThen, bind. by rewrite Hc. Qed.

Lemma wrapErr_ok (prefix : string) (c : IO (option error)) (w w1 : World) :
  c w = (None, w1) → wrapErr prefix c w = (None, w1).
Proof. intros Hc. unfold wrapErr, bind. by rewrite Hc. Qed.

Lemma fault_none (w : World) : faults w = [] → fault w = (None, w).
Proof. intros Hf. unfold fault. by rewrite Hf. Qed.

Lemma Write_none (path data : string) (w : World) :
  faults w = [] →
  Write path data w
  = (None, log (SysWrite path)
               (set_fs (λ m, <[path := default "" (m !! path) +:+ data]> m) w)).
Proof. intros Hf. unfold Write, bind. by rewrite fault_none. Qed.

Lemma Sync_none (path : string) (w : World) :
  faults w = [] → Sync path w = (None, log (SysSync path) w).
Proof. intros Hf. unfold Sync, bind. by rewrite fault_none. Qed.

Lemma Close_none (path : string) (w : World) :
  faults w = [] → Close path w = (None, log (SysClose path) w).
Proof. intros Hf. unfold Close, bind. by rewrite fault_none. Qed.

Lemma Rename_none (oldpath newpath data : string) (w : World) :
  faults w = [] → fs w !! oldpath = Some data →
  Rename oldpath newpath w
  = (None, log (SysRename oldpath newpath)
               (set_fs (λ m, <[newpath := data]> (delete oldpath m)) w)).
Proof. intros Hf Hold. unfold Rename, bind. rewrite fault_none by done. by rewrite Hold. Qed.

Lemma Remove_keeps (path : string) (w : World) :
  faults (Remove path w).2 = faults w ∧ rand (Remove path w).2 = rand w.
Proof. unfold Remove. by destruct (fs w !! path). Qed.

(** With no fault scheduled and a free temp name drawn first, the
    atomic write fails only when the library refuses to seal. *)
Lemma AtomicEncryptWrite_no_fault (dstPath b : string) (recips : list Recipient)
    (useArmor : bool) (w : World) (n : nat) (rest : list nat) :
  faults w = [] → rand w = n :: rest →
  fs w !! (joinPath (filepath_Dir dstPath) ".agepad-tmp-" +:+ Itoa n) = None →
  let r := AtomicEncryptWrite dstPath b recips useArmor w in
  faults r.2 = [] ∧ rand r.2 = rest ∧
  r.1 = match age_Encrypt recips b with
        | Ok _ => None
        | Fail e => Some ("encrypt: " +:+ e)
        end.
Proof.
  intros Hf Hr Hnone r.
  assert (Hrun : ∃ w3, faults w3 = [] ∧ rand w3 = rest ∧
            AtomicEncryptWrite dstPath b recips useArmor w
            = (match age_Encrypt recips b with
               | Ok _ => None
               | Fail e => Some ("encrypt: " +:+ e)
               end, w3));
    [|destruct Hrun as (w3 & Hf3 & Hr3 & Hrun); subst r; by rewrite Hrun].
  unfold AtomicEncryptWrite, CreateTemp, bind, ret. rewrite fault_none by done.
  rewrite Hr, pickFresh_first by done.
  set (tmp := joinPath (filepath_Dir dstPath) ".agepad-tmp-" +:+ Itoa n).
  set (w1 := log (SysCreateTemp tmp) (set_fs (insert tmp "") (set_rand rest w))).
  assert (Hf1 : faults w1 = []) by done.
  assert (Hbody : ∃ w2, faults w2 = [] ∧ rand w2 = rest ∧
            encryptInto tmp dstPath b recips useArmor w1
            = (match age_Encrypt recips b with
               | Ok _ => None
               | Fail e => Some ("encrypt: " +:+ e)
               end, w2)).
  { unfold encryptInto.
    destruct (age_Encrypt recips b) as [envelope|e].
    - set (d := if useArmor then armor_Encode envelope else envelope).
      set (w2 := log (SysWrite tmp)
                   (set_fs (λ m, <[tmp := default "" (m !! tmp) +:+ d]> m) w1)).
      assert (Hfill : (if useArmor
                       then andThen (wrapErr "encrypt: " fault)
                              (andThen fault (andThen fault
                                 (Write tmp (armor_Encode envelope))))
                       else andThen (wrapErr "encrypt: " fault)
                              (andThen fault (Write tmp envelope))) w1 = (None, w2)).
      { subst d w2. destruct useArmor.
        - rewrite (andThen_ok _ _ w1 w1) by (by apply wrapErr_ok, fault_none).
          rewrite (andThen_ok _ _ w1 w1) by (by apply fault_none).
          rewrite (andThen_ok _ _ w1 w1) by (by apply fault_none).
          by apply Write_none.
        - rewrite (andThen_ok _ _ w1 w1) by (by apply wrapErr_ok, fault_none).
          rewrite (andThen_ok _ _ w1 w1) by (by apply fault_none).
          by apply Write_none. }
      assert (Hd : fs w2 !! tmp = Some ("" +:+ d)).
      { subst w2 w1. simpl. by rewrite lookup_insert_eq, lookup_insert_eq. }
      eexists. split; [|split]; [| |
        rewrite (andThen_ok _ _ w1 w2) by (destruct useArmor; exact Hfill);
        rewrite (andThen_ok _ _ w2 (log (SysSync tmp) w2))
          by (by apply wrapErr_ok, Sync_none);
        rewrite (andThen_ok _ _ _ (log (SysClose tmp) (log (SysSync tmp) w2)))
          by (by apply wrapErr_ok, Close_none);
        by apply (Rename_none tmp dstPath ("" +:+ d))]; done.
    - exists w1. split; [done|]. split; [done|].
      apply andThen_err. by destruct useArmor. }
  destruct Hbody as (w2 & Hf2 & Hr2 & ->).
  destruct (Remove_keeps tmp w2) as [Hf3 Hr3].
  destruct (Remove tmp w2) as [e3 w3]. simpl in *.
  exists w3. by rewrite Hf3, Hr3.
Qed.

(** One iteration succeeds exactly when the file is read and opened by
    the identities and the atomic write of its plaintext returns nil. *)
Lemma rotateFile_outcome (f : string) (w : World) :
  (rotateFile ids newRecips f w).1 = true ↔
  ∃ old plain, fs w !! f = Some old ∧ decryptBytes old ids = Ok plain ∧
               (AtomicEncryptWrite f plain newRecips true w).1 = None.
Proof.
  unfold rotateFile, DecryptToMemory, ReadFile, bind, ret, Eprintln.
  destruct (fs w !! f) as [old|] eqn:Hold; simpl.
  2: { split; [done|]. by intros (? & ? & ? & _). }
  destruct (decryptBytes old ids) as [plain|e] eqn:Hdec; simpl.
  2: { split; [done|]. intros (? & ? & [= <-] & Hd & _). congruence. }
  destruct (AtomicEncryptWrite f plain newRecips true w) as [[e|] w1] eqn:Hw; simpl.
  - split; [done|]. intros (? & ? & [= <-] & Hd & Hnone).
    rewrite Hdec in Hd. injection Hd as <-. by rewrite Hw in Hnone.
  - split; [|done]. intros _. exists old, plain. by rewrite Hw.
Qed.

Lemma outcomes_cons (f : string) (rest : list string) (w : World) :
  outcomes ids newRecips (f :: rest) w
  = ((rotateFile ids newRecips f w).1
       :: (outcomes ids newRecips rest (rotateFile ids newRecips f w).2).1,
     (outcomes ids newRecips rest (rotateFile ids newRecips f w).2).2).
Proof.
  simpl. unfold bind, ret. destruct (rotateFile ids newRecips f w) as [r w1].
  simpl. by destruct (outcomes ids newRecips rest w1).
Qed.

(** Every file gets its iteration, from the machine the iterations
    before it have left, and its outcome is decided there. *)
Lemma outcomes_each (files : list string) (w : World) (i : nat) (f : string) :
  NoDup files → files !! i = Some f →
  let wi := (outcomes ids newRecips (take i files) w).2 in
  fs wi !! f = fs w !! f ∧
  ((outcomes ids newRecips files w).1 !! i = Some true ↔
   ∃ old plain, fs w !! f = Some old ∧ decryptBytes old ids = Ok plain ∧
                (AtomicEncryptWrite f plain newRecips true wi).1 = None).
Proof.
  intros Hnd Hi wi.
  assert (Hframe : fs wi !! f = fs w !! f).
  { apply outcomes_frame. intros Hin. apply list_elem_of_lookup_1 in Hin as [j Hj].
    rewrite lookup_take_Some in Hj. destruct Hj as [Hj Hlt].
    pose proof (NoDup_lookup _ _ _ _ Hnd Hi Hj). lia. }
  split; [done|]. subst wi.
  revert w i Hi Hframe. induction files as [|g rest IH]; intros w i Hi Hframe; [done|].
  apply NoDup_cons in Hnd as [Hg Hnd]. rewrite outcomes_cons.
  destruct i as [|i].
  - simpl in Hi |- *. injection Hi as ->. unfold ret. simpl.
    rewrite <- rotateFile_outcome.
    split; [by intros [= ->]|by intros ->].
  - assert (f ≠ g) as Hne.
    { intros ->. apply Hg. by eapply list_elem_of_lookup_2. }
    destruct (rotateFile_spec g w) as [Hstep _].
    change (take (S i) (g :: rest)) with (g :: take i rest) in Hframe |- *.
    rewrite (outcomes_cons g (take i rest)) in Hframe |- *.
    cbn [fst snd] in Hframe |- *.
    change ((?a :: ?l) !! S i) with (l !! i).
    rewrite <- (Hstep f Hne) in Hframe |- *.
    apply (IH Hnd); [done|]. exact Hframe.
Qed.

Lemma rotateFile_no_fault (f : string) (w : World) (n : nat) (rest : list nat) :
  faults w = [] → rand w = n :: rest →
  fs w !! (joinPath (filepath_Dir f) ".agepad-tmp-" +:+ Itoa n) = None →
  faults (rotateFile ids newRecips f w).2 = [] ∧
  (rand (rotateFile ids newRecips f w).2 = n :: rest ∨
   rand (rotateFile ids newRecips f w).2 = rest) ∧
  (rotateFile ids newRecips f w).1 = rotatable ids newRecips (fs w) f.
Proof.
  intros Hf Hr Hnone.
  unfold rotateFile, rotatable, DecryptToMemory, ReadFile, bind, ret, Eprintln.
  destruct (fs w !! f) as [old|] eqn:Hold; simpl; [|by auto].
  destruct (decryptBytes old ids) as [plain|e] eqn:Hdec; simpl; [|by auto].
  destruct (AtomicEncryptWrite_no_fault f plain newRecips true w n rest Hf Hr Hnone)
    as (Hf1 & Hr1 & Hres).
  destruct (AtomicEncryptWrite f plain newRecips true w) as [e1 w1]. simpl in *.
  subst e1. destruct (age_Encrypt newRecips plain); simpl; auto.
Qed.

(** With no fault scheduled and free temp names to draw, the outcome of
    every iteration is decided by the file alone. *)
Lemma outcomes_no_fault (files : list string) (w : World) :
  NoDup files → faults w = [] → length files ≤ length (rand w) →
  (∀ f n, f ∈ files → n ∈ rand w →
          fs w !! (joinPath (filepath_Dir f) ".agepad-tmp-" +:+ Itoa n) = None) →
  (outcomes ids newRecips files w).1 = rotatable ids newRecips (fs w) <$> files.
Proof.
  revert w. induction files as [|g rest IH]; intros w Hnd Hf Hlen Hfresh; [done|].
  apply NoDup_cons in Hnd as [Hg Hnd]. rewrite outcomes_cons. simpl.
  destruct (rand w) as [|n rs] eqn:Hr; [simpl in Hlen; lia|].
  destruct (rotateFile_no_fault g w n rs Hf Hr) as (Hf1 & Hr1 & ->).
  { apply Hfresh; left. }
  destruct (rotateFile_spec g w) as [Hstep Hres].
  set (w1 := (rotateFile ids newRecips g w).2) in *.
  f_equal. rewrite IH; [|done|done|..].
  - apply list_fmap_ext. intros i f Hi. unfold rotatable.
    rewrite Hstep; [done|]. intros ->. apply Hg. by eapply list_elem_of_lookup_2.
  - simpl in Hlen. destruct Hr1 as [->| ->]; simpl; lia.
  - intros f n' Hin Hn'.
    assert (Hn : n' ∈ n :: rs).
    { destruct Hr1 as [Hr1|Hr1]; rewrite Hr1 in Hn'; [done|by right]. }
    assert (Hnone : fs w !! (joinPath (filepath_Dir f) ".agepad-tmp-" +:+ Itoa n') = None).
    { apply Hfresh; [by right|done]. }
    destruct (decide (joinPath (filepath_Dir f) ".agepad-tmp-" +:+ Itoa n' = g))
      as [Heq|Hne]; [|by rewrite Hstep].
    rewrite Heq in Hnone |- *.
    destruct ((rotateFile ids newRecips g w).1).
    + destruct Hres as (old & ? & ? & Hold & _). congruence.
    + fold w1 in Hres. by rewrite Hres.
Qed.

Lemma tally_fmap (p : string → bool) (b : bool) (files : list string) :
  tally b (p <$> files) = length (filter (λ f, p f = b) files).
Proof.
  unfold tally. induction files as [|f files IH]; [done|].
  rewrite fmap_cons.
  destruct (decide (p f = b)) as [Hp|Hp].
  - rewrite !filter_cons_True by done. simpl. by rewrite IH.
  - by rewrite !filter_cons_False by done.
Qed.

(** C6. Rotation fault isolation and aggregate reporting: once the
    identities and the new recipients are loaded and the walk has matched
    a non-empty list of distinct files, every matched file gets its
    iteration, whatever happened to the files before it: the iteration
    of a file starts from the machine the earlier iterations have left,
    on which the file still holds the bytes it held before the job, and
    it succeeds exactly when the file is read and opened by the
    identities and the atomic write of its plaintext returns nil there;
    every other iteration (decrypt or re-encrypt failure) is counted as
    failed.  The job prints the pair of counts (succeeded, failed),
    which are the numbers of iterations that ended each way; it returns
    an error exactly when the failed count is not zero; every file
    whose iteration failed holds after the pass the bytes it held
    before; and every file whose iteration succeeded holds the armored
    envelope of its plaintext for the new recipients, also when the job
    returns the error.  When no I/O fault occurs and free temp names
    are drawn, the outcome of each file is decided by the file alone:
    the succeeded files are exactly those the identities open and the
    library seals, so that of N files of which two fail to decrypt
    N-2 are reported as succeeded and 2 as failed. *)
Theorem rotation_fault_isolation (cfg : RotateConfig) (w : World)
    (entries : list (string * string * bool)) :
  (LoadIdentities (RotateIdentitiesPath cfg) w).1 = Ok ids →
  (LoadRecipients (ToRecipientsFile cfg) w).1 = Ok newRecips →
  filepath_WalkDir (fs w) (Root cfg) = Ok entries →
  matched entries ≠ [] →
  NoDup (matched entries) →
  let files := matched entries in
  let outs := (outcomes ids newRecips files w).1 in
  let r := runRotate cfg w in
  length outs = length files
  ∧ tally true outs + tally false outs = length files
  ∧ head (stdout r.2)
    = Some ("rotate complete: " +:+ Itoa (tally true outs) +:+ " success, " +:+
            Itoa (tally false outs) +:+ " failed")
  ∧ (tally false outs = 0 → r.1 = Ret None)
  ∧ (0 < tally false outs → r.1 = Ret (Some "rotate: some files failed (see stderr)"))
  ∧ (∀ i f, files !! i = Some f → outs !! i = Some false →
            fs r.2 !! f = fs w !! f)
  ∧ (∀ i f, files !! i = Some f → outs !! i = Some true →
            ∃ old plain envelope,
              fs w !! f = Some old ∧ decryptBytes old ids = Ok plain ∧
              age_Encrypt newRecips plain = Ok envelope ∧
              fs r.2 !! f = Some (armor_Encode envelope))
  ∧ (∀ i f, files !! i = Some f →
            let wi := (outcomes ids newRecips (take i files) w).2 in
            fs wi !! f = fs w !! f ∧
            (outs !! i = Some true ↔
             ∃ old plain,
               fs w !! f = Some old ∧ decryptBytes old ids = Ok plain ∧
               (AtomicEncryptWrite f plain newRecips true wi).1 = None))
  ∧ (faults w = [] →
     length files ≤ length (rand w) →
     (∀ f n, f ∈ files → n ∈ rand w →
             fs w !! (joinPath (filepath_Dir f) ".agepad-tmp-" +:+ Itoa n) = None) →
     outs = rotatable ids newRecips (fs w) <$> files
     ∧ tally true outs
       = length (filter (λ f, rotatable ids newRecips (fs w) f = true) files)
     ∧ tally false outs
       = length (filter (λ f, rotatable ids newRecips (fs w) f = false) files)).
Proof.
  intros Hids Hrecips Hwalk Hsome Hnd files outs r.
  assert (Hrun : r = (if 0 <? tally false outs
                      then Ret (Some "rotate: some files failed (see stderr)")
                      else Ret None,
                      (Println ("rotate complete: " +:+ Itoa (tally true outs) +:+
                                " success, " +:+ Itoa (tally false outs) +:+ " failed")
                               (outcomes ids newRecips files w).2).2)).
  { subst r. unfold runRotate, bind.
    pose proof (LoadIdentities_pure (RotateIdentitiesPath cfg) w) as Hp1.
    destruct (LoadIdentities (RotateIdentitiesPath cfg) w) as [r1 w1].
    simpl in Hids, Hp1. subst r1 w1.
    pose proof (LoadRecipients_pure (ToRecipientsFile cfg) w) as Hp2.
    destruct (LoadRecipients (ToRecipientsFile cfg) w) as [r2 w2].
    simpl in Hrecips, Hp2. subst r2 w2.
    rewrite Hwalk. fold files.
    rewrite bool_decide_eq_false_2
      by (intros Hl; apply Hsome; by apply nil_length_inv).
    rewrite rotateFiles_outcomes. fold outs. simpl.
    by destruct (0 <? tally false outs). }
  pose proof (outcomes_length files w) as Hlen. fold outs in Hlen.
  split; [done|]. split; [by rewrite tally_total|].
  rewrite Hrun. simpl. split; [done|].
  split; [by intros ->|].
  split; [intros Hpos; by apply Nat.ltb_lt in Hpos as ->|].
  split.
  { intros i f Hi Ho. pose proof (outcomes_per_file files w i f Hnd Hi) as Hf.
    fold outs in Hf. by rewrite Ho in Hf. }
  split.
  { intros i f Hi Ho. pose proof (outcomes_per_file files w i f Hnd Hi) as Hf.
    fold outs in Hf. by rewrite Ho in Hf. }
  split.
  { intros i f Hi. by apply outcomes_each. }
  intros Hfaults Hdraws Hfresh.
  assert (Houts : outs = rotatable ids newRecips (fs w) <$> files)
    by (by apply outcomes_no_fault).
  split; [done|]. rewrite Houts. by rewrite !tally_fmap.
Qed.

End Rotation.

(** On the test double: of the three matched files the one that is no
    envelope fails, the two others are rotated, and the job reports the
    failure. *)
Lemma rotation_fault_isolation_witness :
  let files := matched [("secrets/c.AGE", "c.AGE", false);
                        ("secrets/a.age", "a.age", false);
                        ("secrets/notes.txt", "notes.txt", false);
                        ("secrets/b.age", "b.age", false)] in
  let outs := (outcomes (H := Double.libs) [7] [8] files Scenario.tree).1 in
  let r := runRotate (H := Double.libs) Scenario.rotateCfg Scenario.tree in
  (length outs = length files
   ∧ tally true outs + tally false outs = length files
   ∧ head (stdout r.2)
     = Some ("rotate complete: " +:+ Itoa (tally true outs) +:+ " success, " +:+
             Itoa (tally false outs) +:+ " failed")
   ∧ (tally false outs = 0 → r.1 = Ret None)
   ∧ (0 < tally false outs → r.1 = Ret (Some "rotate: some files failed (see stderr)"))
   ∧ (∀ (i : nat) (f : string), files !! i = Some f → outs !! i = Some false →
             fs r.2 !! f = fs Scenario.tree !! f)
   ∧ (∀ (i : nat) (f : string), files !! i = Some f → outs !! i = Some true →
             ∃ old plain envelope,
               fs Scenario.tree !! f = Some old ∧
               decryptBytes (H := Double.libs) old [7] = Ok plain ∧
               Double.encrypt [8] plain = Ok envelope ∧
               fs r.2 !! f = Some (Double.armorEncode envelope))
   ∧ (∀ (i : nat) (f : string), files !! i = Some f →
             let wi := (outcomes (H := Double.libs) [7] [8] (take i files)
                                 Scenario.tree).2 in
             fs wi !! f = fs Scenario.tree !! f ∧
             (outs !! i = Some true ↔
              ∃ old plain,
                fs Scenario.tree !! f = Some old ∧
                decryptBytes (H := Double.libs) old [7] = Ok plain ∧
                (AtomicEncryptWrite (H := Double.libs) f plain [8] true wi).1 = None))
   ∧ (faults Scenario.tree = [] →
      length files ≤ length (rand Scenario.tree) →
      (∀ (f : string) (n : nat), f ∈ files → n ∈ rand Scenario.tree →
              fs Scenario.tree !! (joinPath (Double.dir f) ".agepad-tmp-" +:+ Itoa n)
              = None) →
      outs = rotatable (H := Double.libs) [7] [8] (fs Scenario.tree) <$> files
      ∧ tally true outs
        = length (filter (λ f, rotatable (H := Double.libs) [7] [8]
                                 (fs Scenario.tree) f = true) files)
      ∧ tally false outs
        = length (filter (λ f, rotatable (H := Double.libs) [7] [8]
                                 (fs Scenario.tree) f = false) files)))
  ∧ files = ["secrets/c.AGE"; "secrets/a.age"; "secrets/b.age"]
  ∧ outs = [true; true; false]
  ∧ head (stdout r.2) = Some "rotate complete: 2 success, 1 failed"
  ∧ r.1 = Ret (Some "rotate: some files failed (see stderr)")
  ∧ fs r.2 !! "secrets/b.age" = Some "not an envelope"
  ∧ fs r.2 !! "secrets/a.age"
    = Some (Double.armorEncode (Double.intro +:+ NL +:+ Double.keyLine [8] +:+ "A=1"))
  ∧ fs r.2 !! "secrets/c.AGE"
    = Some (Double.armorEncode (Double.intro +:+ NL +:+ Double.keyLine [8] +:+ "C=3")).
Proof.
  split.
  - apply (rotation_fault_isolation (H := Double.libs) [7] [8]
             Scenario.rotateCfg Scenario.tree).
    + vm_compute. reflexivity.
    + vm_compute. reflexivity.
    + vm_compute. reflexivity.
    + vm_compute. discriminate.
    + apply (bool_decide_unpack _). vm_compute. exact I.
  - repeat split; vm_compute; reflexivity.
Defined.

End RotateProps.

(* ===================================================================== *)
(** * Properties of the command line                                      *)
(* ===================================================================== *)

Module CliProps.
Import Strings OS Model Tea.

Section Cli.
Context `{External}.

(** The syntax check of [run] touches nothing: when it fails,
    runEnvExec returns its error from the machine it was given. *)
Lemma runEnvExec_usage_error (environ args : list string) (e : error) (w : World) :
  Main.parseRun args = Fail e →
  Main.runEnvExec environ args w = (Ret (Some e), w).
Proof. intros Hparse. unfold Main.runEnvExec. by rewrite Hparse. Qed.

(** The command has two exit statuses only: every error that cmd.Run
    returns, a usage error included, ends in os.Exit(1). *)
Lemma main_exit_statuses (osArgs environ : list string) (input : list Msg)
    (w : World) :
  match (Main.main osArgs environ input w).1 with
  | Exit code => code = 0%Z ∨ code = 1%Z
  | Exec _ _ _ => True
  end.
Proof.
  unfold Main.main, bind, ret, Eprintln.
  destruct (Main.Run osArgs environ input w) as [[[e|]|path argv env] w1]; simpl; auto.
Qed.

(** What the command does on malformed [run] syntax: status 1, one line
    on standard error, nothing else. *)
Lemma main_usage_error (osArgs environ args : list string) (input : list Msg)
    (e : error) (w : World) :
  cli_Parse osArgs = Ok (InvRun args) →
  Main.parseRun args = Fail e →
  (Main.main osArgs environ input w).1 = Exit 1 ∧
  fs (Main.main osArgs environ input w).2 = fs w ∧
  trace (Main.main osArgs environ input w).2 = trace w ∧
  stderr (Main.main osArgs environ input w).2 = ("error: " +:+ e) :: stderr w.
Proof.
  intros Hcli Hparse. unfold Main.main, Main.Run, bind, ret.
  by rewrite Hcli, (runEnvExec_usage_error _ _ _ _ Hparse).
Qed.

(** The single-file program on the same error: status 2. *)
Lemma legacy_usage_error (osArgs environ : list string) (input : list Msg)
    (e : error) (w : World) :
  osArgs !! 1 = Some "run" →
  Legacy.parseRunFlags osArgs = Fail e →
  (Legacy.main osArgs environ input w).1 = Exit 2 ∧
  fs (Legacy.main osArgs environ input w).2 = fs w ∧
  trace (Legacy.main osArgs environ input w).2 = trace w.
Proof.
  intros Hrun Hparse. unfold Legacy.main.
  rewrite bool_decide_eq_false_2 by (rewrite Hrun; discriminate).
  rewrite bool_decide_eq_true_2 by done.
  by rewrite Hparse.
Qed.

End Cli.

(** C9 at its failing inputs: the command given [run] with no "--"
    marker, with one marker only, with two files between the markers,
    with no command after the second marker, and the command given no
    required flag at all, exits with status 1 in each case (the same
    status as a runtime failure), having written nothing; the single-file
    program exits with status 2 on the same [run] lines. *)
Theorem usage_errors_exit_with_status_1 :
  let w := Double.world ∅ [] [] in
  let exit osArgs := (Main.main (H := Double.libs) osArgs [] [] w).1 in
  let disk osArgs := trace (Main.main (H := Double.libs) osArgs [] [] w).2 in
  let legacy osArgs := (Legacy.main (H := Double.libs) osArgs [] [] w).1 in
  exit ["agepad"; "run"] = Exit 1
  ∧ exit ["agepad"; "run"; "--"; "f.age"; "cmd"] = Exit 1
  ∧ exit ["agepad"; "run"; "--"; "a.age"; "b.age"; "--"; "cmd"] = Exit 1
  ∧ exit ["agepad"; "run"; "--"; "f.age"; "--"] = Exit 1
  ∧ exit ["agepad"] = Exit 1
  ∧ disk ["agepad"; "run"] = []
  ∧ disk ["agepad"] = []
  ∧ legacy ["agepad"; "run"] = Exit 2
  ∧ legacy ["agepad"; "run"; "--"; "f.age"; "cmd"] = Exit 2
  ∧ legacy ["agepad"; "run"; "--"; "a.age"; "b.age"; "--"; "cmd"] = Exit 2
  ∧ legacy ["agepad"; "run"; "--"; "f.age"; "--"] = Exit 2.
Proof. repeat split; vm_compute; reflexivity. Qed.

End CliProps.

(* ===================================================================== *)
(** * More on the env injector                                          *)
(* ===================================================================== *)

Module InjectorProps.
Import Strings EnvMerge StringProps EnvProps.

Lemma trimGo_idem (runes : list string) (s : string) :
  trimGo runes 0 (trimGo runes 0 s) = trimGo runes 0 s.
Proof.
  pose proof (trimGo_head runes 0 s) as Hh.
  destruct (trimGo runes 0 s) as [|c t]; [done|].
  destruct Hh as [Hc Hr]. by apply trimGo_fixed.
Qed.

(** What trimming removes is at the two ends. *)
Lemma TrimLeftSpace_suffix (s : string) : ∃ a, s = a +:+ TrimLeftSpace s.
Proof. apply trimGo_suffix. Qed.

Lemma TrimRightSpace_prefix (s : string) : ∃ b, s = TrimRightSpace s +:+ b.
Proof.
  destruct (trimGo_suffix (String.rev <$> unicodeSpaces) 0 (String.rev s)) as [pre Hpre].
  apply (f_equal String.rev) in Hpre. rewrite rev_involutive, rev_app in Hpre.
  by exists (String.rev pre).
Qed.

Lemma TrimRightSpace_idem (s : string) :
  TrimRightSpace (TrimRightSpace s) = TrimRightSpace s.
Proof. unfold TrimRightSpace. by rewrite rev_involutive, trimGo_idem. Qed.

Lemma TrimLeft_of_prefix (s k b : string) :
  TrimLeftSpace s = k +:+ b → TrimLeftSpace k = k.
Proof.
  intros Hs. destruct k as [|c k]; [done|].
  pose proof (trimGo_head unicodeSpaces 0 s) as Hh.
  fold (TrimLeftSpace s) in Hh. rewrite Hs in Hh.
  change (String c k +:+ b) with (String c (k +:+ b)) in Hh.
  destruct Hh as [Hc Hr].
  change (String c (k +:+ b)) with (String c k +:+ b) in Hr.
  apply runeTail_app in Hr. by apply trimGo_fixed.
Qed.

(** strings.TrimSpace is idempotent. *)
Lemma TrimSpace_idem (s : string) : TrimSpace (TrimSpace s) = TrimSpace s.
Proof.
  unfold TrimSpace.
  destruct (TrimRightSpace_prefix (TrimLeftSpace s)) as [b Hb].
  rewrite (TrimLeft_of_prefix s _ b Hb). apply TrimRightSpace_idem.
Qed.

Lemma Contains_cons (c : ascii) (s x : string) :
  Contains (String c s) x = String.prefix x (String c s) || Contains s x.
Proof. done. Qed.

Lemma Contains_app_l (a b x : string) :
  Contains a x = true → Contains (a +:+ b) x = true.
Proof.
  induction a as [|c a IH].
  - destruct x; [|done]. intros _. by destruct b.
  - rewrite Contains_cons. change (String c a +:+ b) with (String c (a +:+ b)).
    rewrite Contains_cons. intros [Hp|Hc]%orb_true_iff.
    + change (String c (a +:+ b)) with (String c a +:+ b).
      by rewrite (prefix_app_l _ _ b Hp).
    + rewrite (IH Hc). apply orb_true_r.
Qed.

Lemma Contains_app_r (a b x : string) :
  Contains b x = true → Contains (a +:+ b) x = true.
Proof.
  intros Hb. induction a as [|c a IH]; [done|].
  change (String c a +:+ b) with (String c (a +:+ b)).
  rewrite Contains_cons, IH. apply orb_true_r.
Qed.

Lemma TrimSpace_keeps_absent (s x : string) :
  Contains s x = false → Contains (TrimSpace s) x = false.
Proof.
  intros Hs. unfold TrimSpace.
  destruct (TrimLeftSpace_suffix s) as [a Ha].
  destruct (TrimRightSpace_prefix (TrimLeftSpace s)) as [b Hb].
  destruct (Contains (TrimRightSpace (TrimLeftSpace s)) x) eqn:Hc; [|done].
  rewrite Ha, Hb in Hs.
  by rewrite (Contains_app_r a _ x (Contains_app_l _ b x Hc)) in Hs.
Qed.

Lemma SplitN2_no_sep (s : string) (sep : ascii) (p0 p1 : string) (rest : list string) :
  SplitN2 s sep = p0 :: p1 :: rest → Contains p0 (String sep "") = false.
Proof.
  revert p0. induction s as [|c s IH]; intros p0; simpl; [done|].
  case_bool_decide as Hc.
  - by intros [= <- <- <-].
  - destruct (SplitN2 s sep) as [|q0 qs] eqn:Hs; [done|].
    intros [= <- ->]. rewrite Contains_cons, (IH q0 eq_refl), orb_false_r.
    simpl. destruct (ascii_dec sep c); [congruence|done].
Qed.

(** What a line that the loop takes looks like. *)
Lemma parseLine_inv (text key val : string) :
  parseLine text = Some (key, val) →
  ∃ p0, TrimSpace text = p0 +:+ "=" +:+ val ∧ Contains p0 "=" = false ∧
        key = TrimSpace p0 ∧ key ≠ "" ∧ HasPrefix (TrimSpace text) "#" = false.
Proof.
  unfold parseLine.
  destruct (eqb (TrimSpace text) "") eqn:He; [done|].
  destruct (HasPrefix (TrimSpace text) "#") eqn:Hh; [done|].
  destruct (Contains (TrimSpace text) "=") eqn:Hc; [|done]. simpl.
  destruct (SplitN2 (TrimSpace text) "=") as [|p0 [|p1 rest]] eqn:Hs; [done..|].
  destruct (eqb (TrimSpace p0) "") eqn:Hk; [done|]. simpl. intros [= <- <-].
  exists p0. destruct (SplitN2_inv _ _ _ _ _ Hs) as [Hline _].
  unfold eqb in Hk. apply bool_decide_eq_false in Hk.
  refine (conj Hline (conj _ (conj eq_refl (conj Hk eq_refl)))).
  by eapply SplitN2_no_sep.
Qed.

(** X1. What a line of the file can contribute: the key it sets is not
    empty, holds no equals sign and carries no white space at either
    end, and the value carries none at its end. *)
Theorem file_keys_are_clean (text key val : string) :
  parseLine text = Some (key, val) →
  key ≠ "" ∧ Contains key "=" = false ∧ TrimSpace key = key ∧ TrimRightSpace val = val.
Proof.
  intros (p0 & Hline & Hp0 & -> & Hne & _)%parseLine_inv.
  refine (conj Hne (conj _ (conj _ _))).
  - by apply TrimSpace_keeps_absent.
  - apply TrimSpace_idem.
  - unfold TrimSpace in Hline. rewrite <- string_app_assoc in Hline.
    by eapply TrimRightSpace_suffix.
Qed.

Lemma overlayAll_origin (lines : list string) (envMap : gmap string string)
    (key val : string) :
  overlayAll envMap lines !! key = Some val →
  envMap !! key = Some val ∨
  ∃ text, text ∈ lines ∧ parseLine text = Some (key, val).
Proof.
  revert envMap. induction lines as [|t lines IH]; intros envMap; [by left|].
  unfold overlayAll. simpl. intros Hl. apply IH in Hl as [Hl|(text & Hin & Ht)].
  - unfold overlayLine in Hl. destruct (parseLine t) as [[k v]|] eqn:Ht; [|by left].
    apply lookup_insert_Some in Hl as [[<- <-]|[_ Hl]]; [|by left].
    right. exists t. split; [left|done].
  - right. exists text. split; [by right|done].
Qed.

Lemma inheritAll_untouched (after : list string) (envMap : gmap string string)
    (k : string) :
  (∀ e v', e ∈ after → e ≠ k +:+ "=" +:+ v') →
  foldl inheritEntry envMap after !! k = envMap !! k.
Proof.
  revert envMap. induction after as [|e after IH]; intros envMap Hno; [done|].
  simpl. rewrite IH by (intros e' v' Hin; apply Hno; by right).
  unfold inheritEntry.
  destruct (SplitN2 e "=") as [|p0 [|p1 [|? ?]]] eqn:Hs; try done.
  apply lookup_insert_ne. intros ->.
  destruct (SplitN2_inv _ _ _ _ _ Hs) as [He _].
  eapply Hno; [left|exact He].
Qed.

(** X2. Where the entries of the merged environment come from: each is
    inherited, or set by a scanned line of the file. *)
Theorem merged_entries_origin (environ : list string) (plain : string)
    (envMap : gmap string string) (key val : string) :
  mergeEnv environ plain = Some envMap →
  envMap !! key = Some val →
  inheritAll environ !! key = Some val ∨
  ∃ text, text ∈ (Bufio.Scan plain).1 ∧ parseLine text = Some (key, val).
Proof.
  unfold mergeEnv. destruct (Bufio.Scan plain) as [lines tooLong]. simpl.
  destruct tooLong; [done|]. intros [= <-] Hl.
  apply overlayAll_origin in Hl as [Hl|(text & Hin & Ht)]; [by left|].
  right. by exists text.
Qed.

(** X3. A variable of the inherited environment that no line of the file
    sets passes through with the value of its last entry. *)
Theorem inherited_variable_passes_through (environ : list string) (plain : string)
    (envMap : gmap string string) (before after : list string) (k v : string) :
  mergeEnv environ plain = Some envMap →
  environ = before ++ (k +:+ "=" +:+ v) :: after →
  Contains k "=" = false →
  (∀ e v', e ∈ after → e ≠ k +:+ "=" +:+ v') →
  (∀ t v', t ∈ (Bufio.Scan plain).1 → parseLine t ≠ Some (k, v')) →
  envMap !! k = Some v.
Proof.
  unfold mergeEnv. destruct (Bufio.Scan plain) as [lines tooLong]. simpl.
  destruct tooLong; [done|]. intros [= <-] -> Hk Hafter Hlines.
  rewrite overlayAll_untouched by done.
  unfold inheritAll. rewrite foldl_app. simpl.
  rewrite inheritAll_untouched by done.
  unfold inheritEntry.
  change (k +:+ "=" +:+ v) with (k +:+ String "="%char v).
  rewrite (SplitN2_first _ _ _ Hk). apply lookup_insert_eq.
Qed.

Lemma rawLines_long (segs : list string) (l : string) :
  l ≠ "" → l ∈ Bufio.rawLines segs ↔ l ∈ segs.
Proof.
  intros Hl. induction segs as [|s segs IH]; [done|].
  destruct segs as [|s' segs].
  - simpl. unfold eqb. case_bool_decide as Hs.
    + subst s. split; [by intros ?%not_elem_of_nil|].
      intros ?%list_elem_of_singleton. done.
    + done.
  - change (Bufio.rawLines (s :: s' :: segs)) with (s :: Bufio.rawLines (s' :: segs)).
    rewrite !(elem_of_cons _ l s), IH. done.
Qed.

Lemma scanTokens_err (raw : list string) :
  (Bufio.scanTokens raw).2 = true ↔
  ∃ l, l ∈ raw ∧ Bufio.MaxScanTokenSize ≤ String.length l.
Proof.
  induction raw as [|l raw IH].
  - split; [done|]. by intros (l & ?%not_elem_of_nil & _).
  - cbn [Bufio.scanTokens].
    destruct (Bufio.MaxScanTokenSize <=? String.length l) eqn:Hlen.
    + split; [|done]. intros _. exists l. split; [left|by apply Nat.leb_le].
    + destruct (Bufio.scanTokens raw) as [toks err]. cbn [snd] in *. rewrite IH.
      apply Nat.leb_gt in Hlen.
      split; intros (l' & Hin & Hl').
      * exists l'. split; [by right|done].
      * apply elem_of_cons in Hin as [->|Hin]; [lia|]. by exists l'.
Qed.

(** X4. The merge reports the scanner's error exactly when a line of the
    text fills the 64 KiB buffer of the scanner. *)
Theorem merge_fails_iff_line_too_long (environ : list string) (plain : string) :
  mergeEnv environ plain = None ↔
  ∃ seg, seg ∈ Bufio.segments plain ∧ Bufio.MaxScanTokenSize ≤ String.length seg.
Proof.
  unfold mergeEnv, Bufio.Scan.
  pose proof (scanTokens_err (Bufio.rawLines (Bufio.segments plain))) as Herr.
  destruct (Bufio.scanTokens _) as [lines tooLong]. cbn [snd] in Herr.
  transitivity (tooLong = true); [by destruct tooLong|]. rewrite Herr.
  assert (Hlong : ∀ l, Bufio.MaxScanTokenSize ≤ String.length l → l ≠ "").
  { intros l Hl ->. apply Nat.leb_le in Hl. vm_compute in Hl. done. }
  split; intros (l & Hin & Hl); exists l; (split; [|done]).
  - by apply (rawLines_long _ _ (Hlong _ Hl)).
  - by apply (rawLines_long _ _ (Hlong _ Hl)).
Qed.

Lemma file_keys_are_clean_witness :
  "KEY" ≠ "" ∧ Contains "KEY" "=" = false ∧ TrimSpace "KEY" = "KEY" ∧
  TrimRightSpace " a=b c" = " a=b c".
Proof.
  apply (file_keys_are_clean "  KEY = a=b c  " "KEY" " a=b c").
  vm_compute. reflexivity.
Defined.

Lemma merged_entries_origin_witness :
  inheritAll ["A=0"] !! "B" = Some "1" ∨
  ∃ text, text ∈ (Bufio.Scan ("B=1" +:+ NL)).1 ∧ parseLine text = Some ("B", "1").
Proof.
  apply (merged_entries_origin ["A=0"] ("B=1" +:+ NL)
           (<["B" := "1"]> (<["A" := "0"]> ∅)) "B" "1").
  - vm_compute. reflexivity.
  - vm_compute. reflexivity.
Defined.

Lemma inherited_variable_passes_through_witness :
  (<["B" := "1"]> (<["C" := "x"]> (<["A" := "0"]> ∅)) : gmap string string) !! "C"
  = Some "x".
Proof.
  apply (inherited_variable_passes_through ["A=0"; "C=x"] ("B=1" +:+ NL)
           (<["B" := "1"]> (<["C" := "x"]> (<["A" := "0"]> ∅))) ["A=0"] [] "C" "x").
  - vm_compute. reflexivity.
  - reflexivity.
  - vm_compute. reflexivity.
  - intros e v' Hin. by apply not_elem_of_nil in Hin.
  - intros t v' Hin Heq.
    change (Bufio.Scan ("B=1" +:+ NL)).1 with ["B=1"] in Hin.
    apply list_elem_of_singleton in Hin. subst t.
    vm_compute in Heq. discriminate.
Defined.

End InjectorProps.

(* ===================================================================== *)
(** * Properties of the validator                                       *)
(* ===================================================================== *)

Module ValidatorProps.
Import Strings EnvMerge Validator StringProps EnvProps InjectorProps.

Lemma Contains_split (t : string) (sep : ascii) :
  Contains t (String sep "") = true →
  ∃ p0 p1, SplitN2 t sep = [p0; p1] ∧ t = p0 +:+ String sep p1 ∧
           Contains p0 (String sep "") = false.
Proof.
  induction t as [|c t IH]; [done|].
  rewrite Contains_cons. cbn [SplitN2]. case_bool_decide as Hc.
  - intros _. exists "", t. by subst.
  - assert (String.prefix (String sep "") (String c t) = false) as ->.
    { simpl. destruct (ascii_dec sep c); [by subst|done]. }
    intros (p0 & p1 & Hs & -> & Hp0)%IH. rewrite Hs.
    exists (String c p0), p1. split; [done|]. split; [done|].
    rewrite Contains_cons, Hp0, orb_false_r.
    simpl. destruct (ascii_dec sep c); [by subst|done].
Qed.

Lemma validateLines_cons (n : nat) (text : string) (rest : list string) :
  validateLines n (text :: rest) =
  match validateLines n [text] with
  | Some e => Some e
  | None => validateLines (S n) rest
  end.
Proof.
  cbn [validateLines].
  repeat (case_match; try done).
Qed.

(** One line on its own: what makes the validator pass over it, and what
    each of its two errors means. *)
Lemma validateLines_one (n : nat) (text : string) :
  let t := TrimSpace text in
  match validateLines n [text] with
  | None =>
      t = "" ∨ HasPrefix t "#" = true ∨
      ∃ p0 p1, t = p0 +:+ "=" +:+ p1 ∧ Contains p0 "=" = false ∧ p0 ≠ "" ∧
               HasPrefix t "#" = false ∧
               ContainsAny (TrimSpace p0) [" "%char; TAB; DQUOTE; "'"%char] = false
  | Some e =>
      t ≠ "" ∧ HasPrefix t "#" = false ∧
      ((e = ".env parse error on line " +:+ Itoa (S n) +:+ ": expected KEY=VALUE" ∧
        (Contains t "=" = false ∨ HasPrefix t "=" = true)) ∨
       (e = ".env invalid key on line " +:+ Itoa (S n) ∧
        ∃ p0 p1, t = p0 +:+ "=" +:+ p1 ∧ Contains p0 "=" = false ∧ p0 ≠ "" ∧
                 ContainsAny (TrimSpace p0) [" "%char; TAB; DQUOTE; "'"%char] = true))
  end.
Proof.
  intros t. cbn [validateLines]. fold t.
  unfold eqb. case_bool_decide as Hempty; [by left|].
  destruct (HasPrefix t "#") eqn:Hhash; [by right; left|].
  cbn [orb].
  destruct (Contains t "=") eqn:Heq; cbn [negb orb];
    [|split; [done|]; split; [done|]; left; split; [done|by left]].
  destruct (HasPrefix t "=") eqn:Hlead;
    [split; [done|]; split; [done|]; left; split; [done|by right]|].
  destruct (Contains_split _ _ Heq) as (p0 & p1 & Hs & Ht & Hp0).
  rewrite Hs.
  assert (Hne : p0 ≠ "").
  { intros ->. rewrite Ht in Hlead. unfold HasPrefix in Hlead. simpl in Hlead.
    destruct (ascii_dec "=" "="); [|done]. by destruct p1. }
  assert (Hkey : TrimSpace p0 ≠ "") by (by eapply TrimSpace_key_nonempty).
  rewrite bool_decide_eq_false_2 by done. cbn [orb].
  destruct (ContainsAny (TrimSpace p0) [" "%char; TAB; DQUOTE; "'"%char]) eqn:Hany.
  - split; [done|]. split; [done|]. right. split; [done|]. by exists p0, p1.
  - right. right. by exists p0, p1.
Qed.

Lemma validateLines_shift (n m : nat) (text : string) :
  validateLines n [text] = None → validateLines m [text] = None.
Proof.
  cbn [validateLines]. repeat (case_match; try done).
Qed.

Lemma validateLines_first (lines : list string) (n : nat) (e : error) :
  validateLines n lines = Some e →
  ∃ i text, lines !! i = Some text ∧
    validateLines (n + i) [text] = Some e ∧
    ∀ j t, j < i → lines !! j = Some t → validateLines 0 [t] = None.
Proof.
  revert n. induction lines as [|text lines IH]; intros n; [done|].
  rewrite validateLines_cons.
  destruct (validateLines n [text]) as [e'|] eqn:H1.
  - intros [= ->]. exists 0, text. rewrite Nat.add_0_r.
    split; [done|]. split; [done|]. intros; lia.
  - intros (i & t & Hi & He & Hbefore)%IH.
    exists (S i), t. split; [done|].
    split; [by rewrite Nat.add_succ_r|].
    intros [|j] t' Hj Ht'.
    + simplify_eq/=. by eapply validateLines_shift.
    + apply (Hbefore j); [lia|done].
Qed.

Lemma validateLines_all (lines : list string) (n : nat) :
  validateLines n lines = None ↔
  ∀ text, text ∈ lines → validateLines 0 [text] = None.
Proof.
  revert n. induction lines as [|text lines IH]; intros n.
  - split; [|done]. by intros _ ? ?%not_elem_of_nil.
  - rewrite validateLines_cons. split.
    + destruct (validateLines n [text]) eqn:H1; [done|].
      intros Hrest t [->|Hin]%elem_of_cons.
      * by eapply validateLines_shift.
      * by eapply IH.
    + intros Hall.
      rewrite (validateLines_shift 0 n) by (apply Hall; left).
      apply IH. intros t Hin. apply Hall. by right.
Qed.

(** X5. A text that validates has no line the injector drops: every
    scanned line is blank, a comment, or sets a key without space, tab
    or quote. *)
Theorem validated_lines_reach_the_environment (s text : string) :
  validateDotEnv s = None →
  text ∈ (Bufio.Scan s).1 →
  TrimSpace text = "" ∨ HasPrefix (TrimSpace text) "#" = true ∨
  ∃ key val, parseLine text = Some (key, val) ∧
             ContainsAny key [" "%char; TAB; DQUOTE; "'"%char] = false.
Proof.
  unfold validateDotEnv. intros Hok Hin.
  pose proof (proj1 (validateLines_all _ _) Hok text Hin) as H1.
  pose proof (validateLines_one 0 text) as Hone. rewrite H1 in Hone.
  destruct Hone as [?|[?|(p0 & p1 & Ht & Hp0 & Hne & Hhash & Hany)]];
    [by left|by right; left|].
  right. right. exists (TrimSpace p0), p1. split; [|done].
  apply parseLine_qualifying; [done..|].
  by eapply TrimSpace_key_nonempty.
Qed.

(** X6. The error of the validator names the first offending line, counted
    from 1 with blank and comment lines, and says what is wrong with
    it: no equals sign or a leading one (parse error), or a space, tab
    or quote in a key that is not empty (invalid key). *)
Theorem first_offending_line_is_reported (s : string) (e : error) :
  validateDotEnv s = Some e →
  ∃ n text,
    (Bufio.Scan s).1 !! n = Some text ∧
    (∀ j t, j < n → (Bufio.Scan s).1 !! j = Some t → validateLines 0 [t] = None) ∧
    TrimSpace text ≠ "" ∧ HasPrefix (TrimSpace text) "#" = false ∧
    ((e = ".env parse error on line " +:+ Itoa (S n) +:+ ": expected KEY=VALUE" ∧
      (Contains (TrimSpace text) "=" = false ∨
       HasPrefix (TrimSpace text) "=" = true)) ∨
     (e = ".env invalid key on line " +:+ Itoa (S n) ∧
      ∃ p0 p1, TrimSpace text = p0 +:+ "=" +:+ p1 ∧ Contains p0 "=" = false ∧
               TrimSpace p0 ≠ "" ∧
               ContainsAny (TrimSpace p0) [" "%char; TAB; DQUOTE; "'"%char] = true)).
Proof.
  unfold validateDotEnv.
  intros (n & text & Hn & He & Hbefore)%validateLines_first.
  exists n, text. split; [done|]. split; [done|].
  pose proof (validateLines_one n text) as Hone.
  change (0 + n) with n in He. rewrite He in Hone.
  destruct Hone as (Hne & Hhash & [[-> Hbad]|[-> (p0 & p1 & Ht & Hp0 & Hp0ne & Hany)]]).
  - split; [done|]. split; [done|]. by left.
  - split; [done|]. split; [done|]. right. split; [done|].
    exists p0, p1. split; [done|]. split; [done|]. split; [|done].
    by eapply TrimSpace_key_nonempty.
Qed.


Lemma Contains_char_cons (c sep : ascii) (s : string) :
  Contains (String c s) (String sep "") =
  bool_decide (c = sep) || Contains s (String sep "").
Proof.
  rewrite Contains_cons. f_equal. simpl.
  destruct (ascii_dec sep c) as [->|Hne].
  - rewrite bool_decide_eq_true_2 by done. by destruct s.
  - by rewrite bool_decide_eq_false_2 by congruence.
Qed.

Lemma segments_no_sep (s : string) (sep : ascii) :
  Contains s (String sep "") = false →
  ∀ seg, seg ∈ Bufio.segments s → Contains seg (String sep "") = false.
Proof.
  induction s as [|c s IH]; cbn [Bufio.segments].
  - by intros _ seg ->%list_elem_of_singleton.
  - rewrite Contains_char_cons. intros [Hc Hs]%orb_false_iff.
    specialize (IH Hs). destruct (Bufio.segments s) as [|l ls]; [done|].
    destruct (bool_decide (c = LF)).
    + intros seg [->|Hin]%elem_of_cons; [done|by apply IH].
    + intros seg [->|Hin]%elem_of_cons.
      * rewrite Contains_char_cons, Hc. apply IH. left.
      * apply IH. by right.
Qed.

Lemma rawLines_subset (segs : list string) (l : string) :
  l ∈ Bufio.rawLines segs → l ∈ segs.
Proof.
  induction segs as [|s segs IH]; [done|].
  destruct segs as [|s' segs].
  - simpl. case_match; [by intros ?%not_elem_of_nil|done].
  - change (Bufio.rawLines (s :: s' :: segs)) with (s :: Bufio.rawLines (s' :: segs)).
    intros [->|Hin]%elem_of_cons; [left|right; by apply IH].
Qed.

Lemma dropCR_prefix (l : string) : ∃ b, l = Bufio.dropCR l +:+ b.
Proof.
  unfold Bufio.dropCR. destruct (String.rev l) as [|c r] eqn:Hrev.
  - exists "". by rewrite string_app_nil_r.
  - case_bool_decide; [|exists ""; by rewrite string_app_nil_r].
    exists (String c ""). apply (f_equal String.rev) in Hrev.
    by rewrite rev_involutive, rev_cons in Hrev.
Qed.

Lemma scanTokens_from (raw : list string) (t : string) :
  t ∈ (Bufio.scanTokens raw).1 → ∃ l, l ∈ raw ∧ t = Bufio.dropCR l.
Proof.
  induction raw as [|l raw IH]; [by intros ?%not_elem_of_nil|].
  cbn [Bufio.scanTokens]. case_match; [by intros ?%not_elem_of_nil|].
  destruct (Bufio.scanTokens raw) as [toks err]. cbn [fst] in *.
  intros [->|Hin]%elem_of_cons.
  - exists l. split; [left|done].
  - destruct (IH Hin) as (l' & ? & ?). exists l'. split; [by right|done].
Qed.

Lemma Scan_no_sep (s : string) (sep : ascii) (text : string) :
  Contains s (String sep "") = false →
  text ∈ (Bufio.Scan s).1 → Contains text (String sep "") = false.
Proof.
  intros Hs (l & Hl%rawLines_subset & ->)%scanTokens_from.
  pose proof (segments_no_sep _ _ Hs _ Hl) as Hno.
  destruct (dropCR_prefix l) as [b Hb].
  destruct (Contains (Bufio.dropCR l) (String sep "")) eqn:Hc; [|done].
  rewrite Hb in Hno. by rewrite Contains_app_l in Hno.
Qed.

Lemma looksLikeDotEnv_no_match (lines : list string) (n : nat) :
  (∀ text, text ∈ lines → Contains (TrimSpace text) "=" = false) →
  (foldl (λ '(lines, matches) text,
             let line := TrimSpace text in
             if eqb line "" || HasPrefix line "#" then (lines, matches)
             else if Contains line "=" && negb (HasPrefix line "=")
                  then (S lines, S matches)
                  else (S lines, matches))
          (n, 0) lines).2 = 0.
Proof.
  revert n. induction lines as [|text lines IH]; intros n Hno; [done|].
  cbn [foldl]. rewrite (Hno text) by left. cbn [andb].
  case_match; apply IH; intros t Hin; apply Hno; by right.
Qed.

Lemma lowerByte_fixed (c : ascii) :
  c ∈ ["."%char; "/"%char] → lowerByte c = c.
Proof.
  intros [->|[->|?%not_elem_of_nil]%elem_of_cons]%elem_of_cons; done.
Qed.

Lemma ToLower_keeps_marks (e : string) :
  ContainsAny (ToLower e) ["."%char; "/"%char] = false →
  ContainsAny e ["."%char; "/"%char] = false.
Proof.
  induction e as [|c e IH]; [done|]. cbn [ToLower ContainsAny].
  intros [Hc He]%orb_false_iff. rewrite (IH He), orb_false_r.
  apply bool_decide_eq_false_2. intros Hin.
  apply bool_decide_eq_false_1 in Hc. apply Hc.
  by rewrite (lowerByte_fixed _ Hin).
Qed.

Lemma extGo_app (x r acc : string) :
  ContainsAny x ["."%char; "/"%char] = false →
  extGo acc (x +:+ String "."%char r) = String "."%char (String.rev x +:+ acc).
Proof.
  revert acc. induction x as [|c x IH]; intros acc.
  - intros _. reflexivity.
  - cbn [ContainsAny]. intros [Hc Hx]%orb_false_iff.
    apply bool_decide_eq_false_1 in Hc.
    change (String c x +:+ String "."%char r) with (String c (x +:+ String "."%char r)).
    cbn [extGo].
    rewrite bool_decide_eq_false_2 by (intros ->; apply Hc; set_solver).
    rewrite bool_decide_eq_false_2 by (intros ->; apply Hc; set_solver).
    rewrite IH by done. rewrite rev_cons. f_equal.
    first [by rewrite string_app_assoc | by rewrite <- string_app_assoc].
Qed.

Lemma ContainsAny_app (a b : string) (chars : list ascii) :
  ContainsAny (a +:+ b) chars = ContainsAny a chars || ContainsAny b chars.
Proof.
  induction a as [|c a IH]; [done|].
  change (String c a +:+ b) with (String c (a +:+ b)). cbn [ContainsAny].
  by rewrite IH, orb_assoc.
Qed.

Lemma ContainsAny_rev (a : string) (chars : list ascii) :
  ContainsAny (String.rev a) chars = ContainsAny a chars.
Proof.
  induction a as [|c a IH]; [done|].
  rewrite rev_cons, ContainsAny_app, IH. cbn [ContainsAny].
  by rewrite orb_false_r, orb_comm.
Qed.

(** filepath.Ext of a name that ends in a dot and a suffix without dot or
    separator is that dot and suffix. *)
Lemma Ext_suffix (stem e : string) :
  ContainsAny e ["."%char; "/"%char] = false →
  Ext (stem +:+ "." +:+ e) = "." +:+ e.
Proof.
  intros He. unfold Ext.
  rewrite rev_app, rev_app. change (String.rev ".") with ".".
  rewrite string_app_assoc.
  change ("." +:+ String.rev stem) with (String "."%char (String.rev stem)).
  rewrite extGo_app by (by rewrite ContainsAny_rev).
  by rewrite rev_involutive, string_app_nil_r.
Qed.

Section Dispatch.
Context `{External}.

(** X7. The check is chosen by the last extension of the name, whatever
    its capitalisation and whatever precedes it. *)
Theorem extension_dispatch_ignores_case (stem e content : string) :
  (ToLower e = "json" →
   ValidateByExt (stem +:+ "." +:+ e) content = validateJSON content) ∧
  (ToLower e = "yaml" ∨ ToLower e = "yml" →
   ValidateByExt (stem +:+ "." +:+ e) content = validateYAML content) ∧
  (ToLower e = "toml" →
   ValidateByExt (stem +:+ "." +:+ e) content = validateTOML content).
Proof.
  assert (Hroute : ∀ low, ToLower e = low →
            ContainsAny low ["."%char; "/"%char] = false →
            ToLower (Ext (stem +:+ "." +:+ e)) = "." +:+ low).
  { intros low <- Hlow. by rewrite Ext_suffix by (by apply ToLower_keeps_marks). }
  unfold ValidateByExt.
  split; [|split].
  - intros He. by rewrite (Hroute "json" He eq_refl).
  - intros [He|He].
    + by rewrite (Hroute "yaml" He eq_refl).
    + by rewrite (Hroute "yml" He eq_refl).
  - intros He. by rewrite (Hroute "toml" He eq_refl).
Qed.

(** X8. Under a name with no known extension, content without an equals
    sign is accepted. *)
Theorem text_without_equals_is_accepted (filename content : string) :
  ToLower (Ext filename) ∉ [".json"; ".yaml"; ".yml"; ".toml"] →
  Contains content "=" = false →
  ValidateByExt filename content = None.
Proof.
  intros Hext Hno. unfold ValidateByExt, eqb.
  repeat (rewrite bool_decide_eq_false_2 by (intros Heq; apply Hext; rewrite Heq; set_solver)).
  cbn [orb].
  assert (looksLikeDotEnv content = false) as ->; [|done].
  unfold looksLikeDotEnv.
  pose proof (looksLikeDotEnv_no_match (Bufio.Scan content).1 0) as Hm.
  destruct (foldl _ _ _) as [lines matches]. cbn [snd] in Hm.
  rewrite Hm; [by rewrite andb_false_r|].
  intros text Hin. apply TrimSpace_keeps_absent. by eapply Scan_no_sep.
Qed.

End Dispatch.

Lemma validated_lines_reach_the_environment_witness :
  TrimSpace " A = 1" = "" ∨ HasPrefix (TrimSpace " A = 1") "#" = true ∨
  ∃ key val, parseLine " A = 1" = Some (key, val) ∧
             ContainsAny key [" "%char; TAB; DQUOTE; "'"%char] = false.
Proof.
  apply (validated_lines_reach_the_environment (" A = 1" +:+ NL +:+ "# note" +:+ NL)).
  - vm_compute. reflexivity.
  - change (Bufio.Scan (" A = 1" +:+ NL +:+ "# note" +:+ NL)).1
      with [" A = 1"; "# note"]. left.
Defined.

Lemma first_offending_line_is_reported_witness :
  let s := "A=1" +:+ NL +:+ "MY KEY=2" +:+ NL +:+ "oops" +:+ NL in
  ∃ n text,
    (Bufio.Scan s).1 !! n = Some text ∧
    (∀ j t, j < n → (Bufio.Scan s).1 !! j = Some t → validateLines 0 [t] = None) ∧
    TrimSpace text ≠ "" ∧ HasPrefix (TrimSpace text) "#" = false ∧
    ((".env invalid key on line 2"
      = ".env parse error on line " +:+ Itoa (S n) +:+ ": expected KEY=VALUE" ∧
      (Contains (TrimSpace text) "=" = false ∨
       HasPrefix (TrimSpace text) "=" = true)) ∨
     (".env invalid key on line 2" = ".env invalid key on line " +:+ Itoa (S n) ∧
      ∃ p0 p1, TrimSpace text = p0 +:+ "=" +:+ p1 ∧ Contains p0 "=" = false ∧
               TrimSpace p0 ≠ "" ∧
               ContainsAny (TrimSpace p0) [" "%char; TAB; DQUOTE; "'"%char] = true)).
Proof.
  apply (first_offending_line_is_reported
           ("A=1" +:+ NL +:+ "MY KEY=2" +:+ NL +:+ "oops" +:+ NL)
           ".env invalid key on line 2").
  vm_compute. reflexivity.
Defined.

Lemma text_without_equals_is_accepted_witness :
  ValidateByExt (H := Double.libs) "notes.txt" ("dear diary" +:+ NL +:+ "json?" +:+ NL)
  = None.
Proof.
  apply (text_without_equals_is_accepted (H := Double.libs)).
  - apply (bool_decide_unpack _). vm_compute. exact I.
  - vm_compute. reflexivity.
Defined.

End ValidatorProps.

(* ===================================================================== *)
(** * The syntax of the run command                                     *)
(* ===================================================================== *)

Module RunSyntaxProps.
Import Strings OS Model Main StringProps.

Lemma findDashes_skip (pre rest : list string) (i : Z) :
  "--" ∉ pre →
  findDashes (pre ++ rest) i (-1) = findDashes rest (i + Z.of_nat (length pre)) (-1).
Proof.
  revert i. induction pre as [|a pre IH]; intros i Hno.
  - simpl. f_equal. lia.
  - apply not_elem_of_cons in Hno as [Ha Hno].
    cbn [app findDashes]. unfold eqb at 1.
    rewrite bool_decide_eq_false_2 by done.
    rewrite IH by done. f_equal. cbn [length]. lia.
Qed.

Lemma findDashes_second (mid rest : list string) (i fd : Z) :
  fd ≠ (-1)%Z → "--" ∉ mid →
  findDashes (mid ++ "--" :: rest) i fd = (fd, (i + Z.of_nat (length mid))%Z).
Proof.
  intros Hfd. revert i. induction mid as [|a mid IH]; intros i Hno.
  - cbn [app findDashes length]. unfold eqb. rewrite bool_decide_eq_true_2 by done.
    apply Z.eqb_neq in Hfd. rewrite Hfd. f_equal. lia.
  - apply not_elem_of_cons in Hno as [Ha Hno].
    cbn [app findDashes]. unfold eqb at 1.
    rewrite bool_decide_eq_false_2 by done.
    rewrite IH by done. f_equal. cbn [length]. lia.
Qed.

Lemma findDashes_none (mid : list string) (i fd : Z) :
  "--" ∉ mid → findDashes mid i fd = (fd, (-1)%Z).
Proof.
  revert i. induction mid as [|a mid IH]; intros i Hno; [done|].
  apply not_elem_of_cons in Hno as [Ha Hno].
  cbn [findDashes]. unfold eqb at 1.
  rewrite bool_decide_eq_false_2 by done. by apply IH.
Qed.

Lemma findDashes_first (rest : list string) (i : Z) :
  (0 ≤ i)%Z →
  findDashes ("--" :: rest) i (-1) = findDashes rest (i + 1) i ∧ i ≠ (-1)%Z.
Proof.
  intros Hi. split; [|lia]. cbn [findDashes]. unfold eqb.
  by rewrite bool_decide_eq_true_2.
Qed.

Lemma drop_exact (a b l : list string) (z : Z) :
  l = a ++ b → z = Z.of_nat (length a) → drop (Z.to_nat z) l = b.
Proof. intros -> ->. rewrite Nat2Z.id. apply drop_app_length. Qed.

Lemma slice_middle (pre mid post : list string) :
  slice (pre ++ "--" :: mid ++ post)
        (Z.of_nat (length pre) + 1)
        (Z.of_nat (length pre) + 1 + Z.of_nat (length mid)) = mid.
Proof.
  unfold slice.
  replace (pre ++ "--" :: mid ++ post) with ((pre ++ ["--"]) ++ mid ++ post)
    by (by rewrite <- app_assoc).
  rewrite (drop_exact (pre ++ ["--"]) (mid ++ post));
    [|done|rewrite length_app; simpl; lia].
  replace (Z.to_nat _) with (length mid) by lia.
  by rewrite take_app_length.
Qed.

(** What an accepted argument list looks like. *)
Lemma parseRun_Ok_inv (args : list string) (runFile : string)
    (runArgs : list string) :
  parseRun args = Ok (runFile, runArgs) →
  ∃ pre, args = pre ++ ("--" :: runFile :: "--" :: runArgs) ∧
         ("--" ∉ pre) ∧ runFile ≠ "--" ∧ runArgs ≠ [].
Proof.
  unfold parseRun.
  destruct (decide ("--" ∈ args)) as [Hin|Hno];
    [|by rewrite findDashes_none by done].
  apply list_elem_of_split_l in Hin as (pre & rest & -> & Hpre).
  rewrite findDashes_skip by done.
  destruct (findDashes_first rest (0 + Z.of_nat (length pre))) as [-> Hfd]; [lia|].
  destruct (decide ("--" ∈ rest)) as [Hin|Hno].
  2:{ rewrite findDashes_none by done.
      apply Z.eqb_neq in Hfd. by rewrite Hfd. }
  apply list_elem_of_split_l in Hin as (mid & cmd & -> & Hmid).
  rewrite findDashes_second by done.
  set (fd := (0 + Z.of_nat (length pre))%Z) in *.
  set (sd := (fd + 1 + Z.of_nat (length mid))%Z).
  assert ((fd =? -1)%Z = false) as -> by (apply Z.eqb_neq; lia).
  assert ((sd =? -1)%Z = false) as -> by (apply Z.eqb_neq; lia).
  cbn [orb].
  destruct (sd =? _)%Z eqn:Hlast; [done|].
  unfold sd, fd in *. clear sd fd Hfd.
  rewrite !Z.add_0_l in *.
  rewrite slice_middle.
  destruct mid as [|f [|? ?]]; try done.
  intros [= -> Hargs].
  assert (runArgs = cmd) as ->.
  { rewrite <- Hargs.
    apply (drop_exact (pre ++ ["--"; runFile; "--"]) cmd);
      [by rewrite <- app_assoc|rewrite length_app; simpl; lia]. }
  exists pre. split; [done|]. split; [done|]. split; [set_solver|].
  intros ->. apply Z.eqb_neq in Hlast. apply Hlast.
  rewrite !length_app. simpl. lia.
Qed.

Lemma parseRun_Ok_intro (pre : list string) (runFile : string)
    (runArgs : list string) :
  ("--" ∉ pre) → runFile ≠ "--" → runArgs ≠ [] →
  parseRun (pre ++ ("--" :: runFile :: "--" :: runArgs)) = Ok (runFile, runArgs).
Proof.
  intros Hpre Hf Hcmd. unfold parseRun.
  rewrite findDashes_skip by done.
  destruct (findDashes_first (runFile :: "--" :: runArgs)
              (0 + Z.of_nat (length pre))) as [-> Hfd]; [lia|].
  rewrite (findDashes_second [runFile] runArgs)
    by (first [done | intros ?%list_elem_of_singleton; congruence]).
  assert ((0 + Z.of_nat (length pre) =? -1)%Z = false) as ->
    by (apply Z.eqb_neq; lia).
  assert ((0 + Z.of_nat (length pre) + 1 + Z.of_nat (length [runFile]) =? -1)%Z = false)
    as -> by (apply Z.eqb_neq; lia).
  assert ((0 + Z.of_nat (length pre) + 1 + Z.of_nat (length [runFile]) =?
           Z.of_nat (length (pre ++ "--" :: runFile :: "--" :: runArgs)) - 1)%Z = false)
    as ->.
  { apply Z.eqb_neq. rewrite length_app. simpl.
    destruct runArgs; [done|]. simpl. lia. }
  cbn [orb].
  rewrite !Z.add_0_l.
  pose proof (slice_middle pre [runFile] ("--" :: runArgs)) as Hs.
  cbn [app] in Hs. rewrite Hs.
  f_equal. f_equal.
  apply (drop_exact (pre ++ ["--"; runFile; "--"]) runArgs);
    [by rewrite <- app_assoc|rewrite length_app; simpl; lia].
Qed.

(** X9. The argument lists the run command accepts are exactly those of
    the form pre, "--", file, "--", command with a command that is not
    empty; what comes before the first marker is ignored. *)
Theorem run_syntax_characterised (args : list string) (runFile : string)
    (runArgs : list string) :
  parseRun args = Ok (runFile, runArgs) ↔
  ∃ pre, args = pre ++ ("--" :: runFile :: "--" :: runArgs) ∧
         ("--" ∉ pre) ∧ runFile ≠ "--" ∧ runArgs ≠ [].
Proof.
  split; [apply parseRun_Ok_inv|].
  intros (pre & -> & Hpre & Hf & Hcmd). by apply parseRun_Ok_intro.
Qed.

End RunSyntaxProps.

(* ===================================================================== *)
(** * Sessions of the editor                                            *)
(* ===================================================================== *)

Module SessionProps.
Import Strings OS Model Tea Tui Age StringProps GatewayProps EditorProps.

Local Opaque createTempTries.

Section Session.
Context `{External}.

Local Ltac save_paths :=
  unfold onSave, bind, ret, Now; repeat (case_match; simpl; try done).

(** No message changes the configuration or the keys of the session. *)
Lemma Update_keeps_keys (m : Model) (msg : Msg) (w : World) :
  cfg (Update m msg w).1.1 = cfg m ∧
  identities (Update m msg w).1.1 = identities m ∧
  recips (Update m msg w).1.1 = recips m.
Proof.
  assert (Hother : cfg (onOther m msg).1 = cfg m ∧
                   identities (onOther m msg).1 = identities m ∧
                   recips (onOther m msg).1 = recips m).
  { unfold onOther. destruct (ta_Update (ta m) msg) as [ta' cmd]. simpl.
    by destruct (negb _). }
  assert (Hsave : cfg (onSave m w).1.1 = cfg m ∧
                  identities (onSave m w).1.1 = identities m ∧
                  recips (onSave m w).1.1 = recips m) by save_paths.
  destruct msg as [|key|tag]; simpl; try done.
  unfold onQuit, onDiff.
  repeat (case_match; simpl; try done).
Qed.

(** Only a save request touches the machine. *)
Lemma Update_pure_unless_save (m : Model) (msg : Msg) (w : World) :
  msg ≠ KeyMsg "ctrl+s" →
  (Update m msg w).2 = w ∧ orig (Update m msg w).1.1 = orig m.
Proof.
  intros Hmsg.
  assert (Hother : orig (onOther m msg).1 = orig m).
  { unfold onOther. destruct (ta_Update (ta m) msg) as [ta' cmd]. simpl.
    by destruct (negb _). }
  destruct msg as [|key|tag]; simpl; try done.
  unfold onQuit, onDiff.
  repeat (case_match; simpl; try done).
  match goal with Hk : eqb key "ctrl+s" = true |- _ => apply eqb_true in Hk end.
  congruence.
Qed.

Lemma save_request_or_not (msg : Msg) :
  msg = KeyMsg "ctrl+s" ∨ msg ≠ KeyMsg "ctrl+s".
Proof.
  destruct msg as [|key|tag]; [by right| |by right].
  destruct (decide (key = "ctrl+s")) as [->|Hne]; [by left|right; congruence].
Qed.

Lemma Update_view_only (m : Model) (msg : Msg) (w : World) :
  ViewOnly (cfg m) = true →
  (Update m msg w).2 = w ∧ orig (Update m msg w).1.1 = orig m.
Proof.
  intros Hview.
  destruct (save_request_or_not msg) as [->|Hne].
  - simpl. unfold onSave. by rewrite Hview.
  - by apply Update_pure_unless_save.
Qed.

(** X10. A view-only session leaves the machine as it found it, whatever
    messages it receives. *)
Theorem view_only_session_never_writes (m : Model) (msgs : list Msg) (w : World) :
  ViewOnly (cfg m) = true →
  (run m msgs w).2 = w ∧ orig (run m msgs w).1 = orig m.
Proof.
  revert m. induction msgs as [|msg rest IH]; intros m Hview; [done|].
  cbn [run]. unfold bind.
  destruct (Update_view_only m msg w Hview) as [Hw Horig].
  destruct (Update_keeps_keys m msg w) as [Hcfg _].
  destruct (Update m msg w) as [[m' cmd] w']. simpl in *. subst w'.
  assert (Hview' : ViewOnly (cfg m') = true) by (by rewrite Hcfg).
  destruct cmd; simpl; try done; rewrite <- Horig; by apply IH.
Qed.

(** X11. The configuration and the keys of a session are those of its
    start, in every reachable state. *)
Theorem session_keeps_keys_and_config (m0 m : Model) :
  reachable m0 m →
  cfg m = cfg m0 ∧ identities m = identities m0 ∧ recips m = recips m0.
Proof.
  induction 1 as [|m msg w _ (IHc & IHi & IHr)]; [done|].
  destruct (Update_keeps_keys m msg w) as (-> & -> & ->). done.
Qed.

(** X12. The machine changes only in a save request whose checks pass and
    that is confirmed, or finds the buffer equal to the snapshot. *)
Theorem machine_changes_only_on_confirmed_save (m : Model) (msg : Msg) (w : World) :
  (Update m msg w).2 ≠ w →
  msg = KeyMsg "ctrl+s" ∧ checksPass m ∧
  (pendingConfirm m = true ∨ ta_Value (ta m) = orig m).
Proof.
  intros Hw.
  destruct (save_request_or_not msg) as [->|Hne];
    [|by destruct Hw; apply Update_pure_unless_save].
  split; [done|]. revert Hw. simpl. unfold onSave, checksPass, bind, ret.
  destruct (ViewOnly (cfg m)) eqn:Hview; [done|].
  destruct (Validator.ValidateByExt _ _) eqn:Hvalid; [done|].
  destruct (EncryptToMemory _ _ _) as [cipher|e] eqn:Henc; [|done].
  destruct (age_Decrypt _ _) as [r|e] eqn:Hdec; [|done].
  intros Hw. split.
  { split; [done|]. split; [done|]. exists cipher, r. by split. }
  destruct (eqb (ta_Value (ta m)) (orig m)) eqn:Heq.
  - right. by apply eqb_true in Heq.
  - destruct (pendingConfirm m); [by left|]. by destruct Hw.
Qed.


(** X14. A save whose write fails loses nothing: disk, buffer, snapshot and
    dirty flag are kept and the error is shown. *)
Theorem failed_write_keeps_buffer_and_disk (m : Model) (w : World) (e : error) :
  let dst := FilePath (cfg m) in
  let buf := ta_Value (ta m) in
  let r := Update m (KeyMsg "ctrl+s") w in
  checksPass m →
  pendingConfirm m = true ∨ buf = orig m →
  (AtomicEncryptWrite dst buf (recips m) (Armor (cfg m)) w).1 = Some e →
  fs r.2 = fs w ∧ ta r.1.1 = ta m ∧ orig r.1.1 = orig m ∧
  changed r.1.1 = changed m ∧ err r.1.1 = Some e ∧
  status r.1.1 = "Save failed" ∧ pendingConfirm r.1.1 = false.
Proof.
  intros dst buf r (Hview & Hvalid & cipher & x & Henc & Hdec) Hgate Hfail.
  subst dst buf r.
  assert (Hg : negb (eqb (ta_Value (ta m)) (orig m)) && negb (pendingConfirm m) = false).
  { destruct Hgate as [->|Heq]; [by rewrite andb_false_r|].
    apply eqb_true in Heq. by rewrite Heq. }
  pose proof (AtomicEncryptWrite_spec (FilePath (cfg m)) (ta_Value (ta m)) (recips m)
                (Armor (cfg m)) w) as [_ Hfs].
  simpl. unfold onSave, bind, ret, Now.
  rewrite Hview, Hvalid, Henc, Hdec, Hg.
  destruct (AtomicEncryptWrite (FilePath (cfg m)) (ta_Value (ta m)) (recips m)
              (Armor (cfg m)) w) as [e' w'].
  cbn [fst snd] in Hfail, Hfs |- *. subst e'. done.
Qed.

(** X15. With unsaved changes, quitting takes two requests in a row, and
    writes nothing. *)
Theorem unsaved_changes_quit_takes_two_requests (m : Model) (rest : list Msg)
    (w : World) :
  changed m = true → ViewOnly (cfg m) = false → pendingConfirm m = false →
  (Update m (KeyMsg "ctrl+q") w).1.2 = CmdNil ∧
  (run m (KeyMsg "ctrl+q" :: KeyMsg "ctrl+q" :: rest) w).2 = w ∧
  ta (run m (KeyMsg "ctrl+q" :: KeyMsg "ctrl+q" :: rest) w).1 = ta m ∧
  orig (run m (KeyMsg "ctrl+q" :: KeyMsg "ctrl+q" :: rest) w).1 = orig m.
Proof.
  intros Hch Hview Hpend. cbn [run]. unfold bind. simpl.
  unfold onQuit. rewrite Hch, Hview, Hpend. simpl.
  by rewrite Hch, Hview.
Qed.

(** X16. A first save request on a changed buffer disarms the quit guard:
    one quit request then ends the session with the changes unsaved. *)
Theorem save_request_disarms_quit_guard (m : Model) (rest : list Msg) (w : World) :
  checksPass m → changed m = true → ta_Value (ta m) ≠ orig m →
  pendingConfirm m = false →
  (run m (KeyMsg "ctrl+s" :: KeyMsg "ctrl+q" :: rest) w).2 = w ∧
  ta (run m (KeyMsg "ctrl+s" :: KeyMsg "ctrl+q" :: rest) w).1 = ta m ∧
  orig (run m (KeyMsg "ctrl+s" :: KeyMsg "ctrl+q" :: rest) w).1 = orig m.
Proof.
  intros (Hview & Hvalid & cipher & x & Henc & Hdec) Hch Hdirty Hpend.
  apply eqb_false in Hdirty.
  cbn [run]. unfold bind. simpl. unfold onSave, ret.
  rewrite Hview, Hvalid, Henc, Hdec, Hdirty, Hpend. simpl.
  unfold onQuit. simpl. by rewrite Hch, Hview.
Qed.

(** X17. The preview is at most n + 18 bytes long: the string itself, or
    its first n bytes and the truncation marker. *)
Theorem truncate_bounds_preview (s : string) (n : nat) :
  String.length (truncate s n) ≤ n + 18 ∧
  (String.length s ≤ n → truncate s n = s) ∧
  (n < String.length s →
   ∃ tail, s = firstBytes n s +:+ tail ∧ String.length (firstBytes n s) = n ∧
           truncate s n = firstBytes n s +:+ NL +:+ bytes [226; 128; 166] +:+
                          "(truncated)" +:+ bytes [226; 128; 166]).
Proof.
  assert (Hfirst : ∀ k t, k ≤ String.length t →
            String.length (firstBytes k t) = k ∧ ∃ tail, t = firstBytes k t +:+ tail).
  { induction k as [|k IH]; intros t Hk.
    - split; [by destruct t|]. exists t. by destruct t.
    - destruct t as [|c t]; simpl in Hk; [lia|].
      destruct (IH t ltac:(lia)) as [Hlen [tail Htail]]. cbn [firstBytes]. split.
      + simpl. by rewrite Hlen.
      + exists tail. change (String c (firstBytes k t) +:+ tail)
          with (String c (firstBytes k t +:+ tail)). by rewrite <- Htail. }
  unfold truncate. destruct (String.length s <=? n) eqn:Hle.
  - apply Nat.leb_le in Hle. split; [lia|]. split; [done|]. lia.
  - apply Nat.leb_gt in Hle.
    destruct (Hfirst n s ltac:(lia)) as [Hlen [tail Htail]].
    split; [|split; [lia|]].
    + rewrite string_length_app, Hlen. apply Nat.add_le_mono_l. by vm_compute.
    + intros _. exists tail. done.
Qed.

End Session.

Lemma view_only_session_never_writes_witness :
  let m := NewModel (H := Double.libs) Scenario.viewCfg "A=1" [7] [7] in
  let msgs := [KeyMsg "x"; KeyMsg "ctrl+s"; KeyMsg "ctrl+s"; KeyMsg "ctrl+q"] in
  (run m msgs Scenario.w0).2 = Scenario.w0 ∧
  orig (run m msgs Scenario.w0).1 = orig m.
Proof.
  apply (view_only_session_never_writes (H := Double.libs)). reflexivity.
Defined.

Lemma session_keeps_keys_and_config_witness :
  cfg (Scenario.play [KeyMsg "x"]).1 = cfg Scenario.m0 ∧
  identities (Scenario.play [KeyMsg "x"]).1 = identities Scenario.m0 ∧
  recips (Scenario.play [KeyMsg "x"]).1 = recips Scenario.m0.
Proof.
  apply (session_keeps_keys_and_config (H := Double.libs) Scenario.m0).
  apply (reach_step Scenario.m0 Scenario.m0 (KeyMsg "x") Scenario.w0), reach_init.
Defined.

Lemma machine_changes_only_on_confirmed_save_witness :
  let m := (Scenario.play [KeyMsg "x"; KeyMsg "ctrl+s"]).1 in
  KeyMsg "ctrl+s" = KeyMsg "ctrl+s" ∧ checksPass m ∧
  (pendingConfirm m = true ∨ ta_Value (ta m) = orig m).
Proof.
  apply (machine_changes_only_on_confirmed_save (H := Double.libs)
           (Scenario.play [KeyMsg "x"; KeyMsg "ctrl+s"]).1 (KeyMsg "ctrl+s") Scenario.w0).
  intros Heq. apply (f_equal trace) in Heq. vm_compute in Heq. discriminate.
Defined.

Lemma pending_checksPass :
  checksPass (H := Double.libs) (Scenario.play [KeyMsg "x"; KeyMsg "ctrl+s"]).1.
Proof.
  split; [vm_compute; reflexivity|]. split; [vm_compute; reflexivity|].
  eexists _, _. split; vm_compute; reflexivity.
Defined.


Lemma failed_write_keeps_buffer_and_disk_witness :
  let m := (Scenario.play [KeyMsg "x"; KeyMsg "ctrl+s"]).1 in
  let r := Update m (KeyMsg "ctrl+s") Scenario.fullDisk in
  fs r.2 = fs Scenario.fullDisk ∧ ta r.1.1 = ta m ∧ orig r.1.1 = orig m ∧
  changed r.1.1 = changed m ∧
  err r.1.1 = Some "create temp: no space left on device" ∧
  status r.1.1 = "Save failed" ∧ pendingConfirm r.1.1 = false.
Proof.
  apply (failed_write_keeps_buffer_and_disk (H := Double.libs)
           (Scenario.play [KeyMsg "x"; KeyMsg "ctrl+s"]).1 Scenario.fullDisk).
  - exact pending_checksPass.
  - left. vm_compute. reflexivity.
  - vm_compute. reflexivity.
Defined.

Lemma unsaved_changes_quit_takes_two_requests_witness :
  let m := (Scenario.play [KeyMsg "x"]).1 in
  let twice := KeyMsg "ctrl+q" :: KeyMsg "ctrl+q" :: [KeyMsg "y"] in
  (Update m (KeyMsg "ctrl+q") Scenario.w0).1.2 = CmdNil ∧
  (run m twice Scenario.w0).2 = Scenario.w0 ∧
  ta (run m twice Scenario.w0).1 = ta m ∧
  orig (run m twice Scenario.w0).1 = orig m.
Proof.
  apply (unsaved_changes_quit_takes_two_requests (H := Double.libs)
           (Scenario.play [KeyMsg "x"]).1 [KeyMsg "y"] Scenario.w0);
    vm_compute; reflexivity.
Defined.

Lemma first_checksPass :
  checksPass (H := Double.libs) (Scenario.play [KeyMsg "x"]).1.
Proof.
  split; [vm_compute; reflexivity|]. split; [vm_compute; reflexivity|].
  eexists _, _. split; vm_compute; reflexivity.
Defined.

Lemma save_request_disarms_quit_guard_witness :
  let m := (Scenario.play [KeyMsg "x"]).1 in
  let msgs := KeyMsg "ctrl+s" :: KeyMsg "ctrl+q" :: [KeyMsg "ctrl+s"] in
  (run m msgs Scenario.w0).2 = Scenario.w0 ∧
  ta (run m msgs Scenario.w0).1 = ta m ∧
  orig (run m msgs Scenario.w0).1 = orig m.
Proof.
  apply (save_request_disarms_quit_guard (H := Double.libs)
           (Scenario.play [KeyMsg "x"]).1 [KeyMsg "ctrl+s"] Scenario.w0).
  - exact first_checksPass.
  - vm_compute. reflexivity.
  - vm_compute. discriminate.
  - vm_compute. reflexivity.
Defined.

End SessionProps.

(* ===================================================================== *)
(** * The rotate and run commands as a whole                            *)
(* ===================================================================== *)

Module CommandProps.
Import Strings OS Model Tea Age Main StringProps GatewayProps RotateProps.

Local Opaque createTempTries.

Section Commands.
Context `{External}.

(** X18. A recipients file that loads gives at least one recipient, parsed
    from the bytes of the file. *)
Theorem recipients_file_yields_recipients (path : string) (w : World)
    (rs : list Recipient) :
  (LoadRecipients path w).1 = Ok rs →
  rs ≠ [] ∧ (LoadRecipients path w).2 = w ∧
  ∃ b, fs w !! path = Some b ∧ age_ParseRecipients b = Ok rs.
Proof.
  unfold LoadRecipients, ReadFile, bind, ret.
  destruct (fs w !! path) as [b|] eqn:Hb; simpl; [|done].
  destruct (age_ParseRecipients b) as [[|r rs']|e] eqn:Hparse; simpl; try done.
  intros [= <-]. split; [done|]. split; [done|]. by exists b.
Qed.

Lemma runRotate_steps (cfg : RotateConfig) (w : World) :
  (∃ e, runRotate cfg w = (Ret (Some e), w)) ∨
  ∃ ids newRecips entries,
    filepath_WalkDir (fs w) (Root cfg) = Ok entries ∧ matched entries ≠ [] ∧
    fs (runRotate cfg w).2
    = fs (outcomes ids newRecips (matched entries) w).2.
Proof.
  unfold runRotate, bind.
  pose proof (LoadIdentities_pure (RotateIdentitiesPath cfg) w) as Hp1.
  destruct (LoadIdentities (RotateIdentitiesPath cfg) w) as [[ids|e] w1];
    simpl in Hp1; subst w1; [|left; by eexists].
  pose proof (LoadRecipients_pure (ToRecipientsFile cfg) w) as Hp2.
  destruct (LoadRecipients (ToRecipientsFile cfg) w) as [[newRecips|e] w2];
    simpl in Hp2; subst w2; [|left; by eexists].
  destruct (filepath_WalkDir (fs w) (Root cfg)) as [entries|e] eqn:Hwalk;
    [|left; by eexists].
  case_bool_decide as Hlen; [left; by eexists|].
  right. exists ids, newRecips, entries. split; [done|].
  split; [intros Heq; apply Hlen; by rewrite Heq|].
  rewrite rotateFiles_outcomes. simpl. unfold ret, Println.
  by destruct (0 <? _).
Qed.

(** X19. Rotation changes matched files only, whatever its outcome. *)
Theorem rotation_touches_matched_files_only (cfg : RotateConfig) (w : World)
    (p : string) :
  (∀ entries, filepath_WalkDir (fs w) (Root cfg) = Ok entries →
              p ∉ matched entries) →
  fs (runRotate cfg w).2 !! p = fs w !! p.
Proof.
  intros Hp.
  destruct (runRotate_steps cfg w) as [[e ->]|(ids & newRecips & entries & Hwalk & _ & ->)];
    [done|].
  apply outcomes_frame. by apply Hp.
Qed.

(** X20. With nothing to rotate the job returns an error and leaves the
    machine as it was. *)
Theorem rotation_without_matches_is_an_error (cfg : RotateConfig) (w : World) :
  (∀ entries, filepath_WalkDir (fs w) (Root cfg) = Ok entries →
              matched entries = []) →
  ∃ e, runRotate cfg w = (Ret (Some e), w).
Proof.
  intros Hnone.
  destruct (runRotate_steps cfg w) as [?|(ids & newRecips & entries & Hwalk & Hne & _)];
    [done|].
  destruct Hne. by apply Hnone.
Qed.

Lemma envExec_steps (environ : list string) (cfg : RunConfig) (w : World) :
  fs (envExec environ cfg w).2 = fs w ∧
  trace (envExec environ cfg w).2 = trace w ∧
  stdout (envExec environ cfg w).2 = stdout w ∧
  stderr (envExec environ cfg w).2 = stderr w ∧
  ∀ path argv env,
    (envExec environ cfg w).1 = Replaced path argv env →
    argv = Command cfg ∧
    exec_LookPath (default "" (head (Command cfg))) = Ok path ∧
    ∃ ids plain,
      (LoadIdentities (RunIdentitiesPath cfg) w).1 = Ok ids ∧
      (DecryptToMemory (RunFilePath cfg) ids w).1 = Ok plain ∧
      EnvMerge.mergeEnv environ plain = Some env.
Proof.
  unfold envExec, bind, ret.
  pose proof (LoadIdentities_pure (RunIdentitiesPath cfg) w) as Hp1.
  destruct (LoadIdentities (RunIdentitiesPath cfg) w) as [[ids|e] w1];
    simpl in Hp1; subst w1; [|done].
  unfold DecryptToMemory, ReadFile, bind, ret.
  destruct (fs w !! RunFilePath cfg) as [data|]; simpl; [|done].
  destruct (decryptBytes data ids) as [plain|e] eqn:Hdec; simpl; [|done].
  destruct (EnvMerge.mergeEnv environ plain) as [envMap|] eqn:Hmerge; [|done].
  destruct (exec_LookPath _) as [path|e] eqn:Hlook; [|done].
  unfold fault. destruct (faults w) as [|[e|] rest]; simpl.
  - refine (conj eq_refl (conj eq_refl (conj eq_refl (conj eq_refl _)))).
    intros ? ? ? [= <- <- <-]. split; [done|].
    split; [done|]. by exists ids, plain.
  - done.
  - refine (conj eq_refl (conj eq_refl (conj eq_refl (conj eq_refl _)))).
    intros ? ? ? [= <- <- <-]. split; [done|].
    split; [done|]. by exists ids, plain.
Qed.

(** X21. The run command writes and prints nothing, whatever its outcome. *)
Theorem run_command_writes_nothing (environ args : list string) (w : World) :
  fs (runEnvExec environ args w).2 = fs w ∧
  trace (runEnvExec environ args w).2 = trace w ∧
  stdout (runEnvExec environ args w).2 = stdout w ∧
  stderr (runEnvExec environ args w).2 = stderr w.
Proof.
  unfold runEnvExec. destruct (parseRun args) as [[runFile runArgs]|e]; [|done].
  destruct (envExec_steps environ
              {| RunFilePath := runFile; RunIdentitiesPath := defaultIdentitiesPath;
                 Command := runArgs |} w) as (? & ? & ? & ? & _).
  done.
Qed.

(** X22. What the process is replaced by: the command after the second
    marker, which is not empty, at the path found for its first word,
    in the merged environment of the decrypted file. *)
Theorem run_command_hands_over_merged_environment (environ args : list string)
    (w : World) (path : string) (argv : list string) (env : gmap string string) :
  (runEnvExec environ args w).1 = Replaced path argv env →
  ∃ runFile ids plain,
    parseRun args = Ok (runFile, argv) ∧
    argv ≠ [] ∧
    exec_LookPath (default "" (head argv)) = Ok path ∧
    (LoadIdentities defaultIdentitiesPath w).1 = Ok ids ∧
    (DecryptToMemory runFile ids w).1 = Ok plain ∧
    EnvMerge.mergeEnv environ plain = Some env.
Proof.
  unfold runEnvExec.
  destruct (parseRun args) as [[runFile runArgs]|e] eqn:Hparse; [|done].
  intros Hrun.
  destruct (envExec_steps environ
              {| RunFilePath := runFile; RunIdentitiesPath := defaultIdentitiesPath;
                 Command := runArgs |} w) as (_ & _ & _ & _ & Hexec).
  destruct (Hexec _ _ _ Hrun) as (-> & Hlook & ids & plain & Hids & Hdec & Hmerge).
  simpl in *. exists runFile, ids, plain.
  split; [done|]. split; [|done].
  by destruct (RunSyntaxProps.parseRun_Ok_inv _ _ _ Hparse) as (? & _ & _ & _ & ?).
Qed.

End Commands.

Lemma recipients_file_yields_recipients_witness :
  [8] ≠ [] ∧
  (LoadRecipients (H := Double.libs) "new-recipients" Scenario.tree).2 = Scenario.tree ∧
  ∃ b, fs Scenario.tree !! "new-recipients" = Some b ∧ Double.parseKeys b = Ok [8].
Proof.
  apply (recipients_file_yields_recipients (H := Double.libs) "new-recipients"
           Scenario.tree [8]).
  vm_compute. reflexivity.
Defined.

Lemma rotation_touches_matched_files_only_witness :
  fs (runRotate (H := Double.libs) Scenario.rotateCfg Scenario.tree).2 !! "secrets/notes.txt"
  = fs Scenario.tree !! "secrets/notes.txt".
Proof.
  apply (rotation_touches_matched_files_only (H := Double.libs)).
  intros entries Hwalk. vm_compute in Hwalk. injection Hwalk as <-.
  apply (bool_decide_unpack _). vm_compute. exact I.
Defined.

Lemma rotation_without_matches_is_an_error_witness :
  ∃ e, runRotate (H := Double.libs) Scenario.rotateCfg Scenario.notesOnly
       = (Ret (Some e), Scenario.notesOnly).
Proof.
  apply (rotation_without_matches_is_an_error (H := Double.libs)).
  intros entries Hwalk. vm_compute in Hwalk. injection Hwalk as <-.
  vm_compute. reflexivity.
Defined.

Lemma run_command_hands_over_merged_environment_witness :
  ∃ runFile ids plain,
    parseRun ["--"; "secrets/a.age"; "--"; "env"; "-0"] = Ok (runFile, ["env"; "-0"]) ∧
    ["env"; "-0"] ≠ [] ∧
    @exec_LookPath Double.libs (default "" (head ["env"; "-0"])) = Ok "/usr/bin/env" ∧
    (LoadIdentities (H := Double.libs) (defaultIdentitiesPath (H := Double.libs))
       Scenario.tree).1 = Ok ids ∧
    (DecryptToMemory (H := Double.libs) runFile ids Scenario.tree).1 = Ok plain ∧
    EnvMerge.mergeEnv ["A=0"; "HOME=/home/u"] plain
    = Some (<["A" := "1"]> (<["HOME" := "/home/u"]> ∅)).
Proof.
  apply (run_command_hands_over_merged_environment (H := Double.libs)
           ["A=0"; "HOME=/home/u"] ["--"; "secrets/a.age"; "--"; "env"; "-0"]
           Scenario.tree "/usr/bin/env" ["env"; "-0"]).
  vm_compute. reflexivity.
Defined.


End CommandProps.
